(** * CustoMusic: playlist catalog and playback engine

    A shallow embedding of [playlist_manager.py] (class [PlaylistManager])
    and [music_player.py] (class [MusicPlayerEngine]), with the properties
    their specification states about them.

    Conventions of the embedding.
    - Python methods that touch the file system, the clock or the audio
      backend are computations in a state-and-exception monad; [try/except]
      blocks are [try_catch], uncaught exceptions are the [Raised] result.
    - A Python [dict] that is iterated or serialised keeps its insertion
      order, so it is an association list with unique keys; a Python [set]
      is a [gset].
    - [pathlib] paths are POSIX strings in normal form; [str.lower] is the
      ASCII lower-casing.
    - [float] values (seconds, volume, speed) are exact rationals.
    - Console output ([print]) is not modelled. *)

From Stdlib Require Import Ascii String QArith Qminmax Lqa.
From stdpp Require Import base strings list gmap sorting pretty.

Local Open Scope string_scope.
Local Open Scope list_scope.
Set Warnings "-clear-no-such-hyp".

(** ** Exceptions and the state monad *)

Inductive exn : Type :=
| OSError
| JSONDecodeError
| KeyError (key : string)
| ValueError
| PygameError (msg : string).

Inductive result (A : Type) : Type :=
| Ok (a : A)
| Raised (e : exn).
Arguments Ok {A} a.
Arguments Raised {A} e.

Definition M (S A : Type) : Type := S -> result A * S.

Definition ret {S A} (a : A) : M S A := fun s => (Ok a, s).

Definition bind {S A B} (m : M S A) (k : A -> M S B) : M S B :=
  fun s =>
    match m s with
    | (Ok a, s') => k a s'
    | (Raised e, s') => (Raised e, s')
    end.

Definition raise {S A} (e : exn) : M S A := fun s => (Raised e, s).

(** [try: m except Exception as e: h e] *)
Definition try_catch {S A} (m : M S A) (h : exn -> M S A) : M S A :=
  fun s =>
    match m s with
    | (Ok a, s') => (Ok a, s')
    | (Raised e, s') => h e s'
    end.

Definition gets {S A} (f : S -> A) : M S A := fun s => (Ok (f s), s).
Definition modify {S} (f : S -> S) : M S unit := fun s => (Ok tt, f s).

Declare Scope monad_scope.
Delimit Scope monad_scope with monad.
Notation "'let*' x ':=' c 'in' k" := (bind c (fun x => k))
  (at level 10, x name, c at level 100, k at level 200) : monad_scope.
Notation "'let*' ' p ':=' c 'in' k" := (bind c (fun p => k))
  (at level 10, p pattern, c at level 100, k at level 200) : monad_scope.
Notation "c ;; k" := (bind c (fun _ => k))
  (at level 100, k at level 200, right associativity) : monad_scope.
Local Open Scope monad_scope.

(** [for x in l: acc = body acc x], the loop variable state being [acc]. *)
Fixpoint for_each {S A B} (l : list A) (body : B -> A -> M S B) (acc : B)
  : M S B :=
  match l with
  | [] => ret acc
  | x :: l' => let* acc' := body acc x in for_each l' body acc'
  end.

(** ** Strings and paths *)

Module Pathlib.

Definition lower_ascii (c : ascii) : ascii :=
  let n := Ascii.N_of_ascii c in
  if ((65 <=? n) && (n <=? 90))%N then Ascii.ascii_of_N (n + 32) else c.

(** [s.lower()] of a string of ASCII characters: the letters A to Z are
    lower-cased, every other character is kept. *)
Fixpoint lower (s : string) : string :=
  match s with
  | EmptyString => EmptyString
  | String c r => String (lower_ascii c) (lower r)
  end.

(** [s.isascii()] *)
Fixpoint isascii (s : string) : bool :=
  match s with
  | EmptyString => true
  | String c r => (Ascii.N_of_ascii c <? 128)%N && isascii r
  end.

(** Split at the last occurrence of [sep]: [s.rfind(sep)] with the text
    before and after it. *)
Fixpoint rsplit (sep : ascii) (s : string) : option (string * string) :=
  match s with
  | EmptyString => None
  | String c r =>
      match rsplit sep r with
      | Some (before, after) => Some (String c before, after)
      | None => if Ascii.eqb c sep then Some (EmptyString, r) else None
      end
  end.

(** [PurePath.name]: the final path component. *)
Definition name (p : string) : string :=
  match rsplit "/" p with
  | Some (_, after) => after
  | None => p
  end.

(** [PurePath.suffix]: [i = name.rfind('.')]; [name[i:]] when
    [0 < i < len(name) - 1], otherwise the empty string. *)
Definition suffix (p : string) : string :=
  match rsplit "." (name p) with
  | Some (String _ _, String c r) => String "." (String c r)
  | _ => EmptyString
  end.

(** [PurePath.stem]: the name without its suffix. *)
Definition stem (p : string) : string :=
  match rsplit "." (name p) with
  | Some (String b r, String _ _) => String b r
  | _ => name p
  end.

(** [parent / child] for a relative [child]. *)
Definition join (parent child : string) : string :=
  parent +:+ "/" +:+ child.

(** [Path.absolute()] under the working directory [cwd]. *)
Definition absolute (cwd p : string) : string :=
  match p with
  | String "/" _ => p
  | _ => join cwd p
  end.

End Pathlib.

(** ** Stable sorting, as [list.sort(key=...)] *)

Section StableSort.
Context {A K : Type} (key : A -> K) (ltb : K -> K -> bool).

(** [x] is placed before the first element whose key is not smaller. *)
Fixpoint insert_sorted (x : A) (l : list A) : list A :=
  match l with
  | [] => [x]
  | y :: l' =>
      if ltb (key y) (key x) then y :: insert_sorted x l'
      else x :: y :: l'
  end.

Definition sort_by (l : list A) : list A := foldr insert_sorted [] l.

(** [key x] is not above [key y]. *)
Definition key_le (x y : A) : Prop := ltb (key y) (key x) = false.
End StableSort.

(** [enumerate(l, start)] *)
Fixpoint enumerate {A} (start : Z) (l : list A) : list (Z * A) :=
  match l with
  | [] => []
  | x :: l' => (start, x) :: enumerate (start + 1) l'
  end.

(** The line terminator written by [f.write("...\n")]. *)
Definition nl : string := String (Ascii.ascii_of_nat 10) EmptyString.

(** ** Insertion-ordered dictionaries *)

Section Dict.
Context {V : Type}.

(** [d.get(k)]; [k in d] is [is_Some (dict_get k d)]. *)
Fixpoint dict_get (k : string) (d : list (string * V)) : option V :=
  match d with
  | [] => None
  | (k', v) :: d' => if String.eqb k k' then Some v else dict_get k d'
  end.

(** [d[k] = v]: an existing key keeps its position, a new one goes last. *)
Fixpoint dict_set (k : string) (v : V) (d : list (string * V))
  : list (string * V) :=
  match d with
  | [] => [(k, v)]
  | (k', v') :: d' =>
      if String.eqb k k' then (k, v) :: d' else (k', v') :: dict_set k v d'
  end.

(** The dictionary left by a successful [del d[k]]. *)
Definition dict_remove (k : string) (d : list (string * V))
  : list (string * V) :=
  filter (fun kv => kv.1 <> k) d.

Definition keys (d : list (string * V)) : list string := d.*1.
End Dict.

(** ** The catalog: [PlaylistManager] *)

Module Catalog.

(** *** Descriptors (the JSON of [playlist.json]) *)

(** One value of the ["tracks"] object; every key may be absent. *)
Record track_info : Type := TrackInfo {
  ti_display_name : option string;
  ti_order : option Z;
  ti_added : option string;
  ti_modified : option string }.

Record descriptor : Type := Descriptor {
  display_name : option string;
  description : option string;
  created : option string;
  modified : option string;
  tracks : option (list (string * track_info)) }.

Definition set_modified (stamp : string) (d : descriptor) : descriptor :=
  {| display_name := display_name d; description := description d;
     created := created d; modified := Some stamp; tracks := tracks d |}.

Definition set_tracks (ts : list (string * track_info)) (d : descriptor)
  : descriptor :=
  {| display_name := display_name d; description := description d;
     created := created d; modified := modified d; tracks := Some ts |}.

Definition set_order (i : Z) (t : track_info) : track_info :=
  {| ti_display_name := ti_display_name t; ti_order := Some i;
     ti_added := ti_added t; ti_modified := ti_modified t |}.

(** [bool(descriptor)]: a dict is true when it has at least one key. *)
Definition truthy (d : descriptor) : bool :=
  match d with
  | Descriptor None None None None None => false
  | _ => true
  end.

(** *** The file system under [playlists_dir], and the clock *)

Inductive content : Type :=
| Json (d : descriptor)   (* text that [json.load] parses into [d] *)
| Text (s : string).      (* text that is not JSON: audio data, exports *)

Inductive node : Type :=
| Directory
| File (c : content).

(** A playlist folder: its nodes by relative path, in listing order. *)
Record folder : Type := Folder {
  writable : bool;
  entries : list (string * node) }.

Inductive item : Type :=
| PlainFile
| Dir (f : folder).

Record world : Type := World {
  cwd : string;
  playlists_dir : string;
  playlists : list (string * item);
  clock : nat -> string;      (* the successive readings of [datetime.now()] *)
  ticks : nat }.              (* how many readings were taken *)

(** A [Path] below a playlist folder. *)
Record track_path : Type := TrackPath {
  playlist_of : string;
  relative : string }.

Definition set_playlists (ps : list (string * item)) (w : world) : world :=
  {| cwd := cwd w; playlists_dir := playlists_dir w; playlists := ps;
     clock := clock w; ticks := ticks w |}.

Definition folder_of (w : world) (playlist_dir : string) : option folder :=
  match dict_get playlist_dir (playlists w) with
  | Some (Dir f) => Some f
  | _ => None
  end.

Definition nodes (w : world) (playlist_dir : string) : list (string * node) :=
  match folder_of w playlist_dir with
  | Some f => entries f
  | None => []
  end.

Definition is_file (n : node) : bool :=
  match n with File _ => true | Directory => false end.

(** [str(path)] *)
Definition path_str (w : world) (p : track_path) : string :=
  Pathlib.join (Pathlib.join (playlists_dir w) (playlist_of p)) (relative p).

(** The world after one more reading of the clock. *)
Definition tick (w : world) : world :=
  {| cwd := cwd w; playlists_dir := playlists_dir w;
     playlists := playlists w; clock := clock w; ticks := S (ticks w) |}.

(** The world after [k] more readings. *)
Definition elapsed (k : nat) (w : world) : world :=
  {| cwd := cwd w; playlists_dir := playlists_dir w;
     playlists := playlists w; clock := clock w; ticks := k + ticks w |}.

(** [datetime.datetime.now().isoformat()] *)
Definition _get_timestamp : M world string :=
  fun w => (Ok (clock w (ticks w)), tick w).

(** [playlist_dir.exists()] *)
Definition dir_exists (playlist_dir : string) : M world bool :=
  gets (fun w => bool_decide (is_Some (dict_get playlist_dir (playlists w)))).

(** [(playlist_dir / rel).exists()] *)
Definition path_exists (playlist_dir rel : string) : M world bool :=
  gets (fun w => bool_decide (is_Some (dict_get rel (nodes w playlist_dir)))).

(** [playlists_dir.iterdir()], each name with its [is_dir()]. *)
Definition iterdir : M world (list (string * bool)) :=
  gets (fun w =>
          (fun '(name, it) =>
             (name, match it with Dir _ => true | PlainFile => false end))
            <$> playlists w).

(** [[p for p in directory.rglob('*') if p.is_file()]] *)
Definition rglob_files (directory : string) : M world (list track_path) :=
  gets (fun w =>
          (fun kv => TrackPath directory kv.1)
            <$> filter (fun kv => is_file kv.2 = true) (nodes w directory)).

(** The world with node [n] at [rel] in an existing playlist folder. *)
Definition with_node (playlist_dir rel : string) (n : node) (w : world)
  : world :=
  match folder_of w playlist_dir with
  | Some f =>
      let f' := {| writable := writable f;
                   entries := dict_set rel n (entries f) |} in
      set_playlists (dict_set playlist_dir (Dir f') (playlists w)) w
  | None => w
  end.

(** Storing content [c] at [playlist_dir / rel]; it fails, as [open] does,
    outside a writable folder and on a directory. *)
Definition put_file (playlist_dir rel : string) (c : content)
  : M world unit :=
  fun w =>
    match folder_of w playlist_dir with
    | Some f =>
        if writable f then
          match dict_get rel (entries f) with
          | Some Directory => (Raised OSError, w)
          | _ => (Ok tt, with_node playlist_dir rel (File c) w)
          end
        else (Raised OSError, w)
    | None => (Raised OSError, w)
    end.

(** [open(playlist_dir / rel, 'w')]: creates or truncates the file. *)
Definition open_w (playlist_dir rel : string) : M world unit :=
  put_file playlist_dir rel (Text "").

(** [f.write(s)] on a file opened by [open_w]. *)
Definition write (playlist_dir rel s : string) : M world unit :=
  fun w =>
    match dict_get rel (nodes w playlist_dir) with
    | Some (File (Text old)) => put_file playlist_dir rel (Text (old +:+ s)) w
    | _ => (Raised OSError, w)
    end.

(** [with open(path, 'w') as f: json.dump(descriptor, f, ...)] *)
Definition json_dump (playlist_dir rel : string) (d : descriptor)
  : M world unit :=
  open_w playlist_dir rel ;;
  put_file playlist_dir rel (Json d).

(** [with open(path, 'r') as f: return json.load(f)] *)
Definition json_load (playlist_dir rel : string) : M world descriptor :=
  fun w =>
    match dict_get rel (nodes w playlist_dir) with
    | Some (File (Json d)) => (Ok d, w)
    | Some (File (Text _)) => (Raised JSONDecodeError, w)
    | _ => (Raised OSError, w)
    end.

(** [track_path.relative_to(playlist_dir)] *)
Definition relative_to (p : track_path) (playlist_dir : string)
  : M world string :=
  if String.eqb (playlist_of p) playlist_dir then ret (relative p)
  else raise ValueError.

(** *** The methods of [PlaylistManager] *)

Definition descriptor_filename : string := "playlist.json".

Definition audio_extensions : gset string :=
  {[ ".mp3"; ".wav"; ".flac"; ".ogg"; ".wma"; ".aiff"; ".agg" ]}.

Definition _get_audio_files (directory : string) : M world (list track_path) :=
  let* files := rglob_files directory in
  let audio_files :=
    filter (fun file_path =>
              Pathlib.lower (Pathlib.suffix (relative file_path))
                ∈ audio_extensions) files in
  ret (sort_by (fun x => Pathlib.lower (Pathlib.name (relative x)))
               String.ltb audio_files).

Definition _load_descriptor (playlist_dir : string)
  : M world (option descriptor) :=
  try_catch
    (let* ex := path_exists playlist_dir descriptor_filename in
     if ex then
       let* d := json_load playlist_dir descriptor_filename in ret (Some d)
     else ret None)
    (fun _ => ret None).

(** [descriptor and 'tracks' in descriptor], with the tracks found. *)
Definition tracks_in (descriptor : option descriptor)
  : option (list (string * track_info)) :=
  match descriptor with
  | Some d => if truthy d then tracks d else None
  | None => None
  end.

(** [a or b] on an optional descriptor. *)
Definition or_else (a : option descriptor) (b : M world descriptor)
  : M world descriptor :=
  match a with
  | Some d => if truthy d then ret d else b
  | None => b
  end.

Definition _ensure_descriptor_exists (playlist_dir : string) : M world unit :=
  let* ex := path_exists playlist_dir descriptor_filename in
  if ex then ret tt
  else
    let* audio_files := _get_audio_files playlist_dir in
    let* stamp := _get_timestamp in
    let descriptor :=
      {| display_name := Some playlist_dir;
         description := Some ("Auto-generated playlist for " +:+ playlist_dir);
         created := Some stamp; modified := None; tracks := Some [] |} in
    let* ts :=
      for_each (enumerate 1 audio_files)
        (fun ts '(i, audio_file) =>
           let* added := _get_timestamp in
           ret (dict_set (relative audio_file)
                  {| ti_display_name := Some (Pathlib.stem (relative audio_file));
                     ti_order := Some i; ti_added := Some added;
                     ti_modified := None |} ts))
        [] in
    try_catch
      (json_dump playlist_dir descriptor_filename (set_tracks ts descriptor))
      (fun _ => ret tt).

Definition initialize_descriptors : M world unit :=
  let* items := iterdir in
  for_each items
    (fun _ '(name, is_dir) =>
       if is_dir : bool then _ensure_descriptor_exists name else ret tt)
    tt.

Definition get_playlists : M world (list (string * descriptor)) :=
  let* items := iterdir in
  for_each items
    (fun playlists '(name, is_dir) =>
       if is_dir : bool then
         let* descriptor := _load_descriptor name in
         match descriptor with
         | Some d => if truthy d then ret (dict_set name d playlists)
                     else ret playlists
         | None => ret playlists
         end
       else ret playlists)
    [].

(** [track_info.get('order', 999)] *)
Definition order_of (t : track_info) : Z := default 999%Z (ti_order t).

Definition get_playlist_tracks (playlist_name : string)
  : M world (list track_path) :=
  let* ex := dir_exists playlist_name in
  if negb ex then ret []
  else
    let* descriptor := _load_descriptor playlist_name in
    match tracks_in descriptor with
    | Some ts =>
        let* track_entries :=
          for_each ts
            (fun track_entries '(relative_path, track_info) =>
               let* ex := path_exists playlist_name relative_path in
               if ex then
                 ret (track_entries
                        ++ [(order_of track_info,
                             TrackPath playlist_name relative_path)])
               else ret track_entries)
            [] in
        ret ((sort_by fst Z.ltb track_entries).*2)
    | None => _get_audio_files playlist_name
    end.

Definition get_track_display_name (playlist_name : string)
    (track_path : track_path) : M world string :=
  let* descriptor := _load_descriptor playlist_name in
  let* found :=
    match tracks_in descriptor with
    | Some ts =>
        try_catch
          (let* relative_path := relative_to track_path playlist_name in
           match dict_get relative_path ts with
           | Some track_info => ret (ti_display_name track_info)
           | None => ret None
           end)
          (fun _ => ret None)
    | None => ret None
    end in
  match found with
  | Some name => ret name
  | None => ret (Pathlib.stem (relative track_path))
  end.

(** The body of the loop of [refresh_playlist] over [current_files]; its
    state is the descriptor and [current_relative_paths]. *)
Definition add_new_track (playlist_name : string)
    (existing_tracks : gset string) (state : descriptor * gset string)
    (file_path : track_path) : M world (descriptor * gset string) :=
  let '(descriptor, current_relative_paths) := state in
  let* relative_path := relative_to file_path playlist_name in
  let current_relative_paths : gset string :=
    current_relative_paths ∪ {[ relative_path ]} in
  if bool_decide (relative_path ∈ existing_tracks) then
    ret (descriptor, current_relative_paths)
  else
    match tracks descriptor with
    | None => raise (KeyError "tracks")
    | Some ts =>
        let* added := _get_timestamp in
        let info :=
          {| ti_display_name := Some (Pathlib.stem (relative file_path));
             ti_order := Some (Z.of_nat (length ts) + 1)%Z;
             ti_added := Some added; ti_modified := None |} in
        ret (set_tracks (dict_set relative_path info ts) descriptor,
             current_relative_paths)
    end.

(** [del descriptor['tracks'][track_path]], the body of the loop over
    [tracks_to_remove]. *)
Definition remove_track (d : descriptor) (track_path : string)
  : M world descriptor :=
  match tracks d with
  | None => raise (KeyError "tracks")
  | Some ts =>
      match dict_get track_path ts with
      | Some _ => ret (set_tracks (dict_remove track_path ts) d)
      | None => raise (KeyError track_path)
      end
  end.

(** The descriptor [refresh_playlist] starts from when none is stored. *)
Definition default_descriptor (playlist_name stamp : string) : descriptor :=
  {| display_name := Some playlist_name;
     description := Some ("Playlist for " +:+ playlist_name);
     created := Some stamp; modified := None; tracks := Some [] |}.

Definition refresh_playlist (playlist_name : string) : M world bool :=
  let* ex := dir_exists playlist_name in
  if negb ex then ret false
  else
    let* current_files := _get_audio_files playlist_name in
    let* loaded := _load_descriptor playlist_name in
    let* descriptor :=
      or_else loaded
        (let* stamp := _get_timestamp in
         ret (default_descriptor playlist_name stamp)) in
    let existing_tracks : gset string :=
      list_to_set (keys (default [] (tracks descriptor))) in
    let* '(descriptor, current_relative_paths) :=
      for_each current_files (add_new_track playlist_name existing_tracks)
        (descriptor, ∅) in
    let tracks_to_remove := existing_tracks ∖ current_relative_paths in
    let* descriptor :=
      for_each (elements tracks_to_remove) remove_track descriptor in
    let* stamp := _get_timestamp in
    let descriptor := set_modified stamp descriptor in
    try_catch
      (json_dump playlist_name descriptor_filename descriptor ;; ret true)
      (fun _ => ret false).

Definition reorder_tracks (playlist_name : string)
    (track_order : list string) : M world bool :=
  let* descriptor := _load_descriptor playlist_name in
  match descriptor, tracks_in descriptor with
  | Some descriptor, Some ts =>
      try_catch
        (let* ts :=
           for_each (enumerate 1 track_order)
             (fun ts '(i, relative_path) =>
                match dict_get relative_path ts with
                | Some info => ret (dict_set relative_path (set_order i info) ts)
                | None => ret ts
                end)
             ts in
         let* stamp := _get_timestamp in
         json_dump playlist_name descriptor_filename
           (set_modified stamp (set_tracks ts descriptor)) ;;
         ret true)
        (fun _ => ret false)
  | _, _ => ret false
  end.

(** [track_path.absolute()] as text *)
Definition absolute (track_path : track_path) : M world string :=
  gets (fun w => Pathlib.absolute (cwd w) (path_str w track_path)).

Definition export_playlist (playlist_name format : string)
  : M world (option string) :=
  if negb (bool_decide (format ∈ ["m3u"; "pls"])) then ret None
  else
    let* tracks := get_playlist_tracks playlist_name in
    match tracks with
    | [] => ret None
    | _ :: _ =>
        let export_path := playlist_name +:+ "." +:+ format in
        let f_write := write playlist_name export_path in
        try_catch
          ((if String.eqb format "m3u" then
              open_w playlist_name export_path ;;
              f_write ("#EXTM3U" +:+ nl) ;;
              for_each tracks
                (fun _ track_path =>
                   let* display_name :=
                     get_track_display_name playlist_name track_path in
                   f_write ("#EXTINF:-1," +:+ display_name +:+ nl) ;;
                   let* abs := absolute track_path in
                   f_write (abs +:+ nl))
                tt
            else if String.eqb format "pls" then
              open_w playlist_name export_path ;;
              f_write ("[playlist]" +:+ nl) ;;
              for_each (enumerate 1 tracks)
                (fun _ '(i, track_path) =>
                   let* abs := absolute track_path in
                   f_write ("File" +:+ pretty i +:+ "=" +:+ abs +:+ nl) ;;
                   let* display_name :=
                     get_track_display_name playlist_name track_path in
                   f_write ("Title" +:+ pretty i +:+ "=" +:+ display_name +:+ nl) ;;
                   f_write ("Length" +:+ pretty i +:+ "=-1" +:+ nl))
                tt ;;
              f_write ("NumberOfEntries="
                         +:+ pretty (Z.of_nat (length tracks)) +:+ nl) ;;
              f_write ("Version=2" +:+ nl)
            else ret tt) ;;
           let* p := gets (fun w =>
                             path_str w (TrackPath playlist_name export_path)) in
           ret (Some p))
          (fun _ => ret None)
    end.

(** *** The methods that edit a descriptor, and [create_playlist] *)

Definition set_display_name (v : string) (d : descriptor) : descriptor :=
  {| display_name := Some v; description := description d;
     created := created d; modified := modified d; tracks := tracks d |}.

Definition set_description (v : string) (d : descriptor) : descriptor :=
  {| display_name := display_name d; description := Some v;
     created := created d; modified := modified d; tracks := tracks d |}.

Definition set_ti_display_name (v : string) (t : track_info) : track_info :=
  {| ti_display_name := Some v; ti_order := ti_order t;
     ti_added := ti_added t; ti_modified := ti_modified t |}.

Definition set_ti_modified (stamp : string) (t : track_info) : track_info :=
  {| ti_display_name := ti_display_name t; ti_order := ti_order t;
     ti_added := ti_added t; ti_modified := Some stamp |}.

Definition get_playlist_display_name (playlist_name : string)
  : M world string :=
  let* descriptor := _load_descriptor playlist_name in
  match descriptor with
  | Some d =>
      if truthy d then
        match display_name d with
        | Some name => ret name
        | None => ret playlist_name
        end
      else ret playlist_name
  | None => ret playlist_name
  end.

(** [descriptor[key] = value] for the keys [update_playlist_descriptor]
    honours; the other keyword arguments are ignored. *)
Definition set_descriptor_key (d : descriptor) (kwarg : string * string)
  : descriptor :=
  let '(key, value) := kwarg in
  if bool_decide (key ∈ ["display_name"; "description"]) then
    if String.eqb key "display_name" then set_display_name value d
    else set_description value d
  else d.

(** [**kwargs] is the association list of the keyword arguments, in call
    order, with text values. *)
Definition update_playlist_descriptor (playlist_name : string)
    (kwargs : list (string * string)) : M world bool :=
  let* ex := dir_exists playlist_name in
  if negb ex then ret false
  else
    let* loaded := _load_descriptor playlist_name in
    let* descriptor :=
      or_else loaded
        (let* stamp := _get_timestamp in
         ret {| display_name := Some playlist_name; description := Some "";
                created := Some stamp; modified := None;
                tracks := Some [] |}) in
    let* descriptor :=
      for_each kwargs (fun d kwarg => ret (set_descriptor_key d kwarg))
        descriptor in
    let* stamp := _get_timestamp in
    let descriptor := set_modified stamp descriptor in
    try_catch
      (json_dump playlist_name descriptor_filename descriptor ;; ret true)
      (fun _ => ret false).

(** A keyword argument of [update_track_info]: one of the two keys it
    honours, with a value of the type the descriptor holds there, or any
    other key. *)
Inductive track_kwarg : Type :=
| KwDisplayName (value : string)
| KwOrder (value : Z)
| KwOther (key : string).

(** [track_info[key] = value] when [key in ['display_name', 'order']]. *)
Definition set_track_key (t : track_info) (kwarg : track_kwarg) : track_info :=
  match kwarg with
  | KwDisplayName value => set_ti_display_name value t
  | KwOrder value => set_order value t
  | KwOther _ => t
  end.

Definition update_track_info (playlist_name : string)
    (track_path : track_path) (kwargs : list track_kwarg) : M world bool :=
  let* ex := dir_exists playlist_name in
  if negb ex then ret false
  else
    let* descriptor := _load_descriptor playlist_name in
    match descriptor with
    | None => ret false
    | Some descriptor =>
        if negb (truthy descriptor) then ret false
        else
          try_catch
            (let* relative_path_str := relative_to track_path playlist_name in
             let ts := default [] (tracks descriptor) in
             let* ts :=
               match dict_get relative_path_str ts with
               | Some _ => ret ts
               | None =>
                   let* added := _get_timestamp in
                   ret (dict_set relative_path_str
                          {| ti_display_name :=
                               Some (Pathlib.stem (relative track_path));
                             ti_order := Some (Z.of_nat (length ts) + 1)%Z;
                             ti_added := Some added; ti_modified := None |}
                          ts)
               end in
             match dict_get relative_path_str ts with
             | None => raise (KeyError relative_path_str)
             | Some track_info =>
                 let* track_info :=
                   for_each kwargs (fun t kwarg => ret (set_track_key t kwarg))
                     track_info in
                 let* stamp := _get_timestamp in
                 let track_info := set_ti_modified stamp track_info in
                 let* stamp := _get_timestamp in
                 let descriptor :=
                   set_modified stamp
                     (set_tracks (dict_set relative_path_str track_info ts)
                        descriptor) in
                 json_dump playlist_name descriptor_filename descriptor ;;
                 ret true
             end)
            (fun _ => ret false)
    end.

(** [playlist_dir.mkdir()] for a direct child of the playlists directory.
    It fails on a name that exists. Otherwise the operating system decides,
    and the catalog cannot tell beforehand: [os] is its answer, [None] when
    it refuses, [Some wr] when it makes the directory, in which files can
    ([wr = true]) or cannot be opened for writing. *)
Definition mkdir (os : option bool) (playlist_dir : string) : M world unit :=
  fun w =>
    match dict_get playlist_dir (playlists w), os with
    | None, Some wr =>
        (Ok tt,
         set_playlists
           (dict_set playlist_dir (Dir {| writable := wr; entries := [] |})
              (playlists w)) w)
    | _, _ => (Raised OSError, w)
    end.

(** [a or b] on an optional text: [None] and the empty text are false. *)
Definition or_str (a : option string) (b : string) : string :=
  match a with
  | Some (String c r) => String c r
  | _ => b
  end.

Definition create_playlist (os : option bool) (playlist_name : string)
    (display : option string) (description_text : string) : M world bool :=
  let* ex := dir_exists playlist_name in
  if ex then ret false
  else
    try_catch
      (mkdir os playlist_name ;;
       let* stamp := _get_timestamp in
       let descriptor :=
         {| display_name := Some (or_str display playlist_name);
            description := Some description_text;
            created := Some stamp; modified := None; tracks := Some [] |} in
       json_dump playlist_name descriptor_filename descriptor ;;
       ret true)
      (fun _ => ret false).

(** *** Observations used in the specifications *)

(** The descriptor persisted for a playlist, when it parses. *)
Definition descriptor_at (w : world) (playlist_dir : string)
  : option descriptor :=
  match dict_get descriptor_filename (nodes w playlist_dir) with
  | Some (File (Json d)) => Some d
  | _ => None
  end.

(** Something (a file or a directory) is at [rel] in the playlist folder. *)
Definition on_disk (w : world) (playlist_dir rel : string) : Prop :=
  is_Some (dict_get rel (nodes w playlist_dir)).

(** The [(order, path)] pairs of the entries whose path is on disk, in
    descriptor order. *)
Definition existing_entries (w : world) (playlist_dir : string)
    (ts : list (string * track_info)) : list (Z * track_path) :=
  (fun kv => (order_of kv.2, TrackPath playlist_dir kv.1))
    <$> filter (fun kv => on_disk w playlist_dir kv.1) ts.

(** [open(playlist_dir / rel, 'w')] can succeed: the folder is writable
    and [rel] is not a directory. *)
Definition can_write (w : world) (playlist_dir rel : string) : Prop :=
  exists f, folder_of w playlist_dir = Some f /\ writable f = true
            /\ dict_get rel (entries f) <> Some Directory.

(** The index, counted from [start], of the last occurrence of [x]. *)
Fixpoint last_index (start : Z) (x : string) (l : list string) : option Z :=
  match l with
  | [] => None
  | y :: l' =>
      match last_index (start + 1) x l' with
      | Some i => Some i
      | None => if String.eqb y x then Some start else None
      end
  end.

(** The entry of [rel] once [reorder_tracks] has gone through
    [track_order], numbered from [start]. *)
Definition reordered (start : Z) (track_order : list string) (rel : string)
    (info : track_info) : track_info :=
  match last_index start rel track_order with
  | Some i => set_order i info
  | None => info
  end.

(** The descriptor [refresh_playlist] works on: the stored one when it
    loads and is not empty, else the default one stamped with the clock. *)
Definition starting_descriptor (w : world) (playlist_dir : string)
  : descriptor :=
  match descriptor_at w playlist_dir with
  | Some d =>
      if truthy d then d
      else default_descriptor playlist_dir (clock w (ticks w))
  | None => default_descriptor playlist_dir (clock w (ticks w))
  end.

(** The entries [refresh_playlist] appends for the new files [rels], in
    scan order, to a descriptor that holds [n] entries, from the [t]-th
    reading of the clock on. *)
Fixpoint new_entries (clock : nat -> string) (n t : nat) (rels : list string)
  : list (string * track_info) :=
  match rels with
  | [] => []
  | rel :: rels' =>
      (rel, {| ti_display_name := Some (Pathlib.stem rel);
               ti_order := Some (Z.of_nat n + 1)%Z;
               ti_added := Some (clock t); ti_modified := None |})
        :: new_entries clock (S n) (S t) rels'
  end.

(** The audio files of a folder in listing order, the order in which
    [rglob] yields them. *)
Definition audio_listing (w : world) (playlist_dir : string)
  : list track_path :=
  filter (fun file_path =>
            Pathlib.lower (Pathlib.suffix (relative file_path))
              ∈ audio_extensions)
    ((fun kv => TrackPath playlist_dir kv.1)
       <$> filter (fun kv => is_file kv.2 = true) (nodes w playlist_dir)).

(** The entry [update_track_info] makes for a path the descriptor, with
    tracks [ts], does not hold yet. *)
Definition new_track_info (w : world) (track_path : track_path)
    (ts : list (string * track_info)) : track_info :=
  {| ti_display_name := Some (Pathlib.stem (relative track_path));
     ti_order := Some (Z.of_nat (length ts) + 1)%Z;
     ti_added := Some (clock w (ticks w)); ti_modified := None |}.

(** A regular file with a supported extension is listed at [rel]. *)
Definition audio_on_disk (w : world) (playlist_dir rel : string) : Prop :=
  (exists c, (rel, File c) ∈ nodes w playlist_dir)
  /\ Pathlib.lower (Pathlib.suffix rel) ∈ audio_extensions.

(** The display name that the descriptor persisted for the playlist
    records for a track: the [display_name] of the entry stored under the
    relative path of the track. It is the stem of the file name when the
    descriptor is missing or does not parse, when it has no tracks, when
    the track is not of this playlist, when no entry is stored under its
    path, and when the entry has no [display_name]. *)
Definition display_name_in (w : world) (playlist_name : string)
    (track_path : track_path) : string :=
  let stem := Pathlib.stem (relative track_path) in
  match descriptor_at w playlist_name with
  | Some d =>
      match tracks d with
      | Some ts =>
          if String.eqb (playlist_of track_path) playlist_name then
            match dict_get (relative track_path) ts with
            | Some info => default stem (ti_display_name info)
            | None => stem
            end
          else stem
      | None => stem
      end
  | None => stem
  end.



(** Between [w] and [w'] every node is kept as it was, what could be
    opened for writing still can, and the only new nodes are descriptor
    files. *)
Definition keeps_files (w w' : world) : Prop :=
  (forall name rel n,
      dict_get rel (nodes w name) = Some n ->
      dict_get rel (nodes w' name) = Some n)
  /\ (forall name rel,
        rel <> descriptor_filename ->
        dict_get rel (nodes w' name) = dict_get rel (nodes w name))
  /\ (forall name rel, can_write w name rel -> can_write w' name rel).



(** *** Three statements of the specification, as it words them *)

(** "Each new entry is assigned the next available order": once refreshed,
    no other entry of the descriptor holds the order of an entry that the
    refresh has added. *)
Definition new_orders_available (playlist_name : string) (w : world) : Prop :=
  forall d0 ts0 w1 d1 ts1 rel info rel' info',
    descriptor_at w playlist_name = Some d0 ->
    tracks d0 = Some ts0 ->
    refresh_playlist playlist_name w = (Ok true, w1) ->
    descriptor_at w1 playlist_name = Some d1 ->
    tracks d1 = Some ts1 ->
    rel ∉ keys ts0 ->
    dict_get rel ts1 = Some info ->
    rel' <> rel ->
    dict_get rel' ts1 = Some info' ->
    ti_order info' <> ti_order info.

(** "Two consecutive calls of refresh leave the descriptor byte-identical":
    the descriptor file holds the same value after the second call as
    after the first. *)
Definition refresh_idempotent (playlist_name : string) (w : world) : Prop :=
  forall w1 w2,
    refresh_playlist playlist_name w = (Ok true, w1) ->
    refresh_playlist playlist_name w1 = (Ok true, w2) ->
    dict_get descriptor_filename (nodes w2 playlist_name)
    = dict_get descriptor_filename (nodes w1 playlist_name).

(** "The corrupt file is renamed with a .backup suffix and the collection
    is still listed." *)
Definition corrupt_descriptor_recovered (playlist_name : string) (w : world)
  : Prop :=
  exists listed w',
    get_playlists w = (Ok listed, w')
    /\ on_disk w' playlist_name (descriptor_filename +:+ ".backup")
    /\ is_Some (dict_get playlist_name listed).

End Catalog.

(** ** The playback engine: [MusicPlayerEngine] *)

Module Engine.

(** A callback invocation seen by the registered controller. *)
Inductive event : Type :=
| OnTrackEnd
| OnPositionUpdate (position duration : Q)
| OnError (message : string).

Record engine : Type := EngineState {
  current_track : option string;
  is_loaded_flag : bool;
  is_playing : bool;
  is_paused : bool;
  position : Q;
  duration : Q;
  volume : Q;
  speed : Q;
  on_track_end : bool;          (* is a callback registered? *)
  on_position_update : bool;
  on_error : bool;
  events : list event }.        (* the callbacks invoked, oldest first *)

(** What [pygame.mixer.music], the file system and [mutagen] answer during
    one call; [Some msg] is [pygame.error(msg)]. *)
Record backend : Type := Backend {
  path_exists : string -> bool;
  music_load : string -> option string;
  music_play : Q -> option string;
  music_unpause : option string;
  music_pause : option string;
  music_stop : option string;
  music_set_volume : Q -> option string;
  music_get_busy : bool;
  mutagen_length : string -> option Q;
  stat_size : string -> option N }.

Definition set_current_track (v : option string) (s : engine) : engine :=
  {| current_track := v; is_loaded_flag := is_loaded_flag s;
     is_playing := is_playing s; is_paused := is_paused s;
     position := position s; duration := duration s; volume := volume s;
     speed := speed s; on_track_end := on_track_end s;
     on_position_update := on_position_update s; on_error := on_error s;
     events := events s |}.
Definition set_is_loaded_flag (v : bool) (s : engine) : engine :=
  {| current_track := current_track s; is_loaded_flag := v;
     is_playing := is_playing s; is_paused := is_paused s;
     position := position s; duration := duration s; volume := volume s;
     speed := speed s; on_track_end := on_track_end s;
     on_position_update := on_position_update s; on_error := on_error s;
     events := events s |}.
Definition set_is_playing (v : bool) (s : engine) : engine :=
  {| current_track := current_track s; is_loaded_flag := is_loaded_flag s;
     is_playing := v; is_paused := is_paused s;
     position := position s; duration := duration s; volume := volume s;
     speed := speed s; on_track_end := on_track_end s;
     on_position_update := on_position_update s; on_error := on_error s;
     events := events s |}.
Definition set_is_paused (v : bool) (s : engine) : engine :=
  {| current_track := current_track s; is_loaded_flag := is_loaded_flag s;
     is_playing := is_playing s; is_paused := v;
     position := position s; duration := duration s; volume := volume s;
     speed := speed s; on_track_end := on_track_end s;
     on_position_update := on_position_update s; on_error := on_error s;
     events := events s |}.
Definition set_position_field (v : Q) (s : engine) : engine :=
  {| current_track := current_track s; is_loaded_flag := is_loaded_flag s;
     is_playing := is_playing s; is_paused := is_paused s;
     position := v; duration := duration s; volume := volume s;
     speed := speed s; on_track_end := on_track_end s;
     on_position_update := on_position_update s; on_error := on_error s;
     events := events s |}.
Definition set_duration (v : Q) (s : engine) : engine :=
  {| current_track := current_track s; is_loaded_flag := is_loaded_flag s;
     is_playing := is_playing s; is_paused := is_paused s;
     position := position s; duration := v; volume := volume s;
     speed := speed s; on_track_end := on_track_end s;
     on_position_update := on_position_update s; on_error := on_error s;
     events := events s |}.
Definition set_volume_field (v : Q) (s : engine) : engine :=
  {| current_track := current_track s; is_loaded_flag := is_loaded_flag s;
     is_playing := is_playing s; is_paused := is_paused s;
     position := position s; duration := duration s; volume := v;
     speed := speed s; on_track_end := on_track_end s;
     on_position_update := on_position_update s; on_error := on_error s;
     events := events s |}.
Definition set_speed_field (v : Q) (s : engine) : engine :=
  {| current_track := current_track s; is_loaded_flag := is_loaded_flag s;
     is_playing := is_playing s; is_paused := is_paused s;
     position := position s; duration := duration s; volume := volume s;
     speed := v; on_track_end := on_track_end s;
     on_position_update := on_position_update s; on_error := on_error s;
     events := events s |}.
Definition emit (e : event) (s : engine) : engine :=
  {| current_track := current_track s; is_loaded_flag := is_loaded_flag s;
     is_playing := is_playing s; is_paused := is_paused s;
     position := position s; duration := duration s; volume := volume s;
     speed := speed s; on_track_end := on_track_end s;
     on_position_update := on_position_update s; on_error := on_error s;
     events := events s ++ [e] |}.

(** The state left by [__init__], before any callback is registered. *)
Definition init : engine :=
  {| current_track := None; is_loaded_flag := false; is_playing := false;
     is_paused := false; position := 0; duration := 0; volume := 7 # 10;
     speed := 1; on_track_end := false; on_position_update := false;
     on_error := false; events := [] |}.

(** [self.on_error = callback], as the controller does after construction. *)
Definition register_on_error (s : engine) : engine :=
  {| current_track := current_track s; is_loaded_flag := is_loaded_flag s;
     is_playing := is_playing s; is_paused := is_paused s;
     position := position s; duration := duration s; volume := volume s;
     speed := speed s; on_track_end := on_track_end s;
     on_position_update := on_position_update s; on_error := true;
     events := events s |}.

(** A call into [pygame.mixer.music]. *)
Definition mixer (answer : option string) : M engine unit :=
  match answer with
  | None => ret tt
  | Some msg => raise (PygameError msg)
  end.

(** [try: m except pygame.error as e: h str(e)] *)
Definition except_pygame {A} (m : M engine A) (h : string -> M engine A)
  : M engine A :=
  try_catch m (fun e =>
                 match e with
                 | PygameError msg => h msg
                 | _ => raise e
                 end).

(** [str(e)] *)
Definition exn_str (e : exn) : string :=
  match e with
  | OSError => "OSError"
  | JSONDecodeError => "JSONDecodeError"
  | KeyError k => k
  | ValueError => "ValueError"
  | PygameError msg => msg
  end.

Definition supported_formats : gset string :=
  {[ ".mp3"; ".wav"; ".ogg"; ".flac"; ".aiff"; ".wma"; ".agg" ]}.

Definition _handle_error (error_msg : string) : M engine unit :=
  let* registered := gets on_error in
  if registered : bool then modify (emit (OnError error_msg)) else ret tt.

(** The fallback chain of [_get_track_duration]: the length read by
    mutagen, else the file size at 128 kbit/s capped at one hour, else
    three minutes. *)
Definition _get_track_duration (b : backend) (track_path : string) : Q :=
  match mutagen_length b track_path with
  | Some length => length
  | None =>
      match stat_size b track_path with
      | Some file_size =>
          let estimated_duration := (inject_Z (Z.of_N file_size) / 16384)%Q in
          Qmin estimated_duration 3600
      | None => 180%Q
      end
  end.

Definition stop (b : backend) : M engine bool :=
  except_pygame
    (mixer (music_stop b) ;;
     modify (set_is_playing false) ;;
     modify (set_is_paused false) ;;
     modify (set_position_field 0) ;;
     ret true)
    (fun e => _handle_error ("Failed to stop: " +:+ e) ;; ret false).

Definition load_track (b : backend) (track_path : string) : M engine bool :=
  try_catch
    (if negb (path_exists b track_path) then
       _handle_error ("File not found: " +:+ track_path) ;; ret false
     else if negb (bool_decide (Pathlib.lower (Pathlib.suffix track_path)
                                  ∈ supported_formats)) then
       _handle_error ("Unsupported format: " +:+ Pathlib.suffix track_path) ;;
       ret false
     else
       stop b ;;
       mixer (music_load b track_path) ;;
       modify (set_current_track (Some track_path)) ;;
       modify (set_is_loaded_flag true) ;;
       modify (set_position_field 0) ;;
       modify (set_duration (_get_track_duration b track_path)) ;;
       ret true)
    (fun e =>
       match e with
       | PygameError msg =>
           _handle_error ("Failed to load track: " +:+ msg) ;; ret false
       | _ =>
           _handle_error ("Unexpected error loading track: " +:+ exn_str e) ;;
           ret false
       end).

Definition play (b : backend) : M engine bool :=
  except_pygame
    (let* loaded := gets is_loaded_flag in
     if negb loaded then ret false
     else
       let* paused := gets is_paused in
       (if paused : bool then
          mixer (music_unpause b) ;; modify (set_is_paused false)
        else
          let* start := gets position in mixer (music_play b start)) ;;
       modify (set_is_playing true) ;;
       let* v := gets volume in
       mixer (music_set_volume b v) ;;
       ret true)
    (fun e => _handle_error ("Failed to start playback: " +:+ e) ;; ret false).

Definition pause (b : backend) : M engine bool :=
  except_pygame
    (let* playing := gets is_playing in
     let* paused := gets is_paused in
     if playing && negb paused then
       mixer (music_pause b) ;; modify (set_is_paused true) ;; ret true
     else ret false)
    (fun e => _handle_error ("Failed to pause: " +:+ e) ;; ret false).

Definition set_volume (b : backend) (v : Q) : M engine unit :=
  except_pygame
    (modify (set_volume_field (Qmax 0 (Qmin 1 v))) ;;
     let* v' := gets volume in
     mixer (music_set_volume b v'))
    (fun e => _handle_error ("Failed to set volume: " +:+ e)).

Definition set_speed (v : Q) : M engine unit :=
  modify (set_speed_field (Qmax (1 # 2) (Qmin 2 v))).

Definition set_position (b : backend) (p : Q) : M engine bool :=
  try_catch
    (let* loaded := gets is_loaded_flag in
     if negb loaded then ret false
     else if Qeq_bool p 0 then
       let* was_playing := gets is_playing in
       stop b ;;
       (if was_playing : bool then play b ;; ret tt else ret tt) ;;
       ret true
     else
       let* d := gets duration in
       modify (set_position_field (Qmax 0 (Qmin d p))) ;;
       ret true)
    (fun e => _handle_error ("Failed to set position: " +:+ exn_str e) ;;
              ret false).

Definition get_position : M engine Q := gets position.
Definition get_duration : M engine Q := gets duration.
Definition is_loaded : M engine bool := gets is_loaded_flag.
Definition is_playing_status : M engine bool :=
  gets (fun s => is_playing s && negb (is_paused s)).

(** One round of the loop of [position_tracker], without its sleep. *)
Definition position_tracker (b : backend) : M engine unit :=
  try_catch
    (let* playing := gets is_playing in
     let* paused := gets is_paused in
     if playing && negb paused then
       (if negb (music_get_busy b) then
          modify (set_is_playing false) ;;
          modify (set_is_paused false) ;;
          let* cb := gets on_track_end in
          if cb : bool then modify (emit OnTrackEnd) else ret tt
        else
          let* p := gets position in
          modify (set_position_field (p + 1)) ;;
          let* p := gets position in
          let* d := gets duration in
          if Qle_bool d p then modify (set_position_field d) else ret tt) ;;
       let* cb := gets on_position_update in
       if cb : bool then
         let* p := gets position in
         let* d := gets duration in
         modify (emit (OnPositionUpdate p d))
       else ret tt
     else ret tt)
    (fun _ => ret tt).

(** The calls a controller can make, and the tracker's rounds. *)
Inductive call : Type :=
| LoadTrack (track_path : string)
| Play
| Pause
| Stop
| SetVolume (v : Q)
| SetSpeed (v : Q)
| SetPosition (p : Q)
| Tick.

(** The value a call returns: [None] for the methods without [return]. *)
Definition run_call (b : backend) (c : call) : M engine (option bool) :=
  match c with
  | LoadTrack p => let* r := load_track b p in ret (Some r)
  | Play => let* r := play b in ret (Some r)
  | Pause => let* r := pause b in ret (Some r)
  | Stop => let* r := stop b in ret (Some r)
  | SetVolume v => set_volume b v ;; ret None
  | SetSpeed v => set_speed v ;; ret None
  | SetPosition p => let* r := set_position b p in ret (Some r)
  | Tick => position_tracker b ;; ret None
  end.

(** A history: each call with what the backend answers during it. *)
Definition run (history : list (backend * call)) : M engine unit :=
  for_each history (fun _ '(b, c) => run_call b c ;; ret tt) tt.

(** *** Observations used in the specifications *)

(** The state after [_handle_error(msg)]. *)
Definition reported (msg : string) (s : engine) : engine :=
  if on_error s then emit (OnError msg) s else s.

(** Nothing is loaded and nothing plays, as after construction. *)
Definition idle (s : engine) : Prop :=
  is_loaded_flag s = false /\ is_playing s = false /\ is_paused s = false.

(** The session invariant [0 <= position <= duration]. *)
Definition in_bounds (s : engine) : Prop :=
  (0 <= position s)%Q /\ (position s <= duration s)%Q.

(** The metadata reader reports no negative length. *)
Definition lengths_not_negative (b : backend) : Prop :=
  forall track_path length,
    mutagen_length b track_path = Some length -> (0 <= length)%Q.




(** Volume and speed are within the ranges [set_volume] and [set_speed]
    clamp to. *)
Definition in_range (s : engine) : Prop :=
  (0 <= volume s)%Q /\ (volume s <= 1)%Q
  /\ (1 # 2 <= speed s)%Q /\ (speed s <= 2)%Q.

(** The flags agree with each other and with the current track: what is
    paused is playing, what is playing is loaded, a track is loaded exactly
    when there is a current track, and the current track has a supported
    extension. *)
Definition consistent (s : engine) : Prop :=
  (is_paused s = true -> is_playing s = true)
  /\ (is_playing s = true -> is_loaded_flag s = true)
  /\ (is_loaded_flag s = true <-> is_Some (current_track s))
  /\ (forall track_path,
        current_track s = Some track_path ->
        Pathlib.lower (Pathlib.suffix track_path) ∈ supported_formats).

(** The callbacks a call may invoke: the error callback when one is
    registered, the two others from the tracker only and when registered. *)
Definition allowed_event (c : call) (s : engine) (e : event) : Prop :=
  match e with
  | OnError _ => on_error s = true
  | OnTrackEnd => c = Tick /\ on_track_end s = true
  | OnPositionUpdate _ _ => c = Tick /\ on_position_update s = true
  end.

End Engine.

(** ** The controller: [MusicPlayerApp], the methods that only drive the
    engine *)

Module Controller.
Import Engine.

Definition rewind_track (b : backend) : M engine unit :=
  let* loaded := is_loaded in
  if loaded : bool then
    let* current_pos := get_position in
    let new_pos := Qmax 0 (current_pos - 10) in
    set_position b new_pos ;;
    ret tt
  else ret tt.

(** *** The methods that drive the catalog and the engine together *)

(** The attributes of [MusicPlayerApp] that its playback methods read and
    write. The widgets are reduced to what they show: the status line, the
    track line and the messages of the error dialogs opened, oldest first;
    the selection of the list boxes and the faces of the buttons are not
    modelled.
    [current_track_index] is a natural number: the methods store 0, a row
    of the list box, a random row, the index plus one, or the index minus
    one, replaced at once when it is negative. *)
Record app : Type := App {
  ui_is_playing : bool;           (* [self.is_playing] of the application *)
  shuffle_mode : bool;
  loop_playlist : bool;
  loop_single : bool;
  current_playlist_name : string;
  current_track_index : nat;
  status_var : string;
  track_info_var : string;
  errors_shown : list string }.

Record session : Type := Session {
  playlist_manager : Catalog.world;
  player : engine;
  app_state : app }.

Definition set_ui_is_playing (v : bool) (a : app) : app :=
  {| ui_is_playing := v; shuffle_mode := shuffle_mode a;
     loop_playlist := loop_playlist a; loop_single := loop_single a;
     current_playlist_name := current_playlist_name a;
     current_track_index := current_track_index a;
     status_var := status_var a; track_info_var := track_info_var a;
     errors_shown := errors_shown a |}.

Definition set_current_track_index (v : nat) (a : app) : app :=
  {| ui_is_playing := ui_is_playing a; shuffle_mode := shuffle_mode a;
     loop_playlist := loop_playlist a; loop_single := loop_single a;
     current_playlist_name := current_playlist_name a;
     current_track_index := v;
     status_var := status_var a; track_info_var := track_info_var a;
     errors_shown := errors_shown a |}.

Definition set_status_var (v : string) (a : app) : app :=
  {| ui_is_playing := ui_is_playing a; shuffle_mode := shuffle_mode a;
     loop_playlist := loop_playlist a; loop_single := loop_single a;
     current_playlist_name := current_playlist_name a;
     current_track_index := current_track_index a;
     status_var := v; track_info_var := track_info_var a;
     errors_shown := errors_shown a |}.

Definition set_track_info_var (v : string) (a : app) : app :=
  {| ui_is_playing := ui_is_playing a; shuffle_mode := shuffle_mode a;
     loop_playlist := loop_playlist a; loop_single := loop_single a;
     current_playlist_name := current_playlist_name a;
     current_track_index := current_track_index a;
     status_var := status_var a; track_info_var := v;
     errors_shown := errors_shown a |}.

(** [messagebox.showerror(title, message)] *)
Definition showerror (message : string) (a : app) : app :=
  {| ui_is_playing := ui_is_playing a; shuffle_mode := shuffle_mode a;
     loop_playlist := loop_playlist a; loop_single := loop_single a;
     current_playlist_name := current_playlist_name a;
     current_track_index := current_track_index a;
     status_var := status_var a; track_info_var := track_info_var a;
     errors_shown := errors_shown a ++ [message] |}.

(** [on_player_error], which [setup_callbacks] registers as the error
    callback of the engine. *)
Definition on_player_error (error_msg : string) (a : app) : app :=
  set_status_var "Playback error occurred" (showerror error_msg a).

(** What the application has done once the engine has gone from [before]
    to [after] within a method: the engine invokes the error callback
    during the call, so [on_player_error] has run for each error reported,
    oldest first. The two other callbacks are invoked by the tracker only,
    not within a method of the application. *)
Definition errors_reported (before after : engine) (a : app) : app :=
  foldl (fun a ev =>
           match ev with
           | OnError error_msg => on_player_error error_msg a
           | _ => a
           end)
    a (drop (length (events before)) (events after)).

(** A computation of one component, run inside the session. *)
Definition in_manager {A} (m : M Catalog.world A) : M session A :=
  fun s =>
    let (r, w) := m (playlist_manager s) in
    (r, {| playlist_manager := w; player := player s;
           app_state := app_state s |}).

(** A call of the engine, with the callbacks it invokes. *)
Definition in_player {A} (m : M engine A) : M session A :=
  fun s =>
    let (r, e) := m (player s) in
    (r, {| playlist_manager := playlist_manager s; player := e;
           app_state := errors_reported (player s) e (app_state s) |}).

Definition in_app {A} (m : M app A) : M session A :=
  fun s =>
    let (r, a) := m (app_state s) in
    (r, {| playlist_manager := playlist_manager s; player := player s;
           app_state := a |}).

Definition play_selected_track (b : backend) : M session unit :=
  let* name := in_app (gets current_playlist_name) in
  if String.eqb name "" then ret tt
  else
    try_catch
      (let* tracks := in_manager (Catalog.get_playlist_tracks name) in
       let* index := in_app (gets current_track_index) in
       match tracks !! index with
       | Some track_path =>
           let* path :=
             in_manager (gets (fun w => Catalog.path_str w track_path)) in
           let* loaded := in_player (load_track b path) in
           if loaded : bool then
             in_player (play b) ;;
             in_app (modify (set_ui_is_playing true)) ;;
             let* track_name :=
               in_manager (Catalog.get_track_display_name name track_path) in
             in_app (modify (set_track_info_var ("Playing: " +:+ track_name))) ;;
             in_app (modify (set_status_var "Playing"))
           else in_app (modify (showerror "Failed to load track"))
       | None => ret tt
       end)
      (fun e =>
         in_app (modify (showerror ("Failed to play track: " +:+ exn_str e)))).

Definition toggle_playback (b : backend) : M session unit :=
  let* playing := in_app (gets ui_is_playing) in
  if playing : bool then
    in_player (pause b) ;;
    in_app (modify (set_ui_is_playing false)) ;;
    in_app (modify (set_status_var "Paused"))
  else
    let* loaded := in_player is_loaded in
    if loaded : bool then
      in_player (play b) ;;
      in_app (modify (set_ui_is_playing true)) ;;
      in_app (modify (set_status_var "Playing"))
    else play_selected_track b.

(** [randint a b] is the answer of [random.randint(a, b)]. The result of
    the computation before [play_selected_track] tells whether the method
    goes on to it or has returned. *)
Definition next_track (b : backend) (randint : nat -> nat -> nat)
  : M session unit :=
  let* name := in_app (gets current_playlist_name) in
  if String.eqb name "" then ret tt
  else
    let* tracks := in_manager (Catalog.get_playlist_tracks name) in
    match tracks with
    | [] => ret tt
    | _ :: _ =>
        let* shuffle := in_app (gets shuffle_mode) in
        let* go_on :=
          if shuffle : bool then
            in_app (modify (set_current_track_index
                              (randint 0 (length tracks - 1)%nat))) ;;
            ret true
          else
            let* index := in_app (gets current_track_index) in
            in_app (modify (set_current_track_index (index + 1)%nat)) ;;
            let* index := in_app (gets current_track_index) in
            if (length tracks <=? index)%nat then
              let* loop := in_app (gets loop_playlist) in
              if loop : bool then
                in_app (modify (set_current_track_index 0)) ;; ret true
              else
                in_app (modify (set_status_var "End of playlist")) ;;
                ret false
            else ret true in
        if go_on : bool then play_selected_track b else ret tt
    end.

Definition previous_track (b : backend) : M session unit :=
  let* name := in_app (gets current_playlist_name) in
  if String.eqb name "" then ret tt
  else
    let* tracks := in_manager (Catalog.get_playlist_tracks name) in
    match tracks with
    | [] => ret tt
    | _ :: _ =>
        let* index := in_app (gets current_track_index) in
        let index := (Z.of_nat index - 1)%Z in
        let* go_on :=
          if (index <? 0)%Z then
            let* loop := in_app (gets loop_playlist) in
            if loop : bool then
              in_app (modify (set_current_track_index (length tracks - 1)%nat)) ;;
              ret true
            else
              in_app (modify (set_current_track_index 0)) ;; ret false
          else
            in_app (modify (set_current_track_index (Z.to_nat index))) ;;
            ret true in
        if go_on : bool then play_selected_track b else ret tt
    end.

Definition on_track_end (b : backend) (randint : nat -> nat -> nat)
  : M session unit :=
  let* single := in_app (gets loop_single) in
  if single : bool then
    in_player (set_position b 0) ;;
    in_player (play b) ;;
    ret tt
  else next_track b randint.

(** *** Observations used in the specifications *)

(** The application once [play_selected_track] has played the track
    displayed as [title]. *)
Definition now_playing (title : string) (a : app) : app :=
  set_status_var "Playing"
    (set_track_info_var ("Playing: " +:+ title) (set_ui_is_playing true a)).

(** The session with the track index of the application set to [i]. *)
Definition at_index (i : nat) (s : session) : session :=
  {| playlist_manager := playlist_manager s; player := player s;
     app_state := set_current_track_index i (app_state s) |}.

End Controller.

(** ** Sample data *)

Module Samples.
Import Catalog.

(** A clock that reads a new instant at every call. *)
Definition sample_clock (n : nat) : string :=
  "2024-05-01T10:00:00." +:+ pretty n.

Definition entry (name : string) (order : Z) : track_info :=
  {| ti_display_name := Some name; ti_order := Some order;
     ti_added := Some "2024-04-30T09:00:00"; ti_modified := None |}.

Definition descriptor_of (ts : list (string * track_info)) : descriptor :=
  {| display_name := Some "Rock"; description := Some "";
     created := Some "2024-04-30T09:00:00"; modified := None;
     tracks := Some ts |}.

Definition audio : node := File (Text "").

Definition world_of (items : list (string * item)) : world :=
  {| cwd := "/home/user"; playlists_dir := "playlists"; playlists := items;
     clock := sample_clock; ticks := 0 |}.

(** The scenario of the specification: [a.mp3] (order 1), [b.mp3] (order 2). *)
Definition rock_tracks : list (string * track_info) :=
  [("a.mp3", entry "a" 1); ("b.mp3", entry "b" 2)].
Definition rock_world : world :=
  world_of
    [("Rock", Dir {| writable := true;
                     entries := [("a.mp3", audio); ("b.mp3", audio);
                                 ("playlist.json",
                                  File (Json (descriptor_of rock_tracks)))] |})].

(** A descriptor with a stale entry, listed out of order. *)
Definition stale_tracks : list (string * track_info) :=
  [("b.mp3", entry "b" 2); ("gone.mp3", entry "gone" 3); ("a.mp3", entry "a" 1)].
Definition stale_world : world :=
  world_of
    [("Rock", Dir {| writable := true;
                     entries := [("a.mp3", audio); ("b.mp3", audio);
                                 ("playlist.json",
                                  File (Json (descriptor_of stale_tracks)))] |})].


(** A descriptor without "tracks" key, in a folder that holds a track. *)
Definition trackless_world : world :=
  world_of
    [("Rock", Dir {| writable := true;
                     entries := [("a.mp3", audio);
                                 ("playlist.json",
                                  File (Json (Descriptor (Some "Rock") None
                                                None None None)))] |})].

(** The descriptor left once [a.mp3] was deleted and pruned, with a new
    file [d.mp3] dropped into the folder. *)
Definition pruned_tracks : list (string * track_info) :=
  [("b.mp3", entry "b" 2); ("c.mp3", entry "c" 3)].
Definition pruned_world : world :=
  world_of
    [("Rock", Dir {| writable := true;
                     entries := [("b.mp3", audio); ("c.mp3", audio);
                                 ("d.mp3", audio);
                                 ("playlist.json",
                                  File (Json (descriptor_of pruned_tracks)))] |})].

(** A folder that has no descriptor yet, scanned out of name order, with
    a cover image and a sub-folder. *)
Definition unlisted_world : world :=
  world_of
    [("notes.txt", PlainFile);
     ("Rock", Dir {| writable := true;
                     entries := [("b.mp3", audio); ("cover.jpg", audio);
                                 ("live", Directory); ("live/C.ogg", audio);
                                 ("a.MP3", audio)] |})].

(** A folder whose descriptor is not valid JSON. *)
Definition corrupt_world : world :=
  world_of
    [("Rock", Dir {| writable := true;
                     entries := [("a.mp3", audio);
                                 ("playlist.json", File (Text "{ not json"))] |})].

(** A backend that accepts every call, on files of 200 seconds. *)
Definition quiet_backend : Engine.backend :=
  {| Engine.path_exists := fun p => negb (String.eqb p "missing.mp3");
     Engine.music_load := fun _ => None;
     Engine.music_play := fun _ => None;
     Engine.music_unpause := None;
     Engine.music_pause := None;
     Engine.music_stop := None;
     Engine.music_set_volume := fun _ => None;
     Engine.music_get_busy := true;
     Engine.mutagen_length := fun _ => Some 200%Q;
     Engine.stat_size := fun _ => Some 3200000%N |}.

(** The engine once the controller has registered its error callback. *)
Definition fresh_engine : Engine.engine := Engine.register_on_error Engine.init.

(** An engine playing [a.mp3], five seconds in, with every callback
    registered. *)
Definition playing_engine : Engine.engine :=
  {| Engine.current_track := Some "a.mp3"; Engine.is_loaded_flag := true;
     Engine.is_playing := true; Engine.is_paused := false;
     Engine.position := 5; Engine.duration := 200; Engine.volume := 7 # 10;
     Engine.speed := 1; Engine.on_track_end := true;
     Engine.on_position_update := true; Engine.on_error := true;
     Engine.events := [] |}.

(** The same track paused after 42 seconds. *)
Definition paused_engine : Engine.engine :=
  Engine.set_is_paused true (Engine.set_position_field 42 playing_engine).

(** A backend whose player has reached the end of the track. *)
Definition ended_backend : Engine.backend :=
  {| Engine.path_exists := fun _ => true;
     Engine.music_load := fun _ => None;
     Engine.music_play := fun _ => None;
     Engine.music_unpause := None;
     Engine.music_pause := None;
     Engine.music_stop := None;
     Engine.music_set_volume := fun _ => None;
     Engine.music_get_busy := false;
     Engine.mutagen_length := fun _ => None;
     Engine.stat_size := fun _ => None |}.

(** A backend that cannot decode any file. *)
Definition deaf_backend : Engine.backend :=
  {| Engine.path_exists := fun _ => true;
     Engine.music_load := fun _ => Some "Unrecognized audio format";
     Engine.music_play := fun _ => None;
     Engine.music_unpause := None;
     Engine.music_pause := None;
     Engine.music_stop := None;
     Engine.music_set_volume := fun _ => None;
     Engine.music_get_busy := true;
     Engine.mutagen_length := fun _ => None;
     Engine.stat_size := fun _ => None |}.
(** The application while the first track of Rock plays. *)
Definition rock_app : Controller.app :=
  {| Controller.ui_is_playing := true; Controller.shuffle_mode := false;
     Controller.loop_playlist := false; Controller.loop_single := false;
     Controller.current_playlist_name := "Rock";
     Controller.current_track_index := 0;
     Controller.status_var := "Playing";
     Controller.track_info_var := "Playing: a";
     Controller.errors_shown := [] |}.

End Samples.

(** * Properties *)

(** ** The monad *)

Section MonadFacts.
Context {S : Type}.

Lemma bind_ok {A B} (m : M S A) (k : A -> M S B) s a s1 :
  m s = (Ok a, s1) -> bind m k s = k a s1.
Proof. intros H. unfold bind. now rewrite H. Qed.

Lemma bind_raised {A B} (m : M S A) (k : A -> M S B) s e s1 :
  m s = (Raised e, s1) -> bind m k s = (Raised e, s1).
Proof. intros H. unfold bind. now rewrite H. Qed.

Lemma bind_inv {A B} (m : M S A) (k : A -> M S B) s b s' :
  bind m k s = (Ok b, s') ->
  exists a s1, m s = (Ok a, s1) /\ k a s1 = (Ok b, s').
Proof.
  unfold bind. destruct (m s) as [[a|e] s1]; intros H; [eauto | discriminate].
Qed.

Lemma for_each_app {A B} (l1 l2 : list A) (body : B -> A -> M S B) acc s :
  for_each (l1 ++ l2) body acc s
  = bind (for_each l1 body acc) (for_each l2 body) s.
Proof.
  revert acc s. induction l1 as [|x l1 IH]; intros acc s; simpl.
  - reflexivity.
  - unfold bind. simpl. unfold bind.
    destruct (body acc x s) as [[acc'|e] s1]; [|reflexivity].
    rewrite IH. reflexivity.
Qed.

(** A loop whose body never raises, with an invariant over the items
    already processed. *)
Lemma for_each_invariant {A B} (I : list A -> B -> S -> Prop)
    (l : list A) (body : B -> A -> M S B) acc s :
  I [] acc s ->
  (forall done x acc s,
      x ∈ l -> I done acc s ->
      exists acc' s', body acc x s = (Ok acc', s') /\ I (done ++ [x]) acc' s') ->
  exists acc' s', for_each l body acc s = (Ok acc', s') /\ I l acc' s'.
Proof.
  induction l as [|x l IH] using rev_ind; intros H0 Hstep.
  - simpl. unfold ret. eauto.
  - destruct IH as (acc1 & s1 & E1 & I1); [assumption | |].
    { intros done y a t Hy. apply Hstep. set_solver. }
    destruct (Hstep l x acc1 s1) as (acc2 & s2 & E2 & I2); [set_solver | assumption |].
    exists acc2, s2. split; [|assumption].
    rewrite for_each_app, (bind_ok _ _ _ _ _ E1). simpl.
    now rewrite (bind_ok _ _ _ _ _ E2).
Qed.
End MonadFacts.

(** ** Dictionaries *)

Section DictFacts.
Context {V : Type}.
Implicit Types (d : list (string * V)) (k : string) (v : V).

Lemma dict_get_set k k' v d :
  dict_get k' (dict_set k v d)
  = if String.eqb k' k then Some v else dict_get k' d.
Proof.
  induction d as [|[k0 v0] d IH]; simpl.
  - reflexivity.
  - destruct (String.eqb_spec k k0) as [->|Hne]; simpl.
    + destruct (String.eqb_spec k' k0); reflexivity.
    + rewrite IH. destruct (String.eqb_spec k' k0) as [->|]; [|reflexivity].
      destruct (String.eqb_spec k0 k); [congruence | reflexivity].
Qed.

Lemma dict_get_set_eq k v d : dict_get k (dict_set k v d) = Some v.
Proof. rewrite dict_get_set. now rewrite String.eqb_refl. Qed.

Lemma dict_get_set_ne k k' v d :
  k' <> k -> dict_get k' (dict_set k v d) = dict_get k' d.
Proof.
  intros H. rewrite dict_get_set. now destruct (String.eqb_spec k' k).
Qed.

Lemma dict_get_Some_elem k v d : dict_get k d = Some v -> (k, v) ∈ d.
Proof.
  induction d as [|[k0 v0] d IH]; simpl; [discriminate|].
  destruct (String.eqb_spec k k0) as [->|]; intros H.
  - injection H as ->. left.
  - right. auto.
Qed.

Lemma dict_get_is_Some k d : is_Some (dict_get k d) <-> k ∈ keys d.
Proof.
  unfold keys. induction d as [|[k0 v0] d IH]; simpl.
  - split; [intros [? ?]; discriminate | intros H; inversion H].
  - destruct (String.eqb_spec k k0) as [->|Hne].
    + split; [left | eauto].
    + rewrite IH. split; [right; assumption|].
      intros H. inversion H; subst; [congruence | assumption].
Qed.

Lemma dict_get_None k d : dict_get k d = None <-> k ∉ keys d.
Proof. rewrite <- dict_get_is_Some, eq_None_not_Some. reflexivity. Qed.

Lemma dict_get_NoDup k v d :
  NoDup (keys d) -> (k, v) ∈ d -> dict_get k d = Some v.
Proof.
  unfold keys. induction d as [|[k0 v0] d IH]; simpl; intros Hnd Hin.
  - inversion Hin.
  - apply NoDup_cons in Hnd as [Hk0 Hnd].
    apply elem_of_cons in Hin as [[= -> ->]|Hin].
    + now rewrite String.eqb_refl.
    + destruct (String.eqb_spec k k0) as [->|]; [|auto].
      exfalso. apply Hk0. apply list_elem_of_fmap. now exists (k0, v).
Qed.

Lemma keys_dict_set_present k v d :
  is_Some (dict_get k d) -> keys (dict_set k v d) = keys d.
Proof.
  unfold keys. induction d as [|[k0 v0] d IH]; simpl.
  - intros [? ?]; discriminate.
  - destruct (String.eqb_spec k k0) as [->|]; simpl; intros H.
    + reflexivity.
    + f_equal. now apply IH.
Qed.

Lemma keys_dict_set_absent k v d :
  dict_get k d = None -> keys (dict_set k v d) = keys d ++ [k].
Proof.
  unfold keys. induction d as [|[k0 v0] d IH]; simpl.
  - reflexivity.
  - destruct (String.eqb_spec k k0) as [->|]; simpl; intros H.
    + discriminate.
    + f_equal. now apply IH.
Qed.

Lemma elem_of_keys_dict_set k k' v d :
  k' ∈ keys (dict_set k v d) <-> k' = k \/ k' ∈ keys d.
Proof.
  rewrite <- !dict_get_is_Some, dict_get_set.
  destruct (String.eqb_spec k' k) as [->|]; split; eauto.
  - intros [|]; [congruence | assumption].
Qed.

Lemma dict_set_set k v v' d :
  dict_set k v (dict_set k v' d) = dict_set k v d.
Proof.
  induction d as [|[k0 v0] d IH]; simpl.
  - now rewrite String.eqb_refl.
  - destruct (String.eqb_spec k k0) as [->|Hne]; simpl.
    + now rewrite String.eqb_refl.
    + destruct (String.eqb_spec k k0); [congruence|]. now rewrite IH.
Qed.

(** Writing under a key leaves a selection that never looks at that key. *)
Lemma filter_dict_set (P : string * V -> Prop) `{!forall x, Decision (P x)} k v d :
  (forall v', ~ P (k, v')) ->
  filter P (dict_set k v d) = filter P d.
Proof.
  intros HP. induction d as [|[k0 v0] d IH]; simpl.
  - rewrite filter_cons_False; [reflexivity | apply HP].
  - destruct (String.eqb_spec k k0) as [->|Hne].
    + rewrite !filter_cons_False; [reflexivity | apply HP | apply HP].
    + rewrite !filter_cons, IH. reflexivity.
Qed.

Lemma dict_get_remove k k' d :
  dict_get k' (dict_remove k d)
  = if String.eqb k' k then None else dict_get k' d.
Proof.
  unfold dict_remove. induction d as [|[k0 v0] d IH]; simpl.
  - now destruct (String.eqb k' k).
  - rewrite filter_cons. simpl. destruct (decide (k0 <> k)) as [Hne|Heq]; simpl.
    + rewrite IH. destruct (String.eqb_spec k' k0) as [->|]; [|reflexivity].
      now destruct (String.eqb_spec k0 k).
    + apply dec_stable in Heq. subst k0. rewrite IH.
      destruct (String.eqb_spec k' k); reflexivity.
Qed.
End DictFacts.

(** ** Stable sorting *)

Section StableSortFacts.
Context {A K : Type} (key : A -> K) (ltb : K -> K -> bool).

Hypothesis ltb_irrefl : forall k, ltb k k = false.
Hypothesis ltb_asym : forall k1 k2, ltb k1 k2 = true -> ltb k2 k1 = false.
Hypothesis key_le_trans :
  forall k1 k2 k3, ltb k2 k1 = false -> ltb k3 k2 = false -> ltb k3 k1 = false.

Lemma insert_sorted_perm x l : insert_sorted key ltb x l ≡ₚ x :: l.
Proof.
  induction l as [|y l IH]; simpl; [reflexivity|].
  destruct (ltb (key y) (key x)); [|reflexivity].
  rewrite IH. apply Permutation_swap.
Qed.

Lemma sort_by_perm l : sort_by key ltb l ≡ₚ l.
Proof.
  induction l as [|x l IH]; simpl; [reflexivity|].
  rewrite insert_sorted_perm. now rewrite IH.
Qed.

Lemma insert_sorted_sorted x l :
  StronglySorted (key_le key ltb) l -> StronglySorted (key_le key ltb) (insert_sorted key ltb x l).
Proof.
  induction 1 as [|y l Hs IH Hy]; simpl.
  - repeat constructor.
  - destruct (ltb (key y) (key x)) eqn:Hlt.
    + constructor; [assumption|].
      rewrite insert_sorted_perm. constructor; [|assumption].
      apply ltb_asym, Hlt.
    + constructor; [now constructor|].
      constructor; [exact Hlt|].
      eapply Forall_impl; [exact Hy|].
      intros z Hz. unfold key_le in *. eauto.
Qed.

Lemma sort_by_sorted l : StronglySorted (key_le key ltb) (sort_by key ltb l).
Proof.
  induction l as [|x l IH]; simpl; [constructor|].
  now apply insert_sorted_sorted.
Qed.

(** Stability: items with the same key keep their relative order. *)
Lemma insert_sorted_stable `{!EqDecision K} k x l :
  filter (fun y => key y = k) (insert_sorted key ltb x l)
  = filter (fun y => key y = k) (x :: l).
Proof.
  induction l as [|y l IH]; simpl; [reflexivity|].
  destruct (ltb (key y) (key x)) eqn:Hlt; [|reflexivity].
  rewrite (filter_cons _ y), IH, !filter_cons.
  destruct (decide (key y = k)) as [Hy|]; [|reflexivity].
  destruct (decide (key x = k)) as [Hx|]; [|reflexivity].
  rewrite Hy, Hx, ltb_irrefl in Hlt. discriminate.
Qed.

Lemma sort_by_stable `{!EqDecision K} k l :
  filter (fun y => key y = k) (sort_by key ltb l)
  = filter (fun y => key y = k) l.
Proof.
  induction l as [|x l IH]; simpl; [reflexivity|].
  rewrite insert_sorted_stable, !filter_cons, IH. reflexivity.
Qed.
End StableSortFacts.

Lemma StronglySorted_filter {A} (R : relation A) (P : A -> Prop)
    `{!forall x, Decision (P x)} l :
  StronglySorted R l -> StronglySorted R (filter P l).
Proof.
  induction 1 as [|x l Hs IH Hx]; [constructor|].
  rewrite filter_cons. destruct (decide (P x)); [|assumption].
  constructor; [assumption|].
  apply Forall_forall. intros y Hy%list_elem_of_filter.
  rewrite Forall_forall in Hx. now apply Hx.
Qed.

Lemma StronglySorted_mono {A} (R1 R2 : relation A) l :
  (forall x y, R1 x y -> R2 x y) ->
  StronglySorted R1 l -> StronglySorted R2 l.
Proof.
  intros HR. induction 1 as [|x l Hs IH Hx]; constructor; [assumption|].
  eapply Forall_impl; [exact Hx | auto].
Qed.

(** Sorting by an integer key with [<]. *)
Lemma sort_by_Z_sorted {A} (key : A -> Z) l :
  StronglySorted (fun x y => (key x <= key y)%Z) (sort_by key Z.ltb l).
Proof.
  apply (StronglySorted_mono (key_le key Z.ltb)).
  - intros x y H. unfold key_le in H. lia.
  - apply sort_by_sorted; intros; lia.
Qed.

(** ** The catalog *)

Module CatalogFacts.
Import Catalog.

(** *** Reading *)

Lemma load_descriptor_eq name w :
  _load_descriptor name w = (Ok (descriptor_at w name), w).
Proof.
  unfold _load_descriptor, try_catch, bind, path_exists, gets, json_load,
    descriptor_at.
  destruct (dict_get descriptor_filename (nodes w name)) as [[|[d|t]]|] eqn:E;
    cbn; rewrite ?E; reflexivity.
Qed.

Lemma tracks_in_Some d ts : tracks d = Some ts -> tracks_in (Some d) = Some ts.
Proof. intros H. simpl. destruct d as [[] [] [] [] []]; simpl in *; congruence. Qed.

Lemma tracks_in_inv o ts :
  tracks_in o = Some ts -> exists d, o = Some d /\ tracks d = Some ts.
Proof.
  destruct o as [d|]; simpl; [|discriminate].
  destruct (truthy d); [eauto | discriminate].
Qed.

Lemma get_audio_files_ok name w :
  exists A, _get_audio_files name w = (Ok A, w)
    /\ forall p, p ∈ A <-> playlist_of p = name /\ audio_on_disk w name (relative p).
Proof.
  unfold _get_audio_files, bind, rglob_files, gets, ret. eexists. split; [reflexivity|].
  intros p. rewrite sort_by_perm, list_elem_of_filter, list_elem_of_fmap.
  unfold audio_on_disk. split.
  - intros (Hext & [k n] & -> & Hin%list_elem_of_filter). simpl in *.
    destruct Hin as [Hf Hin]. destruct n as [|c]; [discriminate|]. eauto.
  - intros (<- & [c Hin] & Hext). split; [assumption|].
    exists (relative p, File c). split; [now destruct p|].
    apply list_elem_of_filter. auto.
Qed.

(** The loop of [get_playlist_tracks]: the entries whose path exists, in
    descriptor order. *)
Lemma track_entries_eq name w ts acc :
  for_each ts
    (fun track_entries '(relative_path, track_info) =>
       let* ex := path_exists name relative_path in
       if ex then
         ret (track_entries
                ++ [(order_of track_info, TrackPath name relative_path)])
       else ret track_entries) acc w
  = (Ok (acc ++ existing_entries w name ts), w).
Proof.
  revert acc. induction ts as [|[rel info] ts IH]; intros acc; simpl.
  - unfold ret, existing_entries. now rewrite app_nil_r.
  - unfold bind at 1. unfold path_exists at 1, gets, bind at 1.
    unfold existing_entries. rewrite filter_cons. unfold on_disk at 1. simpl.
    destruct (decide (is_Some (dict_get rel (nodes w name)))) as [Hex|Hex].
    + rewrite bool_decide_eq_true_2 by assumption. unfold ret at 1.
      rewrite IH, <- app_assoc. reflexivity.
    + rewrite bool_decide_eq_false_2 by assumption. unfold ret at 1.
      apply IH.
Qed.

Lemma get_playlist_tracks_of_descriptor name w d ts :
  descriptor_at w name = Some d -> tracks d = Some ts ->
  get_playlist_tracks name w
  = (Ok ((sort_by fst Z.ltb (existing_entries w name ts)).*2), w).
Proof.
  intros Hd Hts. unfold get_playlist_tracks.
  assert (Hex : dir_exists name w = (Ok true, w)).
  { unfold dir_exists, gets. f_equal. f_equal. apply bool_decide_eq_true_2.
    unfold descriptor_at, nodes, folder_of in Hd.
    destruct (dict_get name (playlists w)); [eauto | discriminate]. }
  rewrite (bind_ok _ _ _ _ _ Hex). simpl.
  rewrite (bind_ok _ _ _ _ _ (load_descriptor_eq name w)), Hd.
  rewrite (tracks_in_Some _ _ Hts).
  rewrite (bind_ok _ _ _ _ _ (track_entries_eq name w ts [])). reflexivity.
Qed.

(** [get_playlist_tracks] never raises and never writes. *)
Lemma get_playlist_tracks_pure name w :
  exists l, get_playlist_tracks name w = (Ok l, w).
Proof.
  unfold get_playlist_tracks, dir_exists. unfold bind at 1. unfold gets at 1.
  destruct (negb _); [unfold ret; eauto|].
  rewrite (bind_ok _ _ _ _ _ (load_descriptor_eq name w)).
  destruct (tracks_in _) as [ts|].
  - rewrite (bind_ok _ _ _ _ _ (track_entries_eq name w ts [])). unfold ret. eauto.
  - destruct (get_audio_files_ok name w) as (A & -> & _). eauto.
Qed.

End CatalogFacts.

(** *** Track listing *)

Module TrackListing.
Import Catalog CatalogFacts.

Lemma elem_of_existing_entries w name ts o p :
  (o, p) ∈ existing_entries w name ts
  <-> exists rel info, p = TrackPath name rel /\ (rel, info) ∈ ts
                       /\ o = order_of info /\ on_disk w name rel.
Proof.
  unfold existing_entries. rewrite list_elem_of_fmap. split.
  - intros ([rel info] & [= -> ->] & [Hd Hin]%list_elem_of_filter). eauto 10.
  - intros (rel & info & -> & Hin & -> & Hd). exists (rel, info).
    split; [reflexivity|]. apply list_elem_of_filter. auto.
Qed.

(** C5. For a collection whose descriptor has tracks, [get_playlist_tracks]
    returns the paths of the descriptor's entries sorted ascending by the
    [order] field of each entry (999 for an entry without one, ties in
    descriptor order), leaving out exactly the entries whose path is not on
    disk, and changes nothing in the file system: the persisted descriptor
    is the one it read. *)
Theorem get_playlist_tracks_sorted_existing name w d ts :
  descriptor_at w name = Some d ->
  tracks d = Some ts ->
  exists track_entries w',
    get_playlist_tracks name w = (Ok (track_entries.*2), w')
    /\ w' = w
    /\ descriptor_at w' name = Some d
    /\ StronglySorted (fun a b => (a.1 <= b.1)%Z) track_entries
    /\ (forall o rel,
          (o, TrackPath name rel) ∈ track_entries
          <-> on_disk w name rel
              /\ exists info,
                  (rel, info) ∈ ts /\ o = default 999%Z (ti_order info))
    /\ (forall e, e ∈ track_entries -> playlist_of e.2 = name)
    /\ (forall o,
          filter (fun e => e.1 = o) track_entries
          = filter (fun e => e.1 = o)
              ((fun kv => (default 999%Z (ti_order kv.2), TrackPath name kv.1))
                 <$> filter (fun kv => on_disk w name kv.1) ts)).
Proof.
  intros Hd Hts.
  exists (sort_by fst Z.ltb (existing_entries w name ts)), w.
  split; [now apply get_playlist_tracks_of_descriptor with d|].
  split; [reflexivity|]. split; [assumption|].
  split; [apply sort_by_Z_sorted|].
  split; [|split].
  - intros o rel. rewrite sort_by_perm, elem_of_existing_entries.
    unfold order_of. split.
    + intros (rel' & info & [= <-] & Hin & -> & Hdisk). eauto.
    + intros (Hdisk & info & Hin & ->). eauto 10.
  - intros [o p]. rewrite sort_by_perm, elem_of_existing_entries.
    intros (rel & info & -> & _). reflexivity.
  - intros o. apply sort_by_stable. intros k. apply Z.ltb_irrefl.
Qed.

Lemma get_playlist_tracks_sorted_existing_witness :
  descriptor_at Samples.stale_world "Rock"
    = Some (Samples.descriptor_of Samples.stale_tracks)
  /\ exists track_entries w',
    get_playlist_tracks "Rock" Samples.stale_world = (Ok (track_entries.*2), w')
    /\ w' = Samples.stale_world
    /\ descriptor_at w' "Rock" = Some (Samples.descriptor_of Samples.stale_tracks)
    /\ StronglySorted (fun a b => (a.1 <= b.1)%Z) track_entries
    /\ (forall o rel,
          (o, TrackPath "Rock" rel) ∈ track_entries
          <-> on_disk Samples.stale_world "Rock" rel
              /\ exists info,
                  (rel, info) ∈ Samples.stale_tracks
                  /\ o = default 999%Z (ti_order info))
    /\ (forall e, e ∈ track_entries -> playlist_of e.2 = "Rock")
    /\ (forall o,
          filter (fun e => e.1 = o) track_entries
          = filter (fun e => e.1 = o)
              ((fun kv => (default 999%Z (ti_order kv.2),
                           TrackPath "Rock" kv.1))
                 <$> filter (fun kv => on_disk Samples.stale_world "Rock" kv.1)
                       Samples.stale_tracks)).
Proof.
  split; [reflexivity|].
  apply (get_playlist_tracks_sorted_existing "Rock" Samples.stale_world
           (Samples.descriptor_of Samples.stale_tracks) Samples.stale_tracks);
    reflexivity.
Defined.

Example get_playlist_tracks_stale :
  get_playlist_tracks "Rock" Samples.stale_world
  = (Ok [TrackPath "Rock" "a.mp3"; TrackPath "Rock" "b.mp3"], Samples.stale_world).
Proof. reflexivity. Qed.
End TrackListing.

(** *** Writing *)

Module WorldFacts.
Import Catalog.

Lemma folder_of_with_node name rel n w f :
  folder_of w name = Some f ->
  folder_of (with_node name rel n w) name
  = Some {| writable := writable f; entries := dict_set rel n (entries f) |}.
Proof.
  intros Hf. unfold with_node. rewrite Hf. unfold folder_of. simpl.
  now rewrite dict_get_set_eq.
Qed.

Lemma folder_of_with_node_ne name name' rel n w :
  name' <> name ->
  folder_of (with_node name rel n w) name' = folder_of w name'.
Proof.
  intros Hne. unfold with_node. destruct (folder_of w name); [|reflexivity].
  unfold folder_of. simpl. now rewrite dict_get_set_ne.
Qed.

Lemma nodes_with_node name rel n w f :
  folder_of w name = Some f ->
  nodes (with_node name rel n w) name = dict_set rel n (nodes w name).
Proof.
  intros Hf. unfold nodes. now rewrite (folder_of_with_node _ _ _ _ _ Hf), Hf.
Qed.

Lemma nodes_with_node_ne name name' rel n w :
  name' <> name -> nodes (with_node name rel n w) name' = nodes w name'.
Proof. intros Hne. unfold nodes. now rewrite folder_of_with_node_ne. Qed.

Lemma with_node_with_node name rel n n' w :
  with_node name rel n (with_node name rel n' w) = with_node name rel n w.
Proof.
  destruct (folder_of w name) as [f|] eqn:Hf.
  - unfold with_node at 1. rewrite (folder_of_with_node _ _ _ _ _ Hf).
    unfold with_node. rewrite Hf. unfold set_playlists. simpl.
    now rewrite !dict_set_set.
  - unfold with_node. now rewrite Hf, Hf.
Qed.

Lemma on_disk_with_node name rel n w rel' :
  on_disk w name rel ->
  on_disk (with_node name rel n w) name rel' <-> on_disk w name rel'.
Proof.
  unfold on_disk. intros Hrel.
  destruct (folder_of w name) as [f|] eqn:Hf.
  - rewrite (nodes_with_node _ _ _ _ _ Hf), dict_get_set.
    destruct (String.eqb_spec rel' rel) as [->|]; [|reflexivity].
    split; eauto.
  - unfold with_node. now rewrite Hf.
Qed.

Lemma descriptor_at_with_node name w d :
  is_Some (folder_of w name) ->
  descriptor_at (with_node name descriptor_filename (File (Json d)) w) name
  = Some d.
Proof.
  intros [f Hf]. unfold descriptor_at.
  now rewrite (nodes_with_node _ _ _ _ _ Hf), dict_get_set_eq.
Qed.

Lemma put_file_ok name rel c w :
  can_write w name rel ->
  put_file name rel c w = (Ok tt, with_node name rel (File c) w).
Proof.
  intros (f & Hf & Hw & Hn). unfold put_file. rewrite Hf, Hw.
  destruct (dict_get rel (entries f)) as [[|]|]; congruence.
Qed.

Lemma put_file_inv name rel c w r w' :
  put_file name rel c w = (r, w') ->
  (r = Ok tt /\ w' = with_node name rel (File c) w /\ can_write w name rel)
  \/ (r = Raised OSError /\ w' = w /\ ~ can_write w name rel).
Proof.
  unfold put_file, can_write.
  destruct (folder_of w name) as [f|] eqn:Hf.
  - destruct (writable f) eqn:Hw.
    + destruct (dict_get rel (entries f)) as [[|c0]|] eqn:Hn;
        intros [= <- <-].
      * right. repeat split. intros (f' & [= <-] & _ & H). congruence.
      * left. repeat split. exists f. rewrite Hn. auto.
      * left. repeat split. exists f. rewrite Hn. auto.
    + intros [= <- <-]. right. repeat split.
      intros (f' & [= <-] & H & _). congruence.
  - intros [= <- <-]. right. repeat split. intros (f' & H & _). discriminate.
Qed.

Lemma can_write_with_node name rel c w :
  can_write w name rel -> can_write (with_node name rel (File c) w) name rel.
Proof.
  intros (f & Hf & Hw & Hn). eexists.
  split; [apply folder_of_with_node, Hf|].
  simpl. split; [assumption|]. rewrite dict_get_set_eq. discriminate.
Qed.

Lemma json_dump_ok name rel d w :
  can_write w name rel ->
  json_dump name rel d w = (Ok tt, with_node name rel (File (Json d)) w).
Proof.
  intros Hc. unfold json_dump, open_w.
  rewrite (bind_ok _ _ _ _ _ (put_file_ok _ _ _ _ Hc)).
  rewrite put_file_ok by now apply can_write_with_node.
  now rewrite with_node_with_node.
Qed.

Lemma json_dump_failed name rel d w :
  ~ can_write w name rel -> json_dump name rel d w = (Raised OSError, w).
Proof.
  intros Hc. unfold json_dump, open_w.
  destruct (put_file name rel (Text "") w) as [r w1] eqn:E.
  destruct (put_file_inv _ _ _ _ _ _ E) as [(_ & _ & ?)|(-> & -> & _)];
    [contradiction|].
  apply bind_raised, E.
Qed.

Lemma can_write_dec w name rel : can_write w name rel \/ ~ can_write w name rel.
Proof.
  destruct (put_file name rel (Text "") w) as [r w1] eqn:E.
  apply put_file_inv in E as [(_ & _ & ?)|(_ & _ & ?)]; auto.
Qed.

Lemma can_write_tick w name rel : can_write (tick w) name rel <-> can_write w name rel.
Proof. reflexivity. Qed.
End WorldFacts.

(** *** Reordering *)

Lemma filter_fmap {A B} (f : A -> B) (P : B -> Prop)
    `{!forall y, Decision (P y)} (l : list A) :
  filter P (f <$> l) = f <$> filter (fun x => P (f x)) l.
Proof.
  induction l as [|x l IH]; [reflexivity|].
  rewrite fmap_cons, !filter_cons, IH. now destruct (decide (P (f x))).
Qed.

Module Reordering.
Import Catalog CatalogFacts WorldFacts TrackListing.

Lemma last_index_None start x l : last_index start x l = None <-> x ∉ l.
Proof.
  revert start. induction l as [|y l IH]; intros start; simpl.
  - split; [intros _ H; inversion H | reflexivity].
  - rewrite not_elem_of_cons, <- (IH (start + 1)%Z).
    destruct (last_index (start + 1) x l).
    + split; [discriminate | intros [_ ?]; discriminate].
    + destruct (String.eqb_spec y x) as [->|]; split; try discriminate; intuition congruence.
Qed.

Lemma last_index_spec start x l pos :
  last_index start x l = Some pos ->
  exists i : nat, pos = (start + Z.of_nat i)%Z /\ l !! i = Some x
                  /\ forall j, i < j -> l !! j <> Some x.
Proof.
  revert start. induction l as [|y l IH]; intros start; simpl; [discriminate|].
  destruct (last_index (start + 1) x l) as [pos'|] eqn:E.
  - intros [= <-]. destruct (IH _ E) as (i & -> & Hi & Hlast).
    exists (S i). split; [lia|]. split; [assumption|].
    intros [|j] Hj; [lia|]. simpl. apply Hlast. lia.
  - destruct (String.eqb_spec y x) as [->|]; [|discriminate].
    intros [= <-]. exists 0. split; [lia|]. split; [reflexivity|].
    intros [|j] Hj; [lia|]. simpl. intros Hin.
    apply last_index_None in E. apply E. eapply list_elem_of_lookup_2, Hin.
Qed.

Lemma last_index_inj start x y l pos :
  last_index start x l = Some pos -> last_index start y l = Some pos -> x = y.
Proof.
  intros (i & -> & Hi & _)%last_index_spec (j & Hj & Hj' & _)%last_index_spec.
  assert (i = j) as -> by lia. congruence.
Qed.

Lemma last_index_cons_Some start x y l :
  x ∈ l -> last_index start x (y :: l) = last_index (start + 1) x l.
Proof.
  intros Hin. simpl. destruct (last_index (start + 1) x l) eqn:E; [reflexivity|].
  now apply last_index_None in E.
Qed.

Lemma set_order_set_order i j info :
  set_order i (set_order j info) = set_order i info.
Proof. reflexivity. Qed.

(** The loop of [reorder_tracks]. *)
Lemma reorder_loop start track_order (ts : list (string * track_info))
    (w : world) :
  exists ts',
    for_each (enumerate start track_order)
      (fun ts '(i, relative_path) =>
         match dict_get relative_path ts with
         | Some info => ret (dict_set relative_path (set_order i info) ts)
         | None => ret ts
         end) ts w = (Ok ts', w)
    /\ keys ts' = keys ts
    /\ forall rel,
        dict_get rel ts' = reordered start track_order rel <$> dict_get rel ts.
Proof.
  revert start ts. induction track_order as [|x l IH]; intros start ts.
  - exists ts. split; [reflexivity|]. split; [reflexivity|].
    intros rel. unfold reordered. simpl. now destruct (dict_get rel ts).
  - cbn [enumerate for_each].
    set (ts1 := match dict_get x ts with
                | Some info => dict_set x (set_order start info) ts
                | None => ts
                end).
    destruct (IH (start + 1)%Z ts1) as (ts' & Hrun & Hkeys & Hget).
    exists ts'. split; [|split].
    + unfold bind at 1. subst ts1. now destruct (dict_get x ts).
    + rewrite Hkeys. subst ts1. destruct (dict_get x ts) eqn:E; [|reflexivity].
      apply keys_dict_set_present. rewrite E. eauto.
    + intros rel. rewrite Hget. unfold reordered. cbn [last_index].
      subst ts1. destruct (String.eqb_spec x rel) as [->|Hne].
      * destruct (dict_get rel ts) as [info|] eqn:E; simpl.
        -- rewrite dict_get_set_eq. simpl.
           now destruct (last_index (start + 1) rel l).
        -- rewrite E. reflexivity.
      * assert (dict_get rel
                  match dict_get x ts with
                  | Some info => dict_set x (set_order start info) ts
                  | None => ts
                  end = dict_get rel ts) as ->.
        { destruct (dict_get x ts); [|reflexivity].
          apply dict_get_set_ne. congruence. }
        now destruct (last_index (start + 1) rel l).
Qed.

(** Along the list without its earlier duplicates, last positions grow. *)
Lemma last_positions_sorted {B} (f : string -> B) (Q : string -> Prop)
    `{!forall x, Decision (Q x)} start l :
  StronglySorted (fun a b : Z * B => (a.1 <= b.1)%Z)
    ((fun rel => (default 0%Z (last_index start rel l), f rel))
       <$> filter Q (remove_dups l)).
Proof.
  revert start. induction l as [|x l IH]; intros start; [constructor|].
  assert (Htail :
    (fun rel => (default 0%Z (last_index start rel (x :: l)), f rel))
      <$> filter Q (remove_dups l)
    = (fun rel => (default 0%Z (last_index (start + 1) rel l), f rel))
        <$> filter Q (remove_dups l)).
  { apply list_fmap_ext. intros i rel Hi.
    apply list_elem_of_lookup_2, list_elem_of_filter in Hi as [_ Hi].
    rewrite elem_of_remove_dups in Hi. now rewrite last_index_cons_Some. }
  cbn [remove_dups]. destruct (decide_rel elem_of x l) as [Hin|Hnin].
  - rewrite Htail. apply IH.
  - rewrite filter_cons. destruct (decide (Q x)); [|rewrite Htail; apply IH].
    rewrite fmap_cons, Htail. constructor; [apply IH|].
    apply Forall_forall. intros [pos b] (rel & [= -> ->] & Hrel)%list_elem_of_fmap.
    apply list_elem_of_filter in Hrel as [_ Hrel].
    rewrite elem_of_remove_dups in Hrel.
    simpl. rewrite (proj2 (last_index_None (start + 1) x l) Hnin).
    rewrite String.eqb_refl. simpl.
    destruct (last_index (start + 1) rel l) as [pos|] eqn:E.
    + apply last_index_spec in E as (i & -> & _). simpl. lia.
    + now apply last_index_None in E.
Qed.

Lemma remove_dups_NoDup (l : list string) : NoDup l -> remove_dups l = l.
Proof.
  induction 1 as [|x l Hx Hl IH]; [reflexivity|].
  simpl. destruct (decide_rel elem_of x l); [contradiction|]. now rewrite IH.
Qed.

Lemma NoDup_filter_keys {V} (P : string * V -> Prop)
    `{!forall x, Decision (P x)} (d : list (string * V)) :
  NoDup (keys d) -> NoDup (keys (filter P d)).
Proof.
  unfold keys. induction d as [|[k v] d IH]; [intros; constructor|].
  rewrite fmap_cons, NoDup_cons, filter_cons. intros [Hk Hd].
  destruct (decide (P (k, v))); [|auto].
  rewrite fmap_cons. constructor; [|auto].
  intros ([k' v'] & Heq & [_ Hin]%list_elem_of_filter)%list_elem_of_fmap.
  simpl in Heq. subst k'. apply Hk, list_elem_of_fmap. now exists (k, v').
Qed.

Lemma TrackPath_inj name : Inj (=) (=) (TrackPath name).
Proof. intros x y [= ->]. reflexivity. Qed.

Lemma existing_entries_NoDup w name ts :
  NoDup (keys ts) -> NoDup (existing_entries w name ts).
Proof.
  intros Hnd. apply (NoDup_fmap_1 snd). unfold existing_entries.
  rewrite <- list_fmap_compose.
  change (NoDup ((TrackPath name ∘ fst)
                   <$> filter (fun kv => on_disk w name kv.1) ts)).
  rewrite list_fmap_compose.
  apply (@NoDup_fmap_2 _ _ _ (TrackPath_inj name)).
  now apply NoDup_filter_keys.
Qed.

(** C4. In a collection whose descriptor has tracks and can be written,
    [reorder_tracks] succeeds and gives every descriptor entry whose path
    is in the list the order index + 1 (the index of its last occurrence
    when it is listed more than once), keeps every other entry as it was,
    and afterwards [get_playlist_tracks] returns the listed paths in the
    order of the list. *)
Theorem reorder_tracks_then_listing name track_order w d ts :
  descriptor_at w name = Some d ->
  tracks d = Some ts ->
  NoDup (keys ts) ->
  can_write w name descriptor_filename ->
  exists w' ts' result,
    reorder_tracks name track_order w = (Ok true, w')
    /\ descriptor_at w' name
       = Some (set_modified (clock w (ticks w)) (set_tracks ts' d))
    /\ keys ts' = keys ts
    /\ (forall rel info,
          dict_get rel ts = Some info -> rel ∈ track_order ->
          exists i : nat,
            track_order !! i = Some rel
            /\ (forall j, i < j -> track_order !! j <> Some rel)
            /\ dict_get rel ts' = Some (set_order (Z.of_nat i + 1) info))
    /\ (forall rel, rel ∉ track_order -> dict_get rel ts' = dict_get rel ts)
    /\ get_playlist_tracks name w' = (Ok result, w')
    /\ filter (fun p => relative p ∈ track_order) result
       = TrackPath name
           <$> filter (fun rel => rel ∈ keys ts /\ on_disk w name rel)
                 (remove_dups track_order)
    /\ (NoDup track_order ->
        filter (fun p => relative p ∈ track_order) result
        = TrackPath name
            <$> filter (fun rel => rel ∈ keys ts /\ on_disk w name rel)
                  track_order).
Proof.
  intros Hd Hts Hnd Hcw.
  destruct (reorder_loop 1 track_order ts w) as (ts' & Hloop & Hkeys & Hget).
  set (d' := set_modified (clock w (ticks w)) (set_tracks ts' d)).
  set (w' := with_node name descriptor_filename (File (Json d')) (tick w)).
  assert (Hfolder : is_Some (folder_of (tick w) name)).
  { destruct Hcw as (f & Hf & _). exists f. exact Hf. }
  assert (Hd' : descriptor_at w' name = Some d')
    by now apply descriptor_at_with_node.
  assert (Hdisk : forall rel, on_disk w' name rel <-> on_disk w name rel).
  { intros rel. apply (on_disk_with_node name descriptor_filename _ (tick w)).
    unfold on_disk. unfold descriptor_at in Hd.
    change (nodes (tick w) name) with (nodes w name).
    destruct (dict_get descriptor_filename (nodes w name)); [eauto | discriminate]. }
  assert (Hlisted : forall rel info,
             dict_get rel ts = Some info -> rel ∈ track_order ->
             exists pos, last_index 1 rel track_order = Some pos
                         /\ dict_get rel ts' = Some (set_order pos info)).
  { intros rel info Hinfo Hin. rewrite Hget, Hinfo. unfold reordered. simpl.
    destruct (last_index 1 rel track_order) as [pos|] eqn:E; [eauto|].
    now apply last_index_None in E. }
  exists w', ts', ((sort_by fst Z.ltb (existing_entries w' name ts')).*2).
  split; [|split; [exact Hd'|split; [exact Hkeys|split; [|split; [|split]]]]].
  - unfold reorder_tracks.
    rewrite (bind_ok _ _ _ _ _ (load_descriptor_eq name w)), Hd.
    rewrite (tracks_in_Some _ _ Hts). unfold try_catch.
    rewrite (bind_ok _ _ _ _ _ Hloop).
    unfold bind at 1. unfold _get_timestamp at 1.
    rewrite (bind_ok _ _ _ _ _ (json_dump_ok _ _ _ _ (proj2 (can_write_tick _ _ _) Hcw))).
    reflexivity.
  - intros rel info Hinfo Hin.
    destruct (Hlisted rel info Hinfo Hin) as (pos & Hpos & Hnew).
    destruct (last_index_spec _ _ _ _ Hpos) as (i & -> & Hi & Hlast).
    exists i. split; [assumption|]. split; [assumption|].
    rewrite Hnew. do 2 f_equal. lia.
  - intros rel Hnin. rewrite Hget. unfold reordered.
    rewrite (proj2 (last_index_None 1 rel track_order) Hnin).
    now destruct (dict_get rel ts).
  - now apply get_playlist_tracks_of_descriptor with d'.
  - assert (Hmain :
      filter (fun p => relative p ∈ track_order)
        ((sort_by fst Z.ltb (existing_entries w' name ts')).*2)
      = TrackPath name
          <$> filter (fun rel => rel ∈ keys ts /\ on_disk w name rel)
                (remove_dups track_order)).
    { rewrite filter_fmap.
      set (listed := fun rel => (default 0%Z (last_index 1 rel track_order),
                                 TrackPath name rel)).
      set (Q := fun rel => rel ∈ keys ts /\ on_disk w name rel).
      transitivity ((listed <$> filter Q (remove_dups track_order)).*2);
        [|now rewrite <- list_fmap_compose].
      f_equal.
      assert (Hchar1 : forall o p,
        (o, p) ∈ filter (fun e : Z * track_path => relative e.2 ∈ track_order)
                   (sort_by fst Z.ltb (existing_entries w' name ts'))
        <-> exists rel, p = TrackPath name rel /\ rel ∈ track_order /\ Q rel
                        /\ last_index 1 rel track_order = Some o).
      { intros o p.
        rewrite list_elem_of_filter, sort_by_perm, elem_of_existing_entries.
        split.
        - intros (Hrel & rel & info' & -> & Hin & -> & Hon). simpl in Hrel.
          exists rel. split; [reflexivity|]. split; [assumption|].
          apply dict_get_NoDup in Hin; [|now rewrite Hkeys].
          rewrite Hget in Hin.
          destruct (dict_get rel ts) as [info|] eqn:Hinfo; [|discriminate].
          destruct (Hlisted rel info Hinfo Hrel) as (pos & Hpos & Hnew).
          rewrite Hget, Hinfo in Hnew. simpl in Hin, Hnew.
          assert (info' = set_order pos info) as -> by congruence.
          split; [|exact Hpos]. split; [|now apply Hdisk].
          apply dict_get_is_Some. rewrite Hinfo. eauto.
        - intros (rel & -> & Hrel & [Hk Hon] & Hpos).
          split; [exact Hrel|].
          apply dict_get_is_Some in Hk as [info Hinfo].
          destruct (Hlisted rel info Hinfo Hrel) as (pos & Hpos' & Hnew).
          assert (pos = o) as -> by congruence.
          exists rel, (set_order o info).
          split; [reflexivity|]. split; [now apply dict_get_Some_elem|].
          split; [reflexivity | now apply Hdisk]. }
      assert (Hchar2 : forall o p,
        (o, p) ∈ listed <$> filter Q (remove_dups track_order)
        <-> exists rel, p = TrackPath name rel /\ rel ∈ track_order /\ Q rel
                        /\ last_index 1 rel track_order = Some o).
      { intros o p. rewrite list_elem_of_fmap. split.
        - intros (rel & Heq & [HQ Hin]%list_elem_of_filter).
          rewrite elem_of_remove_dups in Hin. injection Heq as -> ->.
          exists rel. split; [reflexivity|]. split; [assumption|].
          split; [assumption|].
          destruct (last_index 1 rel track_order) eqn:E; [reflexivity|].
          now apply last_index_None in E.
        - intros (rel & -> & Hrel & HQ & Hpos). exists rel.
          split; [unfold listed; now rewrite Hpos|].
          apply list_elem_of_filter. split; [assumption|].
          now apply elem_of_remove_dups. }
      apply (StronglySorted_unique_strong (fun a b : Z * track_path => (a.1 <= b.1)%Z)).
      - intros [o1 p1] [o2 p2] Hin1 Hin2 Hle1 Hle2. simpl in *.
        apply Hchar1 in Hin1 as (rel1 & -> & _ & _ & Hpos1).
        apply Hchar2 in Hin2 as (rel2 & -> & _ & _ & Hpos2).
        assert (o1 = o2) as -> by lia.
        now rewrite (last_index_inj _ _ _ _ _ Hpos1 Hpos2).
      - apply StronglySorted_filter, sort_by_Z_sorted.
      - apply last_positions_sorted.
      - apply NoDup_Permutation.
        + apply NoDup_filter. rewrite sort_by_perm.
          apply existing_entries_NoDup. now rewrite Hkeys.
        + apply (NoDup_fmap_1 snd). rewrite <- list_fmap_compose.
          apply (@NoDup_fmap_2 _ _ _ (TrackPath_inj name)).
          apply NoDup_filter, NoDup_remove_dups.
        + intros [o p]. now rewrite Hchar1, Hchar2. }
    split; [exact Hmain|].
    intros Hnd'. rewrite Hmain. now rewrite remove_dups_NoDup.
Qed.

Lemma reorder_tracks_then_listing_witness :
  descriptor_at Samples.rock_world "Rock"
    = Some (Samples.descriptor_of Samples.rock_tracks)
  /\ NoDup (keys Samples.rock_tracks)
  /\ can_write Samples.rock_world "Rock" descriptor_filename
  /\ exists w' ts' result,
    reorder_tracks "Rock" ["b.mp3"; "a.mp3"] Samples.rock_world = (Ok true, w')
    /\ descriptor_at w' "Rock"
       = Some (set_modified (clock Samples.rock_world (ticks Samples.rock_world))
                 (set_tracks ts' (Samples.descriptor_of Samples.rock_tracks)))
    /\ keys ts' = keys Samples.rock_tracks
    /\ (forall rel info,
          dict_get rel Samples.rock_tracks = Some info ->
          rel ∈ ["b.mp3"; "a.mp3"] ->
          exists i : nat,
            ["b.mp3"; "a.mp3"] !! i = Some rel
            /\ (forall j, i < j -> ["b.mp3"; "a.mp3"] !! j <> Some rel)
            /\ dict_get rel ts' = Some (set_order (Z.of_nat i + 1) info))
    /\ (forall rel, rel ∉ ["b.mp3"; "a.mp3"] ->
                    dict_get rel ts' = dict_get rel Samples.rock_tracks)
    /\ get_playlist_tracks "Rock" w' = (Ok result, w')
    /\ filter (fun p => relative p ∈ ["b.mp3"; "a.mp3"]) result
       = TrackPath "Rock"
           <$> filter (fun rel => rel ∈ keys Samples.rock_tracks
                                  /\ on_disk Samples.rock_world "Rock" rel)
                 (remove_dups ["b.mp3"; "a.mp3"])
    /\ (NoDup ["b.mp3"; "a.mp3"] ->
        filter (fun p => relative p ∈ ["b.mp3"; "a.mp3"]) result
        = TrackPath "Rock"
            <$> filter (fun rel => rel ∈ keys Samples.rock_tracks
                                   /\ on_disk Samples.rock_world "Rock" rel)
                  ["b.mp3"; "a.mp3"]).
Proof.
  assert (Hnd : NoDup (keys Samples.rock_tracks))
    by compute_done.
  assert (Hcw : can_write Samples.rock_world "Rock" descriptor_filename).
  { eexists. split; [reflexivity|]. split; [reflexivity | discriminate]. }
  split; [reflexivity|]. split; [exact Hnd|]. split; [exact Hcw|].
  exact (reorder_tracks_then_listing "Rock" ["b.mp3"; "a.mp3"]
           Samples.rock_world (Samples.descriptor_of Samples.rock_tracks)
           Samples.rock_tracks eq_refl eq_refl Hnd Hcw).
Defined.

(** The scenario of the specification: [reorder(["b.mp3", "a.mp3"])] on
    [a.mp3] (order 1), [b.mp3] (order 2), then the listing. *)
Example reorder_rock_scenario :
  exists w',
    reorder_tracks "Rock" ["b.mp3"; "a.mp3"] Samples.rock_world = (Ok true, w')
    /\ get_playlist_tracks "Rock" w'
       = (Ok [TrackPath "Rock" "b.mp3"; TrackPath "Rock" "a.mp3"], w').
Proof. eexists. split; reflexivity. Qed.

(** A path listed twice counts at its last position. *)
Example reorder_with_duplicate :
  exists w',
    reorder_tracks "Rock" ["a.mp3"; "b.mp3"; "a.mp3"] Samples.rock_world
    = (Ok true, w')
    /\ get_playlist_tracks "Rock" w'
       = (Ok [TrackPath "Rock" "b.mp3"; TrackPath "Rock" "a.mp3"], w').
Proof. eexists. split; reflexivity. Qed.
End Reordering.

(** *** Refreshing *)

Module Refreshing.
Import Catalog CatalogFacts WorldFacts.

Lemma descriptor_not_audio :
  ~ Pathlib.lower (Pathlib.suffix descriptor_filename) ∈ audio_extensions.
Proof. compute_done. Qed.

(** Writing the descriptor does not change the audio files found. *)
Lemma get_audio_files_with_node name n w A :
  _get_audio_files name w = (Ok A, w) ->
  _get_audio_files name (with_node name descriptor_filename n w)
  = (Ok A, with_node name descriptor_filename n w).
Proof.
  unfold _get_audio_files, bind, rglob_files, gets, ret. intros [= <-].
  do 3 f_equal. rewrite !filter_fmap, !list_filter_filter.
  destruct (folder_of w name) as [f|] eqn:Hf.
  - rewrite (nodes_with_node _ _ _ _ _ Hf). f_equal.
    apply filter_dict_set. intros v' [Hext _]. now apply descriptor_not_audio.
  - unfold with_node. now rewrite Hf.
Qed.

Lemma elapsed_0 w : elapsed 0 w = w.
Proof. now destruct w. Qed.

Lemma elapsed_elapsed j k w : elapsed j (elapsed k w) = elapsed (j + k) w.
Proof. unfold elapsed. simpl. f_equal. lia. Qed.

Lemma set_tracks_same d ts : tracks d = Some ts -> set_tracks ts d = d.
Proof. destruct d. simpl. now intros ->. Qed.

Lemma filter_all {A} (P : A -> Prop) `{!forall x, Decision (P x)} (l : list A) :
  (forall x, x ∈ l -> P x) -> filter P l = l.
Proof.
  induction l as [|x l IH]; intros Hall; [reflexivity|].
  rewrite filter_cons_True by (apply Hall; left).
  f_equal. apply IH. intros y Hy. apply Hall. now right.
Qed.

(** The loop that adds the new files. *)
Lemma add_loop name (E : gset string) A d ts cur w :
  tracks d = Some ts ->
  (forall p, p ∈ A -> playlist_of p = name) ->
  exists d' ts' k,
    for_each A (add_new_track name E) (d, cur) w
    = (Ok (d', cur ∪ list_to_set (relative <$> A)), elapsed k w)
    /\ d' = set_tracks ts' d
    /\ (forall rel, rel ∈ keys ts'
                    <-> rel ∈ keys ts \/ (rel ∈ relative <$> A /\ rel ∉ E))
    /\ (forall rel, rel ∈ E -> dict_get rel ts' = dict_get rel ts).
Proof.
  intros Hts HA.
  destruct (for_each_invariant
    (fun done (st : descriptor * gset string) w' =>
       (exists k, w' = elapsed k w)
       /\ st.2 = cur ∪ list_to_set (relative <$> done)
       /\ exists ts', st.1 = set_tracks ts' d
          /\ (forall rel, rel ∈ keys ts'
                <-> rel ∈ keys ts \/ (rel ∈ relative <$> done /\ rel ∉ E))
          /\ (forall rel, rel ∈ E -> dict_get rel ts' = dict_get rel ts))
    A (add_new_track name E) (d, cur) w) as ([d' cur'] & w' & Hrun & HI).
  - split; [exists 0; now rewrite elapsed_0|]. split; [simpl; set_solver|].
    exists ts. split; [symmetry; now apply set_tracks_same|].
    split; [|reflexivity]. intros rel. simpl. set_solver.
  - intros done x [d1 cur1] w1 Hx ((k & ->) & Hcur & ts1 & Hd1 & Hkeys & Hsame).
    simpl in Hcur, Hd1. subst d1 cur1.
    unfold add_new_track, relative_to.
    rewrite (HA x Hx), String.eqb_refl.
    unfold bind at 1. unfold ret at 1.
    destruct (decide (relative x ∈ E)) as [HE|HE].
    + rewrite bool_decide_eq_true_2 by assumption.
      eexists (_, _), _. split; [reflexivity|].
      split; [eauto|]. split; [simpl; rewrite fmap_app; set_solver|].
      exists ts1. split; [reflexivity|]. split; [|assumption].
      intros rel. rewrite Hkeys, fmap_app. simpl. set_solver.
    + rewrite bool_decide_eq_false_2 by assumption. simpl.
      unfold bind at 1. unfold _get_timestamp at 1. unfold ret.
      eexists (_, _), _. split; [reflexivity|].
      split; [exists (S k); reflexivity|].
      split; [simpl; rewrite fmap_app; set_solver|].
      eexists. split; [reflexivity|]. split.
      * intros rel. rewrite elem_of_keys_dict_set, Hkeys, fmap_app. simpl.
        set_solver.
      * intros rel Hrel. rewrite dict_get_set_ne; [auto | congruence].
  - destruct HI as ((k & ->) & Hcur & ts' & Hd' & Hkeys & Hsame).
    simpl in Hcur, Hd'. subst. eauto 10.
Qed.

Lemma set_tracks_set_tracks ts ts' d :
  set_tracks ts (set_tracks ts' d) = set_tracks ts d.
Proof. reflexivity. Qed.

(** The loop that deletes the stale entries. *)
Lemma remove_loop l d ts w :
  tracks d = Some ts ->
  NoDup l ->
  (forall k, k ∈ l -> k ∈ keys ts) ->
  for_each l remove_track d w
  = (Ok (set_tracks (filter (fun kv => kv.1 ∉ l) ts) d), w).
Proof.
  revert d ts. induction l as [|x l IH]; intros d ts Hts Hnd Hin.
  - simpl. unfold ret. rewrite filter_all by (intros; apply not_elem_of_nil).
    now rewrite set_tracks_same.
  - apply NoDup_cons in Hnd as [Hx Hnd]. cbn [for_each].
    assert (Hstep : remove_track d x w
                    = (Ok (set_tracks (dict_remove x ts) d), w)).
    { unfold remove_track. rewrite Hts.
      destruct (proj2 (dict_get_is_Some x ts) (Hin x ltac:(left))) as [v ->].
      reflexivity. }
    rewrite (bind_ok _ _ _ _ _ Hstep).
    rewrite (IH _ (dict_remove x ts)); [|reflexivity|assumption|].
    + rewrite set_tracks_set_tracks. unfold dict_remove.
      rewrite list_filter_filter. do 3 f_equal.
      apply list_filter_iff. intros [k v]. simpl. set_solver.
    + intros k Hk. apply dict_get_is_Some. rewrite dict_get_remove.
      destruct (String.eqb_spec k x) as [->|]; [contradiction|].
      apply dict_get_is_Some, Hin. now right.
Qed.

Lemma dict_get_filter_keys {V} (P : string -> Prop)
    `{!forall k, Decision (P k)} (d : list (string * V)) k :
  dict_get k (filter (fun kv => P kv.1) d)
  = if decide (P k) then dict_get k d else None.
Proof.
  induction d as [|[k0 v0] d IH]; simpl.
  - now destruct (decide (P k)).
  - rewrite filter_cons. simpl. destruct (decide (P k0)) as [H0|H0]; simpl.
    + rewrite IH. destruct (String.eqb_spec k k0) as [->|]; [|reflexivity].
      destruct (decide (P k0)); [reflexivity | contradiction].
    + rewrite IH. destruct (String.eqb_spec k k0) as [->|]; [|reflexivity].
      destruct (decide (P k0)); [contradiction | reflexivity].
Qed.

Lemma dir_exists_of_folder name w :
  is_Some (folder_of w name) -> dir_exists name w = (Ok true, w).
Proof.
  intros [f Hf]. unfold dir_exists, gets. do 2 f_equal.
  apply bool_decide_eq_true_2. unfold folder_of in Hf.
  destruct (dict_get name (playlists w)); [eauto | discriminate].
Qed.

(** A refresh of a descriptor that already lists exactly the audio files
    on disk only stamps it. *)
Lemma refresh_playlist_settled name w d A :
  descriptor_at w name = Some d ->
  truthy d = true ->
  can_write w name descriptor_filename ->
  _get_audio_files name w = (Ok A, w) ->
  match tracks d with
  | Some ts => forall rel, rel ∈ keys ts <-> rel ∈ relative <$> A
  | None => A = []
  end ->
  refresh_playlist name w
  = (Ok true,
     with_node name descriptor_filename
       (File (Json (set_modified (clock w (ticks w)) d))) (tick w)).
Proof.
  intros Hd Htruthy Hcw HA Hkeys. unfold refresh_playlist.
  rewrite (bind_ok _ _ _ _ _ (dir_exists_of_folder name w
             ltac:(destruct Hcw as (f & Hf & _); eauto))).
  cbn [negb]. rewrite (bind_ok _ _ _ _ _ HA).
  rewrite (bind_ok _ _ _ _ _ (load_descriptor_eq name w)), Hd.
  unfold or_else at 1. rewrite Htruthy. unfold bind at 1. unfold ret at 1.
  assert (HinA : forall p, p ∈ A -> playlist_of p = name).
  { destruct (get_audio_files_ok name w) as (A' & HA' & Hchar).
    rewrite HA in HA'. injection HA' as <-. intros p Hp. now apply Hchar. }
  set (E := list_to_set (keys (default [] (tracks d))) : gset string).
  assert (Hloop : for_each A (add_new_track name E) (d, ∅) w
                  = (Ok (d, ∅ ∪ list_to_set (relative <$> A)), w)).
  { destruct (tracks d) as [ts|] eqn:Hts.
    - generalize (∅ : gset string). clear HA.
      assert (HE : forall p, p ∈ A -> relative p ∈ E).
      { intros p Hp. apply elem_of_list_to_set, Hkeys, list_elem_of_fmap. eauto. }
      clear Hkeys. induction A as [|x A IH]; intros cur.
      + simpl. unfold ret.
        replace (cur ∪ ∅) with cur by set_solver. reflexivity.
      + cbn [for_each]. unfold bind at 1. unfold add_new_track at 1.
        unfold relative_to. rewrite (HinA x ltac:(left)), String.eqb_refl.
        unfold bind at 1. unfold ret at 1.
        rewrite bool_decide_eq_true_2 by (apply HE; left). unfold ret at 1.
        rewrite IH; [|intros; apply HinA; now right|intros; apply HE; now right].
        rewrite fmap_cons.
        replace (cur ∪ {[relative x]} ∪ list_to_set (relative <$> A))
          with (cur ∪ list_to_set (relative x :: (relative <$> A)))
          by set_solver.
        reflexivity.
    - subst A. reflexivity. }
  rewrite (bind_ok _ _ _ _ _ Hloop).
  assert (Hnone : E ∖ (∅ ∪ list_to_set (relative <$> A)) = (∅ : gset string)).
  { apply set_eq. intros rel. subst E.
    destruct (tracks d) as [ts|]; simpl.
    - specialize (Hkeys rel). set_solver.
    - set_solver. }
  rewrite Hnone, elements_empty. cbn [for_each]. unfold bind at 1. unfold ret at 1.
  unfold bind at 1. unfold _get_timestamp at 1. unfold try_catch.
  rewrite (bind_ok _ _ _ _ _ (json_dump_ok _ _ _ _ (proj2 (can_write_tick _ _ _) Hcw))).
  reflexivity.
Qed.

Lemma or_else_starting name w :
  exists k,
    or_else (descriptor_at w name)
      (let* stamp := _get_timestamp in ret (default_descriptor name stamp)) w
    = (Ok (starting_descriptor w name), elapsed k w).
Proof.
  unfold or_else, starting_descriptor.
  destruct (descriptor_at w name) as [d|]; [destruct (truthy d)|].
  - exists 0. now rewrite elapsed_0.
  - now exists 1.
  - now exists 1.
Qed.

(** What a successful [refresh_playlist] has done. *)
Lemma refresh_playlist_ok name w w1 :
  refresh_playlist name w = (Ok true, w1) ->
  exists A d1 k,
    _get_audio_files name w = (Ok A, w)
    /\ can_write w name descriptor_filename
    /\ w1 = with_node name descriptor_filename (File (Json d1)) (elapsed k w)
    /\ display_name d1 = display_name (starting_descriptor w name)
    /\ description d1 = description (starting_descriptor w name)
    /\ created d1 = created (starting_descriptor w name)
    /\ is_Some (modified d1)
    /\ match tracks (starting_descriptor w name) with
       | Some ts0 =>
           exists ts1,
             tracks d1 = Some ts1
             /\ (forall rel, rel ∈ keys ts1 <-> rel ∈ relative <$> A)
             /\ (forall rel, rel ∈ keys ts0 -> rel ∈ relative <$> A ->
                             dict_get rel ts1 = dict_get rel ts0)
       | None => A = [] /\ tracks d1 = None
       end.
Proof.
  intros H. unfold refresh_playlist in H.
  unfold bind at 1 in H. unfold dir_exists at 1, gets at 1 in H.
  destruct (bool_decide (is_Some (dict_get name (playlists w)))) eqn:Hex;
    [|discriminate].
  cbn [negb] in H.
  destruct (get_audio_files_ok name w) as (A & HA & HcharA).
  rewrite (bind_ok _ _ _ _ _ HA) in H.
  rewrite (bind_ok _ _ _ _ _ (load_descriptor_eq name w)) in H.
  destruct (or_else_starting name w) as (k0 & Hstart).
  rewrite (bind_ok _ _ _ _ _ Hstart) in H.
  set (d0 := starting_descriptor w name) in *.
  set (E := list_to_set (keys (default [] (tracks d0))) : gset string) in *.
  assert (HinA : forall p, p ∈ A -> playlist_of p = name)
    by (intros p Hp; now apply HcharA).
  exists A.
  destruct (tracks d0) as [ts0|] eqn:Hts0.
  - destruct (add_loop name E A d0 ts0 ∅ (elapsed k0 w) Hts0 HinA)
      as (d' & ts' & k & Hadd & -> & Hkeys & Hsame).
    rewrite (bind_ok _ _ _ _ _ Hadd) in H.
    rewrite elapsed_elapsed in H.
    set (stale := E ∖ (∅ ∪ list_to_set (relative <$> A))) in *.
    rewrite (bind_ok _ _ _ _ _
               (remove_loop (elements stale) (set_tracks ts' d0) ts' _
                  eq_refl (NoDup_elements stale)
                  ltac:(intros rel Hrel; apply Hkeys; left;
                        apply elem_of_elements in Hrel;
                        subst stale E; simpl in Hrel; set_solver))) in H.
    unfold bind at 1 in H. unfold _get_timestamp at 1 in H.
    unfold try_catch in H.
    set (ts1 := filter (fun kv => kv.1 ∉ elements stale) ts') in *.
    set (d1 := set_modified _ _) in H.
    destruct (can_write_dec (elapsed (k + k0) w) name descriptor_filename)
      as [Hcw|Hcw].
    + rewrite (bind_ok _ _ _ _ _
                 (json_dump_ok _ _ d1 _ (proj2 (can_write_tick _ _ _) Hcw))) in H.
      injection H as <-. exists d1, (S (k + k0)).
      split; [exact HA|]. split; [exact Hcw|]. split; [reflexivity|].
      split; [reflexivity|]. split; [reflexivity|]. split; [reflexivity|].
      split; [subst d1; simpl; eauto|].
      exists ts1. split; [reflexivity|].
      assert (Hget1 : forall rel,
                 dict_get rel ts1
                 = if decide (rel ∈ E /\ rel ∉ relative <$> A) then None
                   else dict_get rel ts').
      { intros rel. subst ts1.
        etransitivity;
          [exact (dict_get_filter_keys (fun k => k ∉ elements stale) ts' rel)|].
        repeat case_decide; try reflexivity; exfalso;
          subst stale; set_solver. }
      assert (HE : forall rel, rel ∈ E <-> rel ∈ keys ts0).
      { intros rel. subst E. simpl. apply elem_of_list_to_set. }
      split.
      * intros rel. rewrite <- dict_get_is_Some, Hget1.
        case_decide as Hs.
        -- split; [intros [? ?]; discriminate|].
           intros Hin. now destruct Hs as [_ []].
        -- rewrite dict_get_is_Some, Hkeys, <- HE.
           destruct (decide (rel ∈ relative <$> A)), (decide (rel ∈ E)); tauto.
      * intros rel Hrel HrelA. rewrite Hget1.
        case_decide as Hs; [now destruct Hs as [_ []]|].
        apply Hsame, HE, Hrel.
    + rewrite (bind_raised _ _ _ _ _
                 (json_dump_failed _ _ d1 _
                    (fun Hc => Hcw (proj1 (can_write_tick _ _ _) Hc)))) in H.
      discriminate.
  - destruct A as [|x A].
    + cbn [for_each] in H. unfold bind at 1 in H. unfold ret at 1 in H.
      assert (Hnone : E ∖ (∅ : gset string) = ∅)
        by (subst E; simpl; set_solver).
      rewrite Hnone, elements_empty in H. cbn [for_each] in H.
      unfold bind at 1 in H. unfold ret at 1 in H.
      unfold bind at 1 in H. unfold _get_timestamp at 1 in H.
      unfold try_catch in H.
      set (d1 := set_modified _ _) in H.
      destruct (can_write_dec (elapsed k0 w) name descriptor_filename)
        as [Hcw|Hcw].
      * rewrite (bind_ok _ _ _ _ _
                   (json_dump_ok _ _ d1 _ (proj2 (can_write_tick _ _ _) Hcw))) in H.
        injection H as <-. exists d1, (S k0).
        split; [exact HA|]. split; [exact Hcw|]. split; [reflexivity|].
        split; [reflexivity|]. split; [reflexivity|]. split; [reflexivity|].
        split; [subst d1; simpl; eauto|]. split; [reflexivity|].
        subst d1. simpl. exact Hts0.
      * rewrite (bind_raised _ _ _ _ _
                   (json_dump_failed _ _ d1 _
                      (fun Hc => Hcw (proj1 (can_write_tick _ _ _) Hc)))) in H.
        discriminate.
    + exfalso. cbn [for_each] in H.
      assert (Hraise : add_new_track name E (d0, ∅) x (elapsed k0 w)
                       = (Raised (KeyError "tracks"), elapsed k0 w)).
      { unfold add_new_track, relative_to.
        rewrite (HinA x ltac:(left)), String.eqb_refl.
        unfold bind at 1. unfold ret at 1.
        rewrite bool_decide_eq_false_2 by (subst E; simpl; set_solver).
        now rewrite Hts0. }
      rewrite (bind_raised _ _ _ _ _ (bind_raised _ _ _ _ _ Hraise)) in H.
      discriminate.
Qed.

Lemma get_audio_files_elapsed name k w A :
  _get_audio_files name w = (Ok A, w) ->
  _get_audio_files name (elapsed k w) = (Ok A, elapsed k w).
Proof.
  unfold _get_audio_files, bind, rglob_files, gets, ret. intros [= <-].
  reflexivity.
Qed.

Lemma truthy_modified d : is_Some (modified d) -> truthy d = true.
Proof. destruct d as [[] [] [] [] []]; simpl; intros [? ?]; congruence. Qed.

(** C1, as the code has it. When a refresh has succeeded, a second one
    right after it, with no change on disk in between, succeeds too and
    rewrites the descriptor with the same tracks, display name, description
    and creation time; only its [modified] stamp is replaced by the current
    reading of the clock. No other file of the folder changes. *)
Theorem refresh_twice_only_restamps name w w1 :
  refresh_playlist name w = (Ok true, w1) ->
  exists d1 d2 w2,
    descriptor_at w1 name = Some d1
    /\ refresh_playlist name w1 = (Ok true, w2)
    /\ descriptor_at w2 name = Some d2
    /\ d2 = set_modified (clock w1 (ticks w1)) d1
    /\ tracks d2 = tracks d1
    /\ display_name d2 = display_name d1
    /\ description d2 = description d1
    /\ created d2 = created d1
    /\ modified d2 = Some (clock w1 (ticks w1))
    /\ (forall rel, rel <> descriptor_filename ->
                    dict_get rel (nodes w2 name) = dict_get rel (nodes w1 name)).
Proof.
  intros H.
  destruct (refresh_playlist_ok _ _ _ H)
    as (A & d1 & k & HA & Hcw & -> & _ & _ & _ & Hmod & Htracks).
  set (w1 := with_node name descriptor_filename (File (Json d1)) (elapsed k w)).
  assert (Hfolder : is_Some (folder_of (elapsed k w) name))
    by (destruct Hcw as (f & Hf & _); exists f; exact Hf).
  assert (Hd1 : descriptor_at w1 name = Some d1)
    by now apply descriptor_at_with_node.
  assert (Hcw1 : can_write w1 name descriptor_filename)
    by (apply can_write_with_node; exact Hcw).
  assert (HA1 : _get_audio_files name w1 = (Ok A, w1))
    by now apply get_audio_files_with_node, get_audio_files_elapsed.
  assert (Hkeys : match tracks d1 with
                  | Some ts => forall rel, rel ∈ keys ts <-> rel ∈ relative <$> A
                  | None => A = []
                  end).
  { destruct (tracks (starting_descriptor w name)).
    - destruct Htracks as (ts1 & -> & Hk & _). exact Hk.
    - destruct Htracks as [-> ->]. reflexivity. }
  pose proof (refresh_playlist_settled name w1 d1 A Hd1
                (truthy_modified _ Hmod) Hcw1 HA1 Hkeys) as H2.
  set (d2 := set_modified (clock w1 (ticks w1)) d1) in *.
  exists d1, d2, (with_node name descriptor_filename (File (Json d2)) (tick w1)).
  assert (Hfolder1 : is_Some (folder_of (tick w1) name))
    by (destruct Hcw1 as (f & Hf & _); exists f; exact Hf).
  split; [exact Hd1|]. split; [exact H2|].
  split; [now apply descriptor_at_with_node|].
  do 6 (split; [reflexivity|]).
  intros rel Hrel. destruct Hfolder1 as [f Hf].
  rewrite (nodes_with_node _ _ _ _ _ Hf), dict_get_set_ne by assumption.
  reflexivity.
Qed.

Lemma refresh_twice_only_restamps_witness :
  exists w1,
    refresh_playlist "Rock" Samples.stale_world = (Ok true, w1)
    /\ exists d1 d2 w2,
      descriptor_at w1 "Rock" = Some d1
      /\ refresh_playlist "Rock" w1 = (Ok true, w2)
      /\ descriptor_at w2 "Rock" = Some d2
      /\ d2 = set_modified (clock w1 (ticks w1)) d1
      /\ tracks d2 = tracks d1
      /\ display_name d2 = display_name d1
      /\ description d2 = description d1
      /\ created d2 = created d1
      /\ modified d2 = Some (clock w1 (ticks w1))
      /\ (forall rel, rel <> descriptor_filename ->
                      dict_get rel (nodes w2 "Rock")
                      = dict_get rel (nodes w1 "Rock")).
Proof.
  eexists. split; [vm_compute; reflexivity|].
  apply (refresh_twice_only_restamps "Rock" Samples.stale_world).
  vm_compute. reflexivity.
Defined.

(** C1, as the specification words it, fails: the second refresh stamps
    the descriptor anew. *)
Lemma refresh_not_idempotent : ~ refresh_idempotent "Rock" Samples.rock_world.
Proof.
  intros H.
  specialize (H (snd (refresh_playlist "Rock" Samples.rock_world))
                (snd (refresh_playlist "Rock"
                        (snd (refresh_playlist "Rock" Samples.rock_world))))).
  vm_compute in H. specialize (H eq_refl eq_refl). discriminate H.
Qed.

(** On the descriptor left by an earlier pruning ([b.mp3] with order 2 and
    [c.mp3] with order 3) and a folder that gained [d.mp3], the refresh gives
    the new entry the order 3, which [c.mp3] holds already. *)
Example refresh_playlist_order_collision :
  exists w' d' ts',
    refresh_playlist "Rock" Samples.pruned_world = (Ok true, w')
    /\ descriptor_at w' "Rock" = Some d'
    /\ tracks d' = Some ts'
    /\ keys ts' = ["b.mp3"; "c.mp3"; "d.mp3"]
    /\ ti_order <$> dict_get "c.mp3" ts' = Some (Some 3%Z)
    /\ ti_order <$> dict_get "d.mp3" ts' = Some (Some 3%Z).
Proof. do 3 eexists. repeat split; vm_compute; reflexivity. Qed.
End Refreshing.

(** *** Reconciliation *)

Module Reconciling.
Import Catalog CatalogFacts WorldFacts Refreshing.

Lemma dict_set_absent {V} k (v : V) d :
  dict_get k d = None -> dict_set k v d = d ++ [(k, v)].
Proof.
  induction d as [|[k0 v0] d IH]; simpl; [reflexivity|].
  destruct (String.eqb_spec k k0); [discriminate|].
  intros H. now rewrite IH.
Qed.

Lemma dict_get_app {V} k (d1 d2 : list (string * V)) :
  dict_get k (d1 ++ d2)
  = match dict_get k d1 with Some v => Some v | None => dict_get k d2 end.
Proof.
  induction d1 as [|[k0 v0] d1 IH]; simpl; [reflexivity|].
  now destruct (String.eqb k k0).
Qed.

Lemma filter_ext_in {A} (P Q : A -> Prop) `{!forall x, Decision (P x)}
    `{!forall x, Decision (Q x)} (l : list A) :
  (forall x, x ∈ l -> P x <-> Q x) -> filter P l = filter Q l.
Proof.
  induction l as [|x l IH]; intros Hl; [reflexivity|].
  rewrite !filter_cons, IH by (intros y Hy; apply Hl; now right).
  destruct (decide (P x)) as [HP|HP], (decide (Q x)) as [HQ|HQ];
    try reflexivity; exfalso.
  - apply HQ, (Hl x); [left | assumption].
  - apply HP, (Hl x); [left | assumption].
Qed.

Lemma keys_new_entries clock n t rels :
  keys (new_entries clock n t rels) = rels.
Proof.
  revert n t. induction rels as [|rel rels IH]; intros n t; [reflexivity|].
  unfold keys in *. cbn. now rewrite IH.
Qed.

Lemma dict_get_new_entries clock n t rels i rel :
  NoDup rels ->
  rels !! i = Some rel ->
  dict_get rel (new_entries clock n t rels)
  = Some {| ti_display_name := Some (Pathlib.stem rel);
            ti_order := Some (Z.of_nat (n + i) + 1)%Z;
            ti_added := Some (clock (t + i)); ti_modified := None |}.
Proof.
  revert n t i. induction rels as [|r rels IH]; intros n t i Hnd Hi;
    [discriminate|].
  apply NoDup_cons in Hnd as [Hr Hnd]. destruct i as [|i]; cbn in Hi |- *.
  - injection Hi as ->. rewrite String.eqb_refl, !Nat.add_0_r. reflexivity.
  - destruct (String.eqb_spec rel r) as [->|].
    + exfalso. apply Hr. eapply list_elem_of_lookup_2, Hi.
    + replace (n + S i)%nat with (S n + i)%nat by lia.
      replace (t + S i)%nat with (S t + i)%nat by lia.
      now apply IH.
Qed.

Lemma get_audio_files_NoDup name w A :
  NoDup (keys (nodes w name)) ->
  _get_audio_files name w = (Ok A, w) ->
  NoDup (relative <$> A).
Proof.
  intros Hnd. unfold _get_audio_files, bind, rglob_files, gets, ret.
  intros [= <-]. rewrite sort_by_perm, filter_fmap, <- list_fmap_compose.
  apply (Reordering.NoDup_filter_keys _ (filter _ (nodes w name))).
  now apply Reordering.NoDup_filter_keys.
Qed.

Lemma elapsed_tick k w : elapsed k (tick w) = elapsed (S k) w.
Proof. unfold elapsed, tick. cbn. f_equal. lia. Qed.

(** The loop that adds the new files, entry by entry. *)
Lemma add_loop_explicit name (E : gset string) A d ts cur w :
  tracks d = Some ts ->
  (forall p, p ∈ A -> playlist_of p = name) ->
  NoDup (relative <$> A) ->
  (forall rel, rel ∈ relative <$> A -> rel ∉ E -> rel ∉ keys ts) ->
  for_each A (add_new_track name E) (d, cur) w
  = (Ok (set_tracks
           (ts ++ new_entries (clock w) (length ts) (ticks w)
                    (filter (fun rel => rel ∉ E) (relative <$> A))) d,
         cur ∪ list_to_set (relative <$> A)),
     elapsed (length (filter (fun rel => rel ∉ E) (relative <$> A))) w).
Proof.
  revert d ts cur w. induction A as [|x A IH]; intros d ts cur w Hts HA Hnd Hnew.
  - cbn. unfold ret. rewrite app_nil_r, set_tracks_same, elapsed_0 by assumption.
    replace (cur ∪ ∅) with cur by set_solver. reflexivity.
  - rewrite fmap_cons in Hnd, Hnew. apply NoDup_cons in Hnd as [Hx Hnd].
    cbn [for_each]. unfold bind at 1. unfold add_new_track at 1, relative_to.
    rewrite (HA x ltac:(left)), String.eqb_refl.
    unfold bind at 1. unfold ret at 1.
    rewrite fmap_cons, filter_cons.
    destruct (decide (relative x ∉ E)) as [HE|HE].
    + rewrite bool_decide_eq_false_2 by assumption. rewrite Hts.
      unfold bind at 1. unfold _get_timestamp at 1. unfold ret at 1.
      assert (Habsent : dict_get (relative x) ts = None)
        by (apply dict_get_None, Hnew; [left | assumption]).
      rewrite (dict_set_absent _ _ _ Habsent).
      rewrite (IH _ (ts ++ [(relative x,
                             {| ti_display_name := Some (Pathlib.stem (relative x));
                                ti_order := Some (Z.of_nat (length ts) + 1)%Z;
                                ti_added := Some (clock w (ticks w));
                                ti_modified := None |})]));
        [|reflexivity|intros; apply HA; now right|assumption|].
      * rewrite length_app, Nat.add_1_r, <- app_assoc. cbn.
        replace (cur ∪ {[relative x]} ∪ list_to_set (relative <$> A))
          with (cur ∪ ({[relative x]} ∪ list_to_set (relative <$> A)))
          by set_solver.
        now rewrite set_tracks_set_tracks, elapsed_tick.
      * intros rel Hrel HrelE. unfold keys. rewrite fmap_app.
        apply not_elem_of_app. split; [apply Hnew; [now right | assumption]|].
        cbn. intros ->%list_elem_of_singleton. contradiction.
    + apply dec_stable in HE. rewrite bool_decide_eq_true_2 by assumption.
      unfold ret at 1.
      rewrite (IH _ ts); [|assumption|intros; apply HA; now right|assumption|].
      * cbn.
        replace (cur ∪ {[relative x]} ∪ list_to_set (relative <$> A))
          with (cur ∪ ({[relative x]} ∪ list_to_set (relative <$> A)))
          by set_solver.
        reflexivity.
      * intros rel Hrel. apply Hnew. now right.
Qed.

(** The paths to remove are those of the descriptor that the scan did not
    meet. *)
Lemma not_stale (E : gset string) (l : list string) rel :
  rel ∈ l -> rel ∉ E ∖ (∅ ∪ list_to_set l).
Proof. set_solver. Qed.

Lemma not_stale_iff (E : gset string) (l : list string) rel :
  rel ∈ E -> rel ∉ E ∖ (∅ ∪ list_to_set l) <-> rel ∈ l.
Proof.
  intros HE. split; [|apply not_stale].
  intros Hn. destruct (decide (rel ∈ l)) as [|Hl]; [assumption|].
  exfalso. apply Hn. set_solver.
Qed.

(** C2, as the code has it. A successful [refresh_playlist] of a folder
    whose listing has no duplicate leaves in the descriptor exactly the audio
    files on disk: the entries whose file is gone are removed, the others
    keep their place and all their fields, and the files that had no entry
    are appended after them in scan order, each with its stem as display
    name and with order = 1 + the number of entries the descriptor held when
    it was added (stale ones included). *)
Theorem refresh_playlist_reconciles name w w1 :
  NoDup (keys (nodes w name)) ->
  refresh_playlist name w = (Ok true, w1) ->
  exists A d1,
    _get_audio_files name w = (Ok A, w)
    /\ (forall rel, rel ∈ relative <$> A <-> audio_on_disk w name rel)
    /\ descriptor_at w1 name = Some d1
    /\ match tracks (starting_descriptor w name) with
       | Some ts0 =>
           exists ts1 t0,
             tracks d1 = Some ts1
             /\ ts1 = filter (fun kv => kv.1 ∈ relative <$> A) ts0
                      ++ new_entries (clock w) (length ts0) t0
                           (filter (fun rel => rel ∉ keys ts0) (relative <$> A))
             /\ (forall rel, rel ∈ keys ts1 <-> audio_on_disk w name rel)
             /\ (forall rel,
                   rel ∈ keys ts0 -> audio_on_disk w name rel ->
                   dict_get rel ts1 = dict_get rel ts0)
             /\ (forall i rel,
                   filter (fun rel => rel ∉ keys ts0) (relative <$> A) !! i
                   = Some rel ->
                   dict_get rel ts1
                   = Some {| ti_display_name := Some (Pathlib.stem rel);
                             ti_order := Some (Z.of_nat (length ts0 + i) + 1)%Z;
                             ti_added := Some (clock w (t0 + i));
                             ti_modified := None |})
       | None => A = [] /\ tracks d1 = None
       end.
Proof.
  intros Hnd H.
  destruct (refresh_playlist_ok _ _ _ H)
    as (A & d1 & k & HA & Hcw & Hw1 & _ & _ & _ & _ & Htracks).
  assert (Hfolder : is_Some (folder_of (elapsed k w) name))
    by (destruct Hcw as (f & Hf & _); exists f; exact Hf).
  assert (Hd1 : descriptor_at w1 name = Some d1)
    by (subst w1; now apply descriptor_at_with_node).
  assert (HinA : forall p, p ∈ A -> playlist_of p = name).
  { destruct (get_audio_files_ok name w) as (A' & HA' & Hchar).
    rewrite HA in HA'. injection HA' as <-. intros p Hp. now apply Hchar. }
  assert (HdiskA : forall rel, rel ∈ relative <$> A <-> audio_on_disk w name rel).
  { destruct (get_audio_files_ok name w) as (A' & HA' & Hchar).
    rewrite HA in HA'. injection HA' as <-. intros rel.
    rewrite list_elem_of_fmap. split.
    - intros (p & -> & Hp). now apply Hchar.
    - intros Hrel. exists (TrackPath name rel). split; [reflexivity|].
      apply Hchar. auto. }
  exists A, d1. split; [exact HA|]. split; [exact HdiskA|]. split; [exact Hd1|].
  destruct (tracks (starting_descriptor w name)) as [ts0|] eqn:Hts0;
    [|exact Htracks].
  destruct Htracks as (ts1 & Hts1 & Hkeys & Hsame).
  (* the run of the function, step by step *)
  destruct (or_else_starting name w) as (k0 & Hstart).
  set (E := list_to_set (keys ts0) : gset string).
  set (news := filter (fun rel => rel ∉ E) (relative <$> A)).
  set (added := new_entries (clock w) (length ts0) (k0 + ticks w) news).
  set (stale := E ∖ (∅ ∪ list_to_set (relative <$> A))).
  assert (HnewsA : forall rel, rel ∈ news -> rel ∈ relative <$> A /\ rel ∉ E)
    by (intros rel [? ?]%list_elem_of_filter; auto).
  assert (Hrun :
    refresh_playlist name w
    = (Ok true,
       with_node name descriptor_filename
         (File (Json (set_modified
                        (clock w (length news + k0 + ticks w))
                        (set_tracks
                           (filter (fun kv => kv.1 ∉ elements stale)
                              (ts0 ++ added))
                           (starting_descriptor w name)))))
         (elapsed (S (length news + k0)) w))).
  { unfold refresh_playlist.
    rewrite (bind_ok _ _ _ _ _ (dir_exists_of_folder name w
               ltac:(destruct Hcw as (f & Hf & _); eauto))).
    cbn [negb]. rewrite (bind_ok _ _ _ _ _ HA).
    rewrite (bind_ok _ _ _ _ _ (load_descriptor_eq name w)).
    rewrite (bind_ok _ _ _ _ _ Hstart). rewrite Hts0. cbn [default].
    rewrite (bind_ok _ _ _ _ _
               (add_loop_explicit name E A _ ts0 ∅ (elapsed k0 w) Hts0 HinA
                  (get_audio_files_NoDup _ _ _ Hnd HA)
                  ltac:(intros rel _ HE Hin; apply HE;
                        now apply elem_of_list_to_set))).
    rewrite elapsed_elapsed.
    rewrite (bind_ok _ _ _ _ _
               (remove_loop (elements stale)
                  (set_tracks (ts0 ++ added) (starting_descriptor w name))
                  (ts0 ++ added) _
                  eq_refl (NoDup_elements stale)
                  ltac:(intros rel Hrel; apply elem_of_elements in Hrel;
                        unfold keys; rewrite fmap_app; apply elem_of_app; left;
                        subst stale E; set_solver))).
    unfold bind at 1. unfold _get_timestamp at 1. unfold try_catch.
    rewrite (bind_ok _ _ _ _ _
               (json_dump_ok name descriptor_filename _
                  (tick (elapsed (length news + k0) w)) Hcw)).
    reflexivity. }
  rewrite Hrun in H. injection H as Hw.
  rewrite <- Hw in Hd1.
  rewrite descriptor_at_with_node in Hd1
    by (destruct Hcw as (f & Hf & _); exists f; exact Hf).
  injection Hd1 as Hd1. rewrite <- Hd1 in Hts1.
  cbn [tracks set_modified set_tracks] in Hts1.
  injection Hts1 as Hts1.
  assert (HE : forall rel, rel ∈ E <-> rel ∈ keys ts0)
    by (intros rel; apply elem_of_list_to_set).
  assert (Hnews_eq : news = filter (fun rel => rel ∉ keys ts0) (relative <$> A)).
  { apply list_filter_iff. intros rel. now rewrite HE. }
  assert (Heq : ts1 = filter (fun kv => kv.1 ∈ relative <$> A) ts0 ++ added).
  { rewrite <- Hts1, filter_app. f_equal.
    - apply filter_ext_in. intros [rel info] Hin. cbn [fst].
      rewrite elem_of_elements. apply not_stale_iff.
      apply HE, list_elem_of_fmap. now exists (rel, info).
    - apply filter_all. intros [rel info] Hin. cbn [fst].
      assert (Hrel : rel ∈ news).
      { rewrite <- (keys_new_entries (clock w) (length ts0) (k0 + ticks w) news).
        apply list_elem_of_fmap. now exists (rel, info). }
      apply HnewsA in Hrel as [HrelA _].
      rewrite elem_of_elements. now apply not_stale. }
  exists ts1, (k0 + ticks w). rewrite <- Hd1. cbn [tracks set_modified set_tracks].
  split; [now rewrite Hts1|]. split; [now rewrite <- Hnews_eq|].
  split; [intros rel; now rewrite Hkeys|].
  split; [intros rel Hrel Hdisk; apply Hsame; [assumption | now apply HdiskA]|].
  intros i rel Hi. rewrite <- Hnews_eq in Hi.
  assert (Hrel : rel ∈ news) by (eapply list_elem_of_lookup_2, Hi).
  apply HnewsA in Hrel as [_ HrelE].
  rewrite Heq, dict_get_app.
  assert (dict_get rel (filter (fun kv => kv.1 ∈ relative <$> A) ts0) = None) as ->.
  { apply dict_get_None. intros (kv & -> & [_ Hin]%list_elem_of_filter)%list_elem_of_fmap.
    apply HrelE, HE, list_elem_of_fmap. now exists kv. }
  apply dict_get_new_entries; [|exact Hi].
  apply NoDup_filter. now apply (get_audio_files_NoDup name w).
Qed.

Lemma refresh_playlist_reconciles_witness :
  NoDup (keys (nodes Samples.pruned_world "Rock"))
  /\ exists w1,
      refresh_playlist "Rock" Samples.pruned_world = (Ok true, w1)
      /\ exists A d1,
          _get_audio_files "Rock" Samples.pruned_world
          = (Ok A, Samples.pruned_world)
          /\ (forall rel, rel ∈ relative <$> A
                          <-> audio_on_disk Samples.pruned_world "Rock" rel)
          /\ descriptor_at w1 "Rock" = Some d1
          /\ match tracks (starting_descriptor Samples.pruned_world "Rock") with
             | Some ts0 =>
                 exists ts1 t0,
                   tracks d1 = Some ts1
                   /\ ts1 = filter (fun kv => kv.1 ∈ relative <$> A) ts0
                            ++ new_entries (clock Samples.pruned_world)
                                 (length ts0) t0
                                 (filter (fun rel => rel ∉ keys ts0)
                                    (relative <$> A))
                   /\ (forall rel,
                         rel ∈ keys ts1
                         <-> audio_on_disk Samples.pruned_world "Rock" rel)
                   /\ (forall rel,
                         rel ∈ keys ts0 ->
                         audio_on_disk Samples.pruned_world "Rock" rel ->
                         dict_get rel ts1 = dict_get rel ts0)
                   /\ (forall i rel,
                         filter (fun rel => rel ∉ keys ts0) (relative <$> A) !! i
                         = Some rel ->
                         dict_get rel ts1
                         = Some {| ti_display_name := Some (Pathlib.stem rel);
                                   ti_order :=
                                     Some (Z.of_nat (length ts0 + i) + 1)%Z;
                                   ti_added :=
                                     Some (clock Samples.pruned_world (t0 + i));
                                   ti_modified := None |})
             | None => A = [] /\ tracks d1 = None
             end.
Proof.
  assert (Hnd : NoDup (keys (nodes Samples.pruned_world "Rock")))
    by compute_done.
  split; [exact Hnd|]. eexists. split; [vm_compute; reflexivity|].
  apply (refresh_playlist_reconciles "Rock" Samples.pruned_world);
    [exact Hnd | vm_compute; reflexivity].
Defined.

(** C2, as the specification words it, fails: the order given to the new
    [d.mp3] is the one [c.mp3] holds. *)
Lemma new_orders_not_available :
  ~ new_orders_available "Rock" Samples.pruned_world.
Proof.
  intros H.
  refine (H _ _ _ _ _ "d.mp3" _ "c.mp3" _ _ _ _ _ _ _ _ _ _ _).
  - vm_compute. reflexivity.
  - reflexivity.
  - vm_compute. reflexivity.
  - vm_compute. reflexivity.
  - reflexivity.
  - compute_done.
  - vm_compute. reflexivity.
  - discriminate.
  - vm_compute. reflexivity.
  - reflexivity.
Qed.
End Reconciling.

(** *** Corrupt descriptors *)

Module CorruptDescriptor.
Import Catalog CatalogFacts.

Lemma get_playlists_lists_loaded w :
  exists listed,
    get_playlists w = (Ok listed, w)
    /\ forall name, is_Some (dict_get name listed) ->
                    is_Some (descriptor_at w name).
Proof.
  unfold get_playlists. unfold bind at 1. unfold iterdir at 1, gets at 1.
  destruct (for_each_invariant
    (fun _ (acc : list (string * descriptor)) w' =>
       w' = w /\ forall name, is_Some (dict_get name acc) ->
                              is_Some (descriptor_at w name))
    ((fun '(name, it) =>
        (name, match it with Dir _ => true | PlainFile => false end))
       <$> playlists w)
    (fun playlists '(name, is_dir) =>
       if is_dir : bool then
         let* descriptor := _load_descriptor name in
         match descriptor with
         | Some d => if truthy d then ret (dict_set name d playlists)
                     else ret playlists
         | None => ret playlists
         end
       else ret playlists)
    [] w) as (listed & w' & Hrun & -> & Hlisted).
  - split; [reflexivity|]. intros name [? ?]. discriminate.
  - intros _ [name [|]] acc w0 _ [-> Hacc].
    + rewrite (bind_ok _ _ _ _ _ (load_descriptor_eq name w)).
      destruct (descriptor_at w name) as [d|] eqn:Hd;
        [destruct (truthy d)|]; unfold ret; eexists _, _;
        (split; [reflexivity|]); (split; [reflexivity|]); try exact Hacc.
      intros name'. rewrite dict_get_set.
      destruct (String.eqb_spec name' name) as [->|]; [|apply Hacc].
      intros _. rewrite Hd. eauto.
    + unfold ret. eauto.
  - eauto.
Qed.

(** C3, as the code has it. When the descriptor file of a collection does
    not parse, loading it raises nothing and yields no descriptor;
    [_ensure_descriptor_exists] leaves the file as it is, because it
    exists; [get_playlists] raises nothing, changes nothing on disk (the
    corrupt file stays, no backup is made) and does not list the
    collection. *)
Theorem corrupt_descriptor_is_skipped name w text :
  dict_get descriptor_filename (nodes w name) = Some (File (Text text)) ->
  _load_descriptor name w = (Ok None, w)
  /\ _ensure_descriptor_exists name w = (Ok tt, w)
  /\ exists listed,
      get_playlists w = (Ok listed, w) /\ dict_get name listed = None.
Proof.
  intros Hnode.
  assert (Hd : descriptor_at w name = None)
    by (unfold descriptor_at; now rewrite Hnode).
  split; [now rewrite load_descriptor_eq, Hd|]. split.
  - unfold _ensure_descriptor_exists, bind, path_exists, gets.
    rewrite Hnode. reflexivity.
  - destruct (get_playlists_lists_loaded w) as (listed & Hrun & Hlisted).
    exists listed. split; [exact Hrun|].
    apply eq_None_not_Some. intros Hsome%Hlisted.
    rewrite Hd in Hsome. destruct Hsome. discriminate.
Qed.

Lemma corrupt_descriptor_is_skipped_witness :
  dict_get descriptor_filename (nodes Samples.corrupt_world "Rock")
    = Some (File (Text "{ not json"))
  /\ _load_descriptor "Rock" Samples.corrupt_world = (Ok None, Samples.corrupt_world)
  /\ _ensure_descriptor_exists "Rock" Samples.corrupt_world
     = (Ok tt, Samples.corrupt_world)
  /\ exists listed,
      get_playlists Samples.corrupt_world = (Ok listed, Samples.corrupt_world)
      /\ dict_get "Rock" listed = None.
Proof.
  split; [reflexivity|].
  apply (corrupt_descriptor_is_skipped "Rock" Samples.corrupt_world "{ not json").
  reflexivity.
Defined.

(** C3, as the specification words it, fails: nothing is backed up and the
    collection is not listed. *)
Lemma corrupt_descriptor_not_recovered :
  ~ corrupt_descriptor_recovered "Rock" Samples.corrupt_world.
Proof.
  intros (listed & w' & Hrun & Hbackup & Hlisted).
  vm_compute in Hrun. injection Hrun as <- <-.
  destruct Hlisted as [d Hd]. discriminate Hd.
Qed.

(** Nor does a freshly constructed manager regenerate the descriptor. *)
Example corrupt_descriptor_after_init :
  initialize_descriptors Samples.corrupt_world = (Ok tt, Samples.corrupt_world)
  /\ get_playlists Samples.corrupt_world = (Ok [], Samples.corrupt_world).
Proof. split; reflexivity. Qed.
End CorruptDescriptor.

(** *** Export *)


Module Exporting.
Import Catalog CatalogFacts WorldFacts.





(** [get_track_display_name] raises nothing, writes nothing, and reads the
    descriptor only. *)
Lemma get_track_display_name_reads name t w :
  exists n,
    forall w', descriptor_at w' name = descriptor_at w name ->
               get_track_display_name name t w' = (Ok n, w').
Proof.
  unfold get_track_display_name.
  destruct (tracks_in (descriptor_at w name)) as [ts|] eqn:Hts.
  - destruct (String.eqb (playlist_of t) name) eqn:Hp.
    + destruct (dict_get (relative t) ts) as [info|] eqn:Hinfo.
      * destruct (ti_display_name info) as [n|] eqn:Hn;
          eexists; intros w' Hw';
          rewrite (bind_ok _ _ _ _ _ (load_descriptor_eq name w')), Hw', Hts;
          unfold try_catch, bind, relative_to; rewrite Hp; unfold ret;
          rewrite Hinfo, Hn; reflexivity.
      * eexists; intros w' Hw';
          rewrite (bind_ok _ _ _ _ _ (load_descriptor_eq name w')), Hw', Hts;
          unfold try_catch, bind, relative_to; rewrite Hp; unfold ret;
          rewrite Hinfo; reflexivity.
    + eexists; intros w' Hw';
        rewrite (bind_ok _ _ _ _ _ (load_descriptor_eq name w')), Hw', Hts;
        unfold try_catch, bind, relative_to; rewrite Hp; reflexivity.
  - eexists; intros w' Hw';
      rewrite (bind_ok _ _ _ _ _ (load_descriptor_eq name w')), Hw', Hts;
      reflexivity.
Qed.

Lemma get_track_display_name_eq name t w w' :
  descriptor_at w' name = descriptor_at w name ->
  get_track_display_name name t w' = (Ok (display_name_in w name t), w').
Proof.
  intros Hw'. unfold get_track_display_name, display_name_in.
  rewrite (bind_ok _ _ _ _ _ (load_descriptor_eq name w')), Hw'.
  destruct (descriptor_at w name) as [d|]; [|reflexivity].
  unfold tracks_in. destruct (tracks d) as [ts|] eqn:Hts.
  - assert (truthy d = true) as ->
      by (destruct d as [[?|] [?|] [?|] [?|] ?]; cbn in Hts; now subst).
    unfold try_catch, bind, relative_to.
    destruct (String.eqb (playlist_of t) name); [|reflexivity].
    unfold ret. destruct (dict_get (relative t) ts) as [info|]; [|reflexivity].
    now destruct (ti_display_name info).
  - now destruct (truthy d).
Qed.






(** The other failures: an unknown format, a collection without tracks. *)
Example export_unknown_format :
  export_playlist "Rock" "xspf" Samples.rock_world = (Ok None, Samples.rock_world).
Proof. reflexivity. Qed.
Example export_missing_collection :
  export_playlist "Jazz" "m3u" Samples.rock_world = (Ok None, Samples.rock_world).
Proof. reflexivity. Qed.
End Exporting.

(** ** The playback engine *)

Module EngineFacts.
Import Engine.

(** Runs a call symbolically by cases on the flags and on the answers of
    the backend. *)
Ltac run_cases :=
  unfold load_track, set_position, position_tracker;
  unfold play, pause, stop, set_volume, set_speed;
  unfold except_pygame, try_catch, _handle_error, mixer,
    bind, ret, raise, gets, modify;
  cbn;
  repeat (case_match; cbn in *; simplify_eq; cbn).

Lemma reported_fields msg s :
  current_track (reported msg s) = current_track s
  /\ is_loaded_flag (reported msg s) = is_loaded_flag s
  /\ is_playing (reported msg s) = is_playing s
  /\ is_paused (reported msg s) = is_paused s
  /\ position (reported msg s) = position s
  /\ duration (reported msg s) = duration s
  /\ volume (reported msg s) = volume s
  /\ speed (reported msg s) = speed s.
Proof. unfold reported. destruct (on_error s); repeat split; reflexivity. Qed.

Lemma handle_error_eq msg s : _handle_error msg s = (Ok tt, reported msg s).
Proof. unfold _handle_error, reported, bind, gets, modify. now destruct (on_error s). Qed.

(** C6. [load_track] returns [False] and reports "File not found" when the
    file does not exist, and returns [False] and reports "Unsupported
    format" when the lower-cased extension of an existing file is not a
    supported one; either way the state is left as it was, the reported
    error apart. In particular for an extension [.txt], in any letter
    case: position, duration, current track and the flags are unchanged,
    so an idle engine stays idle. *)
Theorem load_track_rejects b track_path s :
  (path_exists b track_path = false ->
   load_track b track_path s
   = (Ok false, reported ("File not found: " +:+ track_path) s))
  /\ (path_exists b track_path = true ->
      Pathlib.lower (Pathlib.suffix track_path) ∉ supported_formats ->
      load_track b track_path s
      = (Ok false,
         reported ("Unsupported format: " +:+ Pathlib.suffix track_path) s))
  /\ (path_exists b track_path = true ->
      Pathlib.lower (Pathlib.suffix track_path) = ".txt" ->
      exists s',
        load_track b track_path s = (Ok false, s')
        /\ s' = reported ("Unsupported format: " +:+ Pathlib.suffix track_path) s
        /\ position s' = position s
        /\ duration s' = duration s
        /\ current_track s' = current_track s
        /\ is_loaded_flag s' = is_loaded_flag s
        /\ is_playing s' = is_playing s
        /\ is_paused s' = is_paused s
        /\ (idle s -> idle s')).
Proof.
  assert (Hunsupported :
    path_exists b track_path = true ->
    Pathlib.lower (Pathlib.suffix track_path) ∉ supported_formats ->
    load_track b track_path s
    = (Ok false,
       reported ("Unsupported format: " +:+ Pathlib.suffix track_path) s)).
  { intros Hex Hext. unfold load_track, try_catch. rewrite Hex. cbn [negb].
    rewrite bool_decide_eq_false_2 by assumption. cbn [negb].
    now rewrite (bind_ok _ _ _ _ _ (handle_error_eq _ s)). }
  split; [|split; [exact Hunsupported|]].
  - intros Hex. unfold load_track, try_catch. rewrite Hex. cbn [negb].
    now rewrite (bind_ok _ _ _ _ _ (handle_error_eq _ s)).
  - intros Hex Hext. eexists. split; [apply Hunsupported; [assumption|]|].
    + rewrite Hext. compute_done.
    + destruct (reported_fields
                  ("Unsupported format: " +:+ Pathlib.suffix track_path) s)
        as (? & Hl & Hp & Hpa & ? & ? & _).
      repeat (split; [first [reflexivity | assumption]|]).
      unfold idle. now rewrite Hl, Hp, Hpa.
Qed.

Lemma load_track_rejects_witness :
  path_exists Samples.quiet_backend "missing.mp3" = false
  /\ path_exists Samples.quiet_backend "notes.TXT" = true
  /\ Pathlib.lower (Pathlib.suffix "notes.TXT") = ".txt"
  /\ load_track Samples.quiet_backend "missing.mp3" Samples.fresh_engine
     = (Ok false,
        reported ("File not found: " +:+ "missing.mp3") Samples.fresh_engine)
  /\ exists s',
      load_track Samples.quiet_backend "notes.TXT" Samples.fresh_engine
      = (Ok false, s')
      /\ s' = reported ("Unsupported format: " +:+ Pathlib.suffix "notes.TXT")
                Samples.fresh_engine
      /\ position s' = position Samples.fresh_engine
      /\ duration s' = duration Samples.fresh_engine
      /\ current_track s' = current_track Samples.fresh_engine
      /\ is_loaded_flag s' = is_loaded_flag Samples.fresh_engine
      /\ is_playing s' = is_playing Samples.fresh_engine
      /\ is_paused s' = is_paused Samples.fresh_engine
      /\ (idle Samples.fresh_engine -> idle s').
Proof.
  split; [reflexivity|]. split; [reflexivity|]. split; [reflexivity|].
  split.
  - apply (proj1 (load_track_rejects Samples.quiet_backend "missing.mp3"
                    Samples.fresh_engine)).
    reflexivity.
  - apply (proj2 (proj2 (load_track_rejects Samples.quiet_backend "notes.TXT"
                           Samples.fresh_engine)));
      reflexivity.
Defined.

Example load_txt_on_fresh_engine :
  load_track Samples.quiet_backend "notes.txt" Samples.fresh_engine
  = (Ok false, emit (OnError "Unsupported format: .txt") Samples.fresh_engine).
Proof. reflexivity. Qed.

Lemma stop_eq b s :
  stop b s
  = match music_stop b with
    | None => (Ok true,
               set_position_field 0 (set_is_paused false (set_is_playing false s)))
    | Some msg => (Ok false, reported ("Failed to stop: " +:+ msg) s)
    end.
Proof.
  unfold stop, except_pygame, try_catch, mixer.
  destruct (music_stop b) as [msg|]; [|reflexivity].
  cbn. unfold reported, bind, _handle_error, gets, modify, ret.
  cbn. now destruct (on_error s).
Qed.

(** What a successful [load_track] has done. *)
Lemma load_track_ok b track_path s s' :
  load_track b track_path s = (Ok true, s') ->
  path_exists b track_path = true
  /\ Pathlib.lower (Pathlib.suffix track_path) ∈ supported_formats
  /\ music_load b track_path = None
  /\ s' = set_duration (_get_track_duration b track_path)
            (set_position_field 0
               (set_is_loaded_flag true
                  (set_current_track (Some track_path) (stop b s).2))).
Proof.
  unfold load_track, try_catch.
  destruct (path_exists b track_path); cbn [negb].
  - destruct (decide (Pathlib.lower (Pathlib.suffix track_path)
                        ∈ supported_formats)) as [Hext|Hext].
    + rewrite bool_decide_eq_true_2 by assumption. cbn [negb].
      unfold bind at 1. destruct (stop b s) as [[r|e] s1] eqn:Hstop.
      * unfold mixer. destruct (music_load b track_path) as [msg|].
        -- cbn. rewrite (bind_ok _ _ _ _ _ (handle_error_eq _ s1)). discriminate.
        -- cbn. intros [= <-]. auto.
      * rewrite stop_eq in Hstop. destruct (music_stop b); discriminate.
    + rewrite bool_decide_eq_false_2 by assumption. cbn [negb].
      rewrite (bind_ok _ _ _ _ _ (handle_error_eq _ s)). discriminate.
  - rewrite (bind_ok _ _ _ _ _ (handle_error_eq _ s)). discriminate.
Qed.

(** C10. A successful [load_track] leaves volume and speed as they were:
    it sets the position to 0, the current track, the loaded flag and a
    new duration, and its internal [stop], unless the backend refuses it,
    clears the playing and paused flags. *)
Theorem load_track_keeps_volume_and_speed b track_path s s' :
  load_track b track_path s = (Ok true, s') ->
  volume s' = volume s
  /\ speed s' = speed s
  /\ position s' = 0%Q
  /\ current_track s' = Some track_path
  /\ is_loaded_flag s' = true
  /\ duration s' = _get_track_duration b track_path
  /\ (music_stop b = None -> is_playing s' = false /\ is_paused s' = false).
Proof.
  intros (_ & _ & _ & ->)%load_track_ok. rewrite stop_eq.
  destruct (music_stop b) as [msg|]; cbn.
  - destruct (reported_fields ("Failed to stop: " +:+ msg) s)
      as (_ & _ & _ & _ & _ & _ & Hv & Hs).
    repeat split; try assumption. all: discriminate.
  - repeat split.
Qed.

Lemma load_track_keeps_volume_and_speed_witness :
  exists s',
    load_track Samples.quiet_backend "a.mp3"
      (set_volume_field (1 # 2) (set_speed_field (3 # 2) Samples.fresh_engine))
    = (Ok true, s')
    /\ volume s' = (1 # 2)%Q
    /\ speed s' = (3 # 2)%Q
    /\ position s' = 0%Q
    /\ current_track s' = Some "a.mp3"
    /\ is_loaded_flag s' = true
    /\ duration s' = _get_track_duration Samples.quiet_backend "a.mp3"
    /\ (music_stop Samples.quiet_backend = None ->
        is_playing s' = false /\ is_paused s' = false).
Proof.
  eexists. split; [reflexivity|].
  apply (load_track_keeps_volume_and_speed Samples.quiet_backend "a.mp3"
           (set_volume_field (1 # 2)
              (set_speed_field (3 # 2) Samples.fresh_engine))).
  reflexivity.
Defined.

(** *** The position invariant *)

Lemma in_bounds_same s s' :
  position s' = position s -> duration s' = duration s ->
  in_bounds s -> in_bounds s'.
Proof. unfold in_bounds. now intros -> ->. Qed.

Lemma in_bounds_at_zero s s' :
  position s' = 0%Q -> duration s' = duration s ->
  in_bounds s -> in_bounds s'.
Proof.
  unfold in_bounds. intros -> -> [H0 H1]. split; [apply Qle_refl|].
  now apply Qle_trans with (position s).
Qed.

Lemma duration_not_negative b track_path :
  lengths_not_negative b -> (0 <= _get_track_duration b track_path)%Q.
Proof.
  intros Hb. unfold _get_track_duration.
  destruct (mutagen_length b track_path) as [len|] eqn:Hlen; [now apply (Hb track_path)|].
  destruct (stat_size b track_path) as [size|]; [|discriminate].
  apply Q.min_glb; [|discriminate].
  apply Qmult_le_0_compat; [|discriminate].
  unfold Qle. simpl. lia.
Qed.

(** The calls that leave position and duration alone. *)
Lemma play_keeps_position b s :
  exists r s', play b s = (Ok r, s')
               /\ position s' = position s /\ duration s' = duration s.
Proof. run_cases; eauto. Qed.

Lemma pause_keeps_position b s :
  exists r s', pause b s = (Ok r, s')
               /\ position s' = position s /\ duration s' = duration s.
Proof. run_cases; eauto. Qed.

Lemma set_volume_keeps_position b v s :
  exists s', set_volume b v s = (Ok tt, s')
             /\ position s' = position s /\ duration s' = duration s.
Proof. run_cases; eauto. Qed.

Lemma stop_in_bounds b s :
  in_bounds s -> exists r s', stop b s = (Ok r, s') /\ in_bounds s'.
Proof.
  intros Hs. rewrite stop_eq. destruct (music_stop b) as [msg|].
  - eexists _, _. split; [reflexivity|].
    destruct (reported_fields ("Failed to stop: " +:+ msg) s)
      as (_ & _ & _ & _ & Hp & Hd & _).
    now apply (in_bounds_same s).
  - eexists _, _. split; [reflexivity|]. now apply (in_bounds_at_zero s).
Qed.

Lemma clamp_in_bounds d p :
  (0 <= d)%Q -> (0 <= Qmax 0 (Qmin d p))%Q /\ (Qmax 0 (Qmin d p) <= d)%Q.
Proof.
  intros Hd. split; [apply Q.le_max_l|].
  apply Q.max_lub; [assumption | apply Q.le_min_l].
Qed.

Lemma set_position_in_bounds b p s :
  in_bounds s -> exists r s', set_position b p s = (Ok r, s') /\ in_bounds s'.
Proof.
  intros Hs. unfold set_position, try_catch.
  unfold bind at 1. unfold gets at 1.
  destruct (is_loaded_flag s); cbn [negb]; [|unfold ret; eauto].
  destruct (Qeq_bool p 0).
  - unfold bind at 1. unfold gets at 1.
    destruct (stop_in_bounds b s Hs) as (r1 & s1 & Hstop & Hs1).
    rewrite (bind_ok _ _ _ _ _ Hstop).
    destruct (is_playing s).
    + destruct (play_keeps_position b s1) as (r2 & s2 & Hplay & Hp & Hd).
      rewrite (bind_ok _ _ _ _ _ (bind_ok _ _ _ _ _ Hplay)).
      eexists _, _. split; [reflexivity|]. now apply (in_bounds_same s1).
    + eexists _, _. split; [reflexivity|]. exact Hs1.
  - eexists _, _. split; [reflexivity|]. unfold in_bounds. cbn.
    apply clamp_in_bounds. destruct Hs as [H0 H1].
    now apply Qle_trans with (position s).
Qed.

Lemma position_tracker_in_bounds b s :
  in_bounds s -> exists s', position_tracker b s = (Ok tt, s') /\ in_bounds s'.
Proof.
  intros [H0 H1].
  assert (Hd : (0 <= duration s)%Q) by now apply Qle_trans with (position s).
  unfold in_bounds. run_cases; eexists; (split; [reflexivity|]); cbn;
    try (split; assumption); try (split; [assumption | apply Qle_refl]).
  all: match goal with
       | H : Qle_bool _ _ = false |- _ =>
           assert (~ (duration s <= position s + 1)%Q)
             by (rewrite <- Qle_bool_iff; congruence)
       end; split; lra.
Qed.

Lemma load_track_in_bounds b track_path s :
  lengths_not_negative b -> in_bounds s ->
  exists r s', load_track b track_path s = (Ok r, s') /\ in_bounds s'.
Proof.
  intros Hb Hs.
  destruct (load_track b track_path s) as [[[|]|e] s'] eqn:Hload.
  - eexists _, _. split; [reflexivity|].
    apply load_track_ok in Hload as (_ & _ & _ & ->).
    unfold in_bounds. cbn. split; [apply Qle_refl|].
    now apply duration_not_negative.
  - eexists _, _. split; [reflexivity|]. revert Hload.
    unfold load_track, try_catch.
    destruct (path_exists b track_path); cbn [negb].
    + destruct (bool_decide _); cbn [negb].
      * unfold bind at 1.
        destruct (stop_in_bounds b s Hs) as (r1 & s1 & -> & Hs1).
        unfold mixer. destruct (music_load b track_path) as [msg|].
        -- cbn. rewrite (bind_ok _ _ _ _ _ (handle_error_eq _ s1)).
           intros [= <-].
           destruct (reported_fields ("Failed to load track: " +:+ msg) s1)
             as (_ & _ & _ & _ & Hp & Hd & _).
           now apply (in_bounds_same s1).
        -- cbn. discriminate.
      * rewrite (bind_ok _ _ _ _ _ (handle_error_eq _ s)). intros [= <-].
        destruct (reported_fields
                    ("Unsupported format: " +:+ Pathlib.suffix track_path) s)
          as (_ & _ & _ & _ & Hp & Hd & _).
        now apply (in_bounds_same s).
    + rewrite (bind_ok _ _ _ _ _ (handle_error_eq _ s)). intros [= <-].
      destruct (reported_fields ("File not found: " +:+ track_path) s)
        as (_ & _ & _ & _ & Hp & Hd & _).
      now apply (in_bounds_same s).
  - exfalso. revert Hload. unfold load_track, try_catch.
    destruct (path_exists b track_path); cbn [negb].
    + destruct (bool_decide _); cbn [negb].
      * unfold bind at 1.
        destruct (stop_in_bounds b s Hs) as (r1 & s1 & -> & Hs1).
        unfold mixer. destruct (music_load b track_path) as [msg|].
        -- cbn. rewrite (bind_ok _ _ _ _ _ (handle_error_eq _ s1)). discriminate.
        -- cbn. discriminate.
      * rewrite (bind_ok _ _ _ _ _ (handle_error_eq _ s)). discriminate.
    + rewrite (bind_ok _ _ _ _ _ (handle_error_eq _ s)). discriminate.
Qed.

(** Every call keeps the invariant and raises nothing. *)
Lemma run_call_in_bounds b c s :
  lengths_not_negative b -> in_bounds s ->
  exists r s', run_call b c s = (Ok r, s') /\ in_bounds s'.
Proof.
  intros Hb Hs. destruct c as [p| | | |v|v|p|]; unfold run_call.
  - destruct (load_track_in_bounds b p s Hb Hs) as (r & s' & H & Hs').
    rewrite (bind_ok _ _ _ _ _ H). unfold ret. eauto.
  - destruct (play_keeps_position b s) as (r & s' & H & Hp & Hd).
    rewrite (bind_ok _ _ _ _ _ H). unfold ret.
    eexists _, _. split; [reflexivity|]. now apply (in_bounds_same s).
  - destruct (pause_keeps_position b s) as (r & s' & H & Hp & Hd).
    rewrite (bind_ok _ _ _ _ _ H). unfold ret.
    eexists _, _. split; [reflexivity|]. now apply (in_bounds_same s).
  - destruct (stop_in_bounds b s Hs) as (r & s' & H & Hs').
    rewrite (bind_ok _ _ _ _ _ H). unfold ret. eauto.
  - destruct (set_volume_keeps_position b v s) as (s' & H & Hp & Hd).
    rewrite (bind_ok _ _ _ _ _ H). unfold ret.
    eexists _, _. split; [reflexivity|]. now apply (in_bounds_same s).
  - unfold set_speed, bind, modify, ret. eexists _, _.
    split; [reflexivity|]. exact Hs.
  - destruct (set_position_in_bounds b p s Hs) as (r & s' & H & Hs').
    rewrite (bind_ok _ _ _ _ _ H). unfold ret. eauto.
  - destruct (position_tracker_in_bounds b s Hs) as (s' & H & Hs').
    rewrite (bind_ok _ _ _ _ _ H). unfold ret. eauto.
Qed.

(** C8. After a successful [load_track], whatever calls ([play], [pause],
    [stop], [set_position] to 0 or elsewhere, further loads, volume and
    speed changes) and tracker rounds follow, none raises and the position
    stays between 0 and the duration, provided the metadata reader never
    reports a negative length. *)
Theorem position_stays_in_bounds b track_path s s1 history :
  lengths_not_negative b ->
  load_track b track_path s = (Ok true, s1) ->
  Forall (fun bc => lengths_not_negative bc.1) history ->
  exists s2,
    run history s1 = (Ok tt, s2)
    /\ (0 <= position s2)%Q /\ (position s2 <= duration s2)%Q.
Proof.
  intros Hb Hload Hhistory.
  assert (Hs1 : in_bounds s1).
  { apply load_track_ok in Hload as (_ & _ & _ & ->).
    unfold in_bounds. cbn. split; [apply Qle_refl|].
    now apply duration_not_negative. }
  clear Hload. revert s1 Hs1. unfold run.
  induction Hhistory as [|[b' c] history Hb' _ IH]; intros s1 Hs1.
  - exists s1. split; [reflexivity | exact Hs1].
  - cbn [for_each].
    destruct (run_call_in_bounds b' c s1 Hb' Hs1) as (r & s2 & Hrun & Hs2).
    rewrite (bind_ok _ _ _ _ _ (bind_ok _ _ _ _ _ Hrun)). now apply IH.
Qed.

Lemma quiet_backend_lengths : lengths_not_negative Samples.quiet_backend.
Proof. intros p len [= <-]. discriminate. Qed.

Lemma position_stays_in_bounds_witness :
  lengths_not_negative Samples.quiet_backend
  /\ load_track Samples.quiet_backend "a.mp3" Samples.fresh_engine
     = (Ok true, (load_track Samples.quiet_backend "a.mp3" Samples.fresh_engine).2)
  /\ exists s2,
      run [(Samples.quiet_backend, Play); (Samples.quiet_backend, Tick);
           (Samples.quiet_backend, SetPosition 0);
           (Samples.quiet_backend, Tick); (Samples.quiet_backend, Pause);
           (Samples.quiet_backend, SetPosition 250);
           (Samples.quiet_backend, Stop); (Samples.quiet_backend, Tick)]
        (load_track Samples.quiet_backend "a.mp3" Samples.fresh_engine).2
      = (Ok tt, s2)
      /\ (0 <= position s2)%Q /\ (position s2 <= duration s2)%Q.
Proof.
  split; [exact quiet_backend_lengths|]. split; [reflexivity|].
  apply (position_stays_in_bounds Samples.quiet_backend "a.mp3"
           Samples.fresh_engine).
  - exact quiet_backend_lengths.
  - reflexivity.
  - repeat constructor; exact quiet_backend_lengths.
Defined.

(** *** Failures and the error callback *)















Example play_on_fresh_engine :
  play Samples.quiet_backend Samples.fresh_engine
  = (Ok false, Samples.fresh_engine).
Proof. reflexivity. Qed.
End EngineFacts.

(** ** Paths *)

Module PathlibFacts.
Example lower_mixed_case : Pathlib.lower "SONG.Mp3" = "song.mp3".
Proof. reflexivity. Qed.

Example suffix_of_nested_path : Pathlib.suffix "sub/dir/song.tar.MP3" = ".MP3".
Proof. reflexivity. Qed.

Example suffix_of_dot_files :
  Pathlib.suffix ".hidden" = "" /\ Pathlib.suffix "a." = "".
Proof. split; reflexivity. Qed.

Example stem_of_paths :
  Pathlib.stem "sub/song.mp3" = "song" /\ Pathlib.stem ".hidden" = ".hidden".
Proof. split; reflexivity. Qed.

Example sort_by_is_stable :
  sort_by fst Nat.ltb [(2, "a"); (1, "b"); (2, "c"); (1, "d")]
  = [(1, "b"); (1, "d"); (2, "a"); (2, "c")].
Proof. reflexivity. Qed.
End PathlibFacts.

(** ** Scanning a folder *)

Lemma string_compare_refl s : String.compare s s = Eq.
Proof.
  induction s as [|a s IH]; [reflexivity|]. simpl.
  unfold Ascii.compare. now rewrite N.compare_refl.
Qed.

Lemma string_ltb_irrefl s : String.ltb s s = false.
Proof. unfold String.ltb. now rewrite string_compare_refl. Qed.

Lemma string_ltb_asym s t : String.ltb s t = true -> String.ltb t s = false.
Proof.
  unfold String.ltb. rewrite (String.compare_antisym t s).
  now destruct (String.compare s t).
Qed.

Lemma string_compare_not_Gt_trans s t u :
  String.compare s t <> Gt -> String.compare t u <> Gt ->
  String.compare s u <> Gt.
Proof.
  revert t u. induction s as [|a s IH]; intros [|b t] [|c u]; simpl;
    try congruence.
  unfold Ascii.compare.
  destruct (N.compare_spec (Ascii.N_of_ascii a) (Ascii.N_of_ascii b)) as [Hab|Hab|Hab];
    destruct (N.compare_spec (Ascii.N_of_ascii b) (Ascii.N_of_ascii c)) as [Hbc|Hbc|Hbc];
    try congruence; intros H1 H2.
  - rewrite Hab, Hbc, N.compare_refl. now apply IH with t.
  - replace (Ascii.N_of_ascii a ?= Ascii.N_of_ascii c)%N with Lt; [congruence|].
    symmetry. apply N.compare_lt_iff. lia.
  - replace (Ascii.N_of_ascii a ?= Ascii.N_of_ascii c)%N with Lt; [congruence|].
    symmetry. apply N.compare_lt_iff. lia.
  - replace (Ascii.N_of_ascii a ?= Ascii.N_of_ascii c)%N with Lt; [congruence|].
    symmetry. apply N.compare_lt_iff. lia.
Qed.

Lemma string_ltb_false s t : String.ltb t s = false <-> String.compare s t <> Gt.
Proof.
  unfold String.ltb. rewrite (String.compare_antisym s t).
  destruct (String.compare t s); simpl; split; congruence.
Qed.

Lemma string_ltb_le_trans k1 k2 k3 :
  String.ltb k2 k1 = false -> String.ltb k3 k2 = false ->
  String.ltb k3 k1 = false.
Proof.
  rewrite !string_ltb_false. apply string_compare_not_Gt_trans.
Qed.

Module Scanning.
Import Catalog CatalogFacts.

Lemma audio_listing_eq name w :
  _get_audio_files name w
  = (Ok (sort_by (fun x => Pathlib.lower (Pathlib.name (relative x)))
           String.ltb (audio_listing w name)), w).
Proof. reflexivity. Qed.

Lemma isascii_rsplit sep s before after :
  Pathlib.rsplit sep s = Some (before, after) ->
  Pathlib.isascii s = true -> Pathlib.isascii after = true.
Proof.
  revert before after. induction s as [|c r IH]; intros before after;
    [discriminate|].
  cbn. intros Hsplit [_ Hr]%andb_true_iff.
  destruct (Pathlib.rsplit sep r) as [[before' after']|].
  - injection Hsplit as _ <-. now apply IH with before'.
  - destruct (Ascii.eqb c sep); [|discriminate]. now injection Hsplit as _ <-.
Qed.

Lemma isascii_name p :
  Pathlib.isascii p = true -> Pathlib.isascii (Pathlib.name p) = true.
Proof.
  unfold Pathlib.name. intros Hp.
  destruct (Pathlib.rsplit "/" p) as [[before after]|] eqn:Hsplit;
    [now apply isascii_rsplit with "/"%char p before | exact Hp].
Qed.

(** X1. [_get_audio_files] raises nothing and changes nothing. Its result
    holds exactly the regular files of the folder, at any depth, whose
    lower-cased suffix is an audio extension, as often as the folder lists
    them. When the paths in the folder are ASCII, it is sorted by
    lower-cased file name, and files with the same lower-cased name keep
    their listing order. *)
Theorem get_audio_files_sorted_by_name name w :
  Forall (fun kv => Pathlib.isascii kv.1 = true) (nodes w name) ->
  exists A,
    _get_audio_files name w = (Ok A, w)
    /\ A ≡ₚ audio_listing w name
    /\ (forall p, p ∈ A
                  <-> playlist_of p = name /\ audio_on_disk w name (relative p))
    /\ Forall (fun p => Pathlib.isascii (Pathlib.name (relative p)) = true) A
    /\ StronglySorted
         (fun a b =>
            String.ltb (Pathlib.lower (Pathlib.name (relative b)))
                       (Pathlib.lower (Pathlib.name (relative a))) = false) A
    /\ (forall k,
          filter (fun p => Pathlib.lower (Pathlib.name (relative p)) = k) A
          = filter (fun p => Pathlib.lower (Pathlib.name (relative p)) = k)
              (audio_listing w name)).
Proof.
  intros Hascii.
  destruct (get_audio_files_ok name w) as (A & HA & Hchar).
  exists A. split; [exact HA|].
  rewrite audio_listing_eq in HA. injection HA as <-.
  split; [apply sort_by_perm|]. split; [exact Hchar|]. split; [|split].
  - apply Forall_forall. intros p [_ [[c Hin] _]]%Hchar.
    rewrite Forall_forall in Hascii.
    apply isascii_name. exact (Hascii _ Hin).
  - apply sort_by_sorted.
    + apply string_ltb_asym.
    + apply string_ltb_le_trans.
  - intros k. apply sort_by_stable. apply string_ltb_irrefl.
Qed.

Lemma get_audio_files_sorted_by_name_witness :
  Forall (fun kv => Pathlib.isascii kv.1 = true)
    (nodes Samples.unlisted_world "Rock")
  /\ _get_audio_files "Rock" Samples.unlisted_world
     = (Ok [TrackPath "Rock" "a.MP3"; TrackPath "Rock" "b.mp3";
            TrackPath "Rock" "live/C.ogg"], Samples.unlisted_world)
  /\ exists A,
      _get_audio_files "Rock" Samples.unlisted_world
      = (Ok A, Samples.unlisted_world)
      /\ A ≡ₚ audio_listing Samples.unlisted_world "Rock"
      /\ (forall p, p ∈ A
                    <-> playlist_of p = "Rock"
                        /\ audio_on_disk Samples.unlisted_world "Rock"
                             (relative p))
      /\ Forall (fun p => Pathlib.isascii (Pathlib.name (relative p)) = true) A
      /\ StronglySorted
           (fun a b =>
              String.ltb (Pathlib.lower (Pathlib.name (relative b)))
                         (Pathlib.lower (Pathlib.name (relative a))) = false) A
      /\ (forall k,
            filter (fun p => Pathlib.lower (Pathlib.name (relative p)) = k) A
            = filter (fun p => Pathlib.lower (Pathlib.name (relative p)) = k)
                (audio_listing Samples.unlisted_world "Rock")).
Proof.
  assert (Hascii : Forall (fun kv => Pathlib.isascii kv.1 = true)
                     (nodes Samples.unlisted_world "Rock"))
    by (cbn; repeat constructor).
  split; [exact Hascii|]. split; [reflexivity|].
  exact (get_audio_files_sorted_by_name "Rock" Samples.unlisted_world Hascii).
Defined.

End Scanning.

(** ** Generated descriptors *)

Lemma sort_by_sorted_id {A K} (key : A -> K) (ltb : K -> K -> bool) l :
  StronglySorted (key_le key ltb) l -> sort_by key ltb l = l.
Proof.
  induction 1 as [|x l Hs IH Hx]; [reflexivity|].
  simpl. rewrite IH. destruct l as [|y l']; [reflexivity|].
  simpl. apply Forall_cons in Hx as [Hxy _]. unfold key_le in Hxy.
  now rewrite Hxy.
Qed.

Module Initialising.
Import Catalog CatalogFacts WorldFacts Refreshing Reconciling.

(** The loop of [_ensure_descriptor_exists] numbers the files from 1. *)
Lemma initial_loop (A : list track_path) n acc w :
  NoDup (relative <$> A) ->
  (forall rel, rel ∈ relative <$> A -> rel ∉ keys acc) ->
  for_each (enumerate (Z.of_nat n + 1) A)
    (fun ts '(i, audio_file) =>
       let* added := _get_timestamp in
       ret (dict_set (relative audio_file)
              {| ti_display_name := Some (Pathlib.stem (relative audio_file));
                 ti_order := Some i; ti_added := Some added;
                 ti_modified := None |} ts))
    acc w
  = (Ok (acc ++ new_entries (clock w) n (ticks w) (relative <$> A)),
     elapsed (length A) w).
Proof.
  revert n acc w. induction A as [|x A IH]; intros n acc w Hnd Hnew.
  - cbn. unfold ret. now rewrite app_nil_r, elapsed_0.
  - rewrite fmap_cons in Hnd, Hnew. apply NoDup_cons in Hnd as [Hx Hnd].
    cbn [enumerate for_each]. unfold bind at 1. unfold bind at 1.
    unfold _get_timestamp at 1. unfold ret at 1.
    rewrite dict_set_absent
      by (apply dict_get_None, Hnew; left).
    replace (Z.of_nat n + 1 + 1)%Z with (Z.of_nat (S n) + 1)%Z by lia.
    rewrite IH; [|assumption|].
    + rewrite <- app_assoc, elapsed_tick. reflexivity.
    + intros rel Hrel. unfold keys. rewrite fmap_app.
      apply not_elem_of_app. split; [apply Hnew; now right|].
      cbn. intros ->%list_elem_of_singleton. contradiction.
Qed.

(** The entries generated for a scan, as [get_playlist_tracks] reads them:
    already in ascending order. *)
Lemma new_entries_sorted name clock n t rels :
  StronglySorted (key_le fst Z.ltb)
    ((fun kv => (order_of kv.2, TrackPath name kv.1))
       <$> new_entries clock n t rels)
  /\ Forall (fun e => (Z.of_nat n + 1 <= e.1)%Z)
       ((fun kv => (order_of kv.2, TrackPath name kv.1))
          <$> new_entries clock n t rels).
Proof.
  revert n t. induction rels as [|rel rels IH]; intros n t.
  - split; constructor.
  - destruct (IH (S n) (S t)) as [Hs Hall]. cbn. split.
    + constructor; [exact Hs|].
      eapply Forall_impl; [exact Hall|].
      intros e He. unfold key_le. cbn in *. apply Z.ltb_ge. lia.
    + constructor; [cbn; lia|].
      eapply Forall_impl; [exact Hall|]. intros e He. cbn in *. lia.
Qed.

Lemma new_entries_paths name clock n t rels :
  ((fun kv => (order_of kv.2, TrackPath name kv.1))
     <$> new_entries clock n t rels).*2
  = TrackPath name <$> rels.
Proof.
  revert n t. induction rels as [|rel rels IH]; intros n t; [reflexivity|].
  cbn. f_equal. apply IH.
Qed.

Lemma paths_of_relative name (A : list track_path) :
  (forall p, p ∈ A -> playlist_of p = name) ->
  TrackPath name <$> (relative <$> A) = A.
Proof.
  induction A as [|[pl rel] A IH]; intros HA; [reflexivity|].
  cbn. rewrite IH by (intros p Hp; apply HA; now right).
  f_equal. f_equal. symmetry. apply (HA (TrackPath pl rel)). left.
Qed.

(** X2. In a writable folder that holds no descriptor (and lists no path
    twice), [_ensure_descriptor_exists] writes a descriptor named after the
    folder whose tracks are the audio files found by the scan, in scan
    order, numbered from 1, each displayed by its file stem; no other file
    changes. [get_playlist_tracks] then returns the very list of the scan:
    generating the descriptor does not change the listing. *)
Theorem ensure_descriptor_then_listing name w :
  NoDup (keys (nodes w name)) ->
  dict_get descriptor_filename (nodes w name) = None ->
  can_write w name descriptor_filename ->
  exists A w1 d ts,
    _get_audio_files name w = (Ok A, w)
    /\ _ensure_descriptor_exists name w = (Ok tt, w1)
    /\ descriptor_at w1 name = Some d
    /\ display_name d = Some name
    /\ description d = Some ("Auto-generated playlist for " +:+ name)
    /\ created d = Some (clock w (ticks w))
    /\ modified d = None
    /\ tracks d = Some ts
    /\ keys ts = relative <$> A
    /\ (forall i p,
          A !! i = Some p ->
          dict_get (relative p) ts
          = Some {| ti_display_name := Some (Pathlib.stem (relative p));
                    ti_order := Some (Z.of_nat i + 1)%Z;
                    ti_added := Some (clock w (S (ticks w) + i));
                    ti_modified := None |})
    /\ (forall rel, rel <> descriptor_filename ->
                    dict_get rel (nodes w1 name) = dict_get rel (nodes w name))
    /\ get_playlist_tracks name w1 = (Ok A, w1).
Proof.
  intros Hnd Hnone Hcw.
  destruct (get_audio_files_ok name w) as (A & HA & Hchar).
  assert (HinA : forall p, p ∈ A -> playlist_of p = name)
    by (intros p Hp; now apply Hchar).
  assert (HndA : NoDup (relative <$> A))
    by now apply (get_audio_files_NoDup name w).
  set (ts := new_entries (clock w) 0 (S (ticks w)) (relative <$> A)).
  set (d := {| display_name := Some name;
               description := Some ("Auto-generated playlist for " +:+ name);
               created := Some (clock w (ticks w)); modified := None;
               tracks := Some ts |}).
  set (w1 := with_node name descriptor_filename (File (Json d))
               (elapsed (S (length A)) w)).
  destruct Hcw as (f & Hf & Hwr & Hnotdir).
  assert (Hcw' : can_write (elapsed (S (length A)) w) name descriptor_filename)
    by (exists f; auto).
  assert (Hrun : _ensure_descriptor_exists name w = (Ok tt, w1)).
  { unfold _ensure_descriptor_exists. unfold bind at 1.
    unfold path_exists at 1, gets at 1. rewrite Hnone.
    rewrite bool_decide_eq_false_2 by (intros [? ?]; discriminate).
    rewrite (bind_ok _ _ _ _ _ HA).
    unfold bind at 1. unfold _get_timestamp at 1.
    rewrite (bind_ok _ _ _ _ _
               (initial_loop A 0 [] (tick w) HndA
                  ltac:(intros; apply not_elem_of_nil))).
    rewrite elapsed_tick. unfold try_catch. cbn [app].
    now rewrite (json_dump_ok name descriptor_filename _ _ Hcw'). }
  assert (Hd : descriptor_at w1 name = Some d)
    by (apply descriptor_at_with_node; exists f; exact Hf).
  assert (Hnodes : nodes w1 name
                   = dict_set descriptor_filename (File (Json d)) (nodes w name)).
  { unfold w1. now rewrite (nodes_with_node _ _ _ _ f). }
  exists A, w1, d, ts.
  split; [exact HA|]. split; [exact Hrun|]. split; [exact Hd|].
  do 5 (split; [reflexivity|]).
  split; [apply keys_new_entries|]. split; [|split].
  - intros i p Hi. unfold ts.
    rewrite (dict_get_new_entries _ _ _ _ i (relative p) HndA)
      by (rewrite list_lookup_fmap, Hi; reflexivity).
    reflexivity.
  - intros rel Hrel. rewrite Hnodes. now apply dict_get_set_ne.
  - rewrite (get_playlist_tracks_of_descriptor name w1 d ts Hd eq_refl).
    do 2 f_equal.
    assert (Hall : existing_entries w1 name ts
                   = (fun kv => (order_of kv.2, TrackPath name kv.1)) <$> ts).
    { unfold existing_entries. f_equal. apply filter_all.
      intros [rel info] Hin. cbn. unfold on_disk. rewrite Hnodes, dict_get_set.
      destruct (String.eqb rel descriptor_filename); [eauto|].
      assert (Hrel : rel ∈ relative <$> A).
      { rewrite <- (keys_new_entries (clock w) 0 (S (ticks w))).
        apply list_elem_of_fmap. now exists (rel, info). }
      apply list_elem_of_fmap in Hrel as (p & -> & Hp).
      apply Hchar in Hp as [_ [[c Hc] _]].
      apply dict_get_is_Some, list_elem_of_fmap. now exists (relative p, File c). }
    rewrite Hall, sort_by_sorted_id by apply new_entries_sorted.
    unfold ts. rewrite new_entries_paths. now apply paths_of_relative.
Qed.

Lemma ensure_descriptor_then_listing_witness :
  NoDup (keys (nodes Samples.unlisted_world "Rock"))
  /\ dict_get descriptor_filename (nodes Samples.unlisted_world "Rock") = None
  /\ can_write Samples.unlisted_world "Rock" descriptor_filename
  /\ exists A w1 d ts,
      _get_audio_files "Rock" Samples.unlisted_world
      = (Ok A, Samples.unlisted_world)
      /\ _ensure_descriptor_exists "Rock" Samples.unlisted_world = (Ok tt, w1)
      /\ descriptor_at w1 "Rock" = Some d
      /\ display_name d = Some "Rock"
      /\ description d = Some ("Auto-generated playlist for " +:+ "Rock")
      /\ created d
         = Some (clock Samples.unlisted_world (ticks Samples.unlisted_world))
      /\ modified d = None
      /\ tracks d = Some ts
      /\ keys ts = relative <$> A
      /\ (forall i p,
            A !! i = Some p ->
            dict_get (relative p) ts
            = Some {| ti_display_name := Some (Pathlib.stem (relative p));
                      ti_order := Some (Z.of_nat i + 1)%Z;
                      ti_added :=
                        Some (clock Samples.unlisted_world
                                (S (ticks Samples.unlisted_world) + i));
                      ti_modified := None |})
      /\ (forall rel, rel <> descriptor_filename ->
                      dict_get rel (nodes w1 "Rock")
                      = dict_get rel (nodes Samples.unlisted_world "Rock"))
      /\ get_playlist_tracks "Rock" w1 = (Ok A, w1).
Proof.
  assert (Hnd : NoDup (keys (nodes Samples.unlisted_world "Rock")))
    by compute_done.
  assert (Hcw : can_write Samples.unlisted_world "Rock" descriptor_filename).
  { eexists. split; [reflexivity|]. split; [reflexivity | discriminate]. }
  split; [exact Hnd|]. split; [reflexivity|]. split; [exact Hcw|].
  exact (ensure_descriptor_then_listing "Rock" Samples.unlisted_world
           Hnd eq_refl Hcw).
Defined.


(** *** What initialisation keeps *)

Lemma keeps_files_refl w : keeps_files w w.
Proof. repeat split; auto. Qed.

Lemma keeps_files_trans w1 w2 w3 :
  keeps_files w1 w2 -> keeps_files w2 w3 -> keeps_files w1 w3.
Proof.
  intros (H1 & H2 & H3) (K1 & K2 & K3). repeat split.
  - intros name rel n Hn. now apply K1, H1.
  - intros name rel Hrel. now rewrite K2, H2.
  - intros name rel Hc. now apply K3, H3.
Qed.

Lemma keeps_files_elapsed k w : keeps_files w (elapsed k w).
Proof. repeat split; auto. Qed.

Lemma keeps_files_new_descriptor name c w :
  dict_get descriptor_filename (nodes w name) = None ->
  keeps_files w (with_node name descriptor_filename (File c) w).
Proof.
  intros Hnone. destruct (folder_of w name) as [f|] eqn:Hf;
    [|unfold with_node; rewrite Hf; apply keeps_files_refl].
  assert (Hnodes : forall name' rel,
             dict_get rel (nodes (with_node name descriptor_filename (File c) w) name')
             = if String.eqb name' name && String.eqb rel descriptor_filename
               then Some (File c) else dict_get rel (nodes w name')).
  { intros name' rel. destruct (String.eqb_spec name' name) as [->|Hne].
    - rewrite (nodes_with_node _ _ _ _ _ Hf), dict_get_set.
      now destruct (String.eqb rel descriptor_filename).
    - now rewrite nodes_with_node_ne. }
  repeat split.
  - intros name' rel n Hn. rewrite Hnodes.
    destruct (String.eqb_spec name' name) as [->|]; [|exact Hn].
    destruct (String.eqb_spec rel descriptor_filename) as [->|]; [|exact Hn].
    congruence.
  - intros name' rel Hrel. rewrite Hnodes.
    destruct (String.eqb_spec rel descriptor_filename); [contradiction|].
    now rewrite andb_false_r.
  - intros name' rel (f' & Hf' & Hwr & Hnd).
    destruct (String.eqb_spec name' name) as [->|Hne].
    + rewrite Hf in Hf'. injection Hf' as <-.
      eexists. split; [apply folder_of_with_node, Hf|]. cbn.
      split; [exact Hwr|]. rewrite dict_get_set.
      destruct (String.eqb rel descriptor_filename); [discriminate | exact Hnd].
    + exists f'. rewrite folder_of_with_node_ne by assumption. auto.
Qed.

(** [_ensure_descriptor_exists] raises nothing, keeps every file and, where
    the descriptor can be written, leaves one. *)
Lemma ensure_descriptor_keeps name w :
  exists w',
    _ensure_descriptor_exists name w = (Ok tt, w')
    /\ keeps_files w w'
    /\ (can_write w name descriptor_filename ->
        on_disk w' name descriptor_filename).
Proof.
  unfold _ensure_descriptor_exists. unfold bind at 1.
  unfold path_exists at 1, gets at 1.
  destruct (dict_get descriptor_filename (nodes w name)) as [n|] eqn:Hn.
  - rewrite bool_decide_eq_true_2 by eauto. unfold ret.
    exists w. split; [reflexivity|]. split; [apply keeps_files_refl|].
    intros _. unfold on_disk. rewrite Hn. eauto.
  - rewrite bool_decide_eq_false_2 by (intros [? ?]; discriminate).
    destruct (get_audio_files_ok name w) as (A & HA & _).
    rewrite (bind_ok _ _ _ _ _ HA).
    unfold bind at 1. unfold _get_timestamp at 1.
    destruct (for_each_invariant
      (fun done (_ : list (string * track_info)) w' =>
         w' = elapsed (length done) (tick w))
      (enumerate 1 A)
      (fun ts '(i, audio_file) =>
         let* added := _get_timestamp in
         ret (dict_set (relative audio_file)
                {| ti_display_name := Some (Pathlib.stem (relative audio_file));
                   ti_order := Some i; ti_added := Some added;
                   ti_modified := None |} ts))
      [] (tick w)) as (ts & w1 & Hloop & ->).
    + now rewrite elapsed_0.
    + intros done [i x] acc w0 _ ->. unfold bind, _get_timestamp, ret.
      eexists _, _. split; [reflexivity|].
      rewrite length_app, Nat.add_1_r. reflexivity.
    + rewrite (bind_ok _ _ _ _ _ Hloop). rewrite elapsed_tick.
      set (k := S (length (enumerate 1 A))). unfold try_catch.
      set (d := set_tracks ts _).
      destruct (can_write_dec (elapsed k w) name descriptor_filename)
        as [Hcw|Hcw].
      * rewrite (json_dump_ok _ _ d _ Hcw). eexists.
        split; [reflexivity|]. split.
        -- apply keeps_files_trans with (elapsed k w);
             [apply keeps_files_elapsed|].
           now apply keeps_files_new_descriptor.
        -- intros _. unfold on_disk. destruct Hcw as (f & Hf & _).
           rewrite (nodes_with_node _ _ _ _ _ Hf), dict_get_set_eq. eauto.
      * rewrite (json_dump_failed _ _ d _ Hcw). unfold ret. eexists.
        split; [reflexivity|]. split; [apply keeps_files_elapsed|].
        intros Hc. contradiction.
Qed.

(** X3. [initialize_descriptors] raises nothing. It keeps every file and
    directory of every folder as it was, existing descriptors included
    (also those that do not parse); the only nodes it creates are
    descriptor files; and afterwards every folder in which the descriptor
    can be written holds one. *)
Theorem initialize_descriptors_keeps_files w :
  exists w',
    initialize_descriptors w = (Ok tt, w')
    /\ (forall name rel n,
          dict_get rel (nodes w name) = Some n ->
          dict_get rel (nodes w' name) = Some n)
    /\ (forall name rel,
          rel <> descriptor_filename ->
          dict_get rel (nodes w' name) = dict_get rel (nodes w name))
    /\ (forall name,
          can_write w name descriptor_filename ->
          on_disk w' name descriptor_filename).
Proof.
  unfold initialize_descriptors. unfold bind at 1.
  unfold iterdir at 1, gets at 1.
  set (items := (fun '(name, it) =>
                   (name, match it with Dir _ => true | PlainFile => false end))
                  <$> playlists w).
  destruct (for_each_invariant
    (fun done (_ : unit) w' =>
       keeps_files w w'
       /\ forall name, (name, true) ∈ done ->
                       can_write w name descriptor_filename ->
                       on_disk w' name descriptor_filename)
    items
    (fun _ '(name, is_dir) =>
       if is_dir : bool then _ensure_descriptor_exists name else ret tt)
    tt w) as ([] & w' & Hrun & Hkeeps & Hdone).
  - split; [apply keeps_files_refl|]. intros name Hin.
    now apply not_elem_of_nil in Hin.
  - intros done [name [|]] [] w0 _ [Hkeeps Hdone].
    + destruct (ensure_descriptor_keeps name w0) as (w1 & Hrun & Hk1 & Hnew).
      exists tt, w1. split; [exact Hrun|].
      split; [now apply keeps_files_trans with w0|].
      intros name' Hin Hcw. apply elem_of_app in Hin as [Hin|Hin].
      * destruct (Hdone name' Hin Hcw) as [n Hn]. exists n.
        now apply (proj1 Hk1).
      * apply list_elem_of_singleton in Hin. injection Hin as ->.
        apply Hnew. now apply (proj2 (proj2 Hkeeps)).
    + unfold ret. exists tt, w0. split; [reflexivity|].
      split; [exact Hkeeps|].
      intros name' Hin Hcw. apply elem_of_app in Hin as [Hin|Hin]; [auto|].
      apply list_elem_of_singleton in Hin. discriminate Hin.
  - exists w'. split; [exact Hrun|].
    destruct Hkeeps as (H1 & H2 & H3).
    split; [exact H1|]. split; [exact H2|].
    intros name Hcw. apply Hdone; [|exact Hcw].
    destruct Hcw as (f & Hf & _). unfold folder_of in Hf.
    destruct (dict_get name (playlists w)) as [[|f']|] eqn:Hget;
      try discriminate.
    apply dict_get_Some_elem in Hget. unfold items.
    apply list_elem_of_fmap. now exists (name, Dir f').
Qed.

End Initialising.

(** ** Listing the playlists *)

Module Listing.
Import Catalog CatalogFacts.

(** What [get_playlists] returns: the folders with a usable descriptor. *)
Lemma get_playlists_spec w :
  exists listed,
    get_playlists w = (Ok listed, w)
    /\ (forall name d,
          dict_get name listed = Some d
          <-> descriptor_at w name = Some d /\ truthy d = true)
    /\ NoDup (keys listed)
    /\ keys listed `sublist_of` keys (playlists w).
Proof.
  unfold get_playlists. unfold bind at 1. unfold iterdir at 1, gets at 1.
  set (items := (fun '(name, it) =>
                   (name, match it with Dir _ => true | PlainFile => false end))
                  <$> playlists w).
  assert (Hitems : items.*1 = keys (playlists w)).
  { unfold items, keys. rewrite <- list_fmap_compose.
    apply list_fmap_ext. now intros _ [name it] _. }
  destruct (for_each_invariant
    (fun done (acc : list (string * descriptor)) w' =>
       w' = w
       /\ (forall name d,
             dict_get name acc = Some d
             <-> (name, true) ∈ done
                 /\ descriptor_at w name = Some d /\ truthy d = true)
       /\ NoDup (keys acc)
       /\ keys acc `sublist_of` done.*1)
    items
    (fun playlists '(name, is_dir) =>
       if is_dir : bool then
         let* descriptor := _load_descriptor name in
         match descriptor with
         | Some d => if truthy d then ret (dict_set name d playlists)
                     else ret playlists
         | None => ret playlists
         end
       else ret playlists)
    [] w) as (listed & w' & Hrun & -> & Hiff & Hnd & Hsub).
  - split; [reflexivity|]. split; [|split; [constructor | reflexivity]].
    intros name d. split; [discriminate|].
    intros [Hin _]. now apply not_elem_of_nil in Hin.
  - intros done [name is_dir] acc w0 _ (-> & Hiff & Hnd & Hsub).
    assert (Hskip :
      (is_dir = true -> forall d, descriptor_at w name = Some d -> truthy d = false) ->
      exists acc' s',
        (Ok acc, w) = (Ok acc', s')
        /\ s' = w
        /\ (forall name' d,
              dict_get name' acc' = Some d
              <-> (name', true) ∈ done ++ [(name, is_dir)]
                  /\ descriptor_at w name' = Some d /\ truthy d = true)
        /\ NoDup (keys acc')
        /\ keys acc' `sublist_of` (done ++ [(name, is_dir)]).*1).
    { intros Hno. exists acc, w. split; [reflexivity|]. split; [reflexivity|].
      split; [|split; [exact Hnd|]].
      - intros name' d. rewrite Hiff, elem_of_app, list_elem_of_singleton.
        split; [intros (? & ? & ?); auto|].
        intros ([Hin|[= -> <-]] & Hd & Ht); [auto|].
        rewrite (Hno eq_refl d Hd) in Ht. discriminate.
      - rewrite fmap_app. now apply sublist_inserts_r. }
    destruct is_dir; [|unfold ret; apply Hskip; discriminate].
    rewrite (bind_ok _ _ _ _ _ (load_descriptor_eq name w)).
    destruct (descriptor_at w name) as [d|] eqn:Hd;
      [|unfold ret; apply Hskip; discriminate].
    destruct (truthy d) eqn:Ht;
      [|unfold ret; apply Hskip; intros _ d' [= <-]; exact Ht].
    unfold ret. eexists _, _. split; [reflexivity|]. split; [reflexivity|].
    split; [|split].
    + intros name' d'. rewrite dict_get_set, elem_of_app, list_elem_of_singleton.
      destruct (String.eqb_spec name' name) as [->|Hne].
      * rewrite Hd. split; [intros [= <-]; auto|].
        intros (_ & [= <-] & _). reflexivity.
      * rewrite Hiff. split; [intros (? & ? & ?); auto|].
        intros ([Hin|[= ? ]] & ? & ?); [auto | contradiction].
    + destruct (dict_get name acc) as [d0|] eqn:Hget.
      * now rewrite keys_dict_set_present by eauto.
      * rewrite keys_dict_set_absent by assumption.
        apply NoDup_app. split; [exact Hnd|]. split; [|apply NoDup_singleton].
        intros k Hk ->%list_elem_of_singleton.
        apply dict_get_None in Hget. contradiction.
    + rewrite fmap_app. destruct (dict_get name acc) as [d0|] eqn:Hget.
      * rewrite keys_dict_set_present by eauto. now apply sublist_inserts_r.
      * rewrite keys_dict_set_absent by assumption. cbn.
        now apply sublist_app.
  - exists listed. split; [exact Hrun|]. split; [|split; [exact Hnd|]].
    + intros name d. rewrite Hiff. split; [intros (_ & ? & ?); auto|].
      intros [Hd Ht]. split; [|auto].
      unfold descriptor_at, nodes, folder_of in Hd.
      destruct (dict_get name (playlists w)) as [[|f]|] eqn:Hget;
        try discriminate.
      apply dict_get_Some_elem in Hget. unfold items.
      apply list_elem_of_fmap. now exists (name, Dir f).
    + now rewrite <- Hitems.
Qed.

(** X4. [get_playlists] raises nothing and changes nothing. A folder whose
    [playlist.json] holds a descriptor, an object with keys of a
    descriptor, is listed with that descriptor unless it is the empty
    object, and no name is listed with a descriptor in another way. A
    folder without [playlist.json], one whose [playlist.json] is not JSON
    and one that holds [{}] are not listed. Each name is listed once, in
    directory order, so the listing is no longer than the directory. *)
Theorem get_playlists_lists_descriptors w :
  exists listed,
    get_playlists w = (Ok listed, w)
    /\ (forall name d,
          descriptor_at w name = Some d ->
          d <> Descriptor None None None None None ->
          dict_get name listed = Some d)
    /\ (forall name d,
          dict_get name listed = Some d ->
          descriptor_at w name = Some d
          /\ d <> Descriptor None None None None None)
    /\ (forall name,
          dict_get descriptor_filename (nodes w name) = None ->
          dict_get name listed = None)
    /\ (forall name text,
          dict_get descriptor_filename (nodes w name) = Some (File (Text text)) ->
          dict_get name listed = None)
    /\ (forall name,
          descriptor_at w name = Some (Descriptor None None None None None) ->
          dict_get name listed = None)
    /\ NoDup (keys listed)
    /\ keys listed `sublist_of` keys (playlists w)
    /\ length listed <= length (playlists w).
Proof.
  destruct (get_playlists_spec w) as (listed & Hrun & Hiff & Hnd & Hsub).
  assert (Hnot : forall name,
             (forall d, descriptor_at w name = Some d -> truthy d = false) ->
             dict_get name listed = None).
  { intros name Hno. apply eq_None_not_Some. intros [d Hd].
    apply Hiff in Hd as [Hd Ht]. rewrite (Hno d Hd) in Ht. discriminate. }
  exists listed. split; [exact Hrun|].
  split.
  { intros name d Hd Hne. apply Hiff. split; [exact Hd|].
    destruct d as [[?|] [?|] [?|] [?|] [?|]]; try reflexivity.
    now contradiction Hne. }
  split; [|split; [|split; [|split; [|split; [exact Hnd|split; [exact Hsub|]]]]]].
  - intros name d [Hd Ht]%Hiff. split; [exact Hd|]. now intros ->.
  - intros name Hfile. apply Hnot. unfold descriptor_at. now rewrite Hfile.
  - intros name text Hfile. apply Hnot. unfold descriptor_at. now rewrite Hfile.
  - intros name Hd. apply Hnot. now intros d [= <-]%(eq_trans (eq_sym Hd)).
  - apply sublist_length in Hsub. unfold keys in Hsub.
    now rewrite !length_fmap in Hsub.
Qed.

End Listing.

(** ** Editing a descriptor *)

Lemma for_each_ret {S A B} (f : B -> A -> B) (l : list A) acc (s : S) :
  for_each l (fun acc x => ret (f acc x)) acc s = (Ok (foldl f acc l), s).
Proof.
  revert acc. induction l as [|x l IH]; intros acc; [reflexivity|].
  cbn [for_each foldl]. unfold bind at 1. unfold ret at 1. apply IH.
Qed.

Module Editing.
Import Catalog CatalogFacts WorldFacts Refreshing.

Lemma set_descriptor_key_keeps d kwarg :
  tracks (set_descriptor_key d kwarg) = tracks d
  /\ created (set_descriptor_key d kwarg) = created d
  /\ modified (set_descriptor_key d kwarg) = modified d.
Proof.
  destruct kwarg as [key value]. unfold set_descriptor_key.
  destruct (bool_decide _); [destruct (String.eqb _ _)|]; auto.
Qed.

Lemma descriptor_keys_keep d kwargs :
  tracks (foldl set_descriptor_key d kwargs) = tracks d
  /\ created (foldl set_descriptor_key d kwargs) = created d
  /\ modified (foldl set_descriptor_key d kwargs) = modified d.
Proof.
  revert d. induction kwargs as [|kwarg kwargs IH]; intros d; [auto|].
  cbn [foldl]. destruct (IH (set_descriptor_key d kwarg)) as (-> & -> & ->).
  apply set_descriptor_key_keeps.
Qed.

Lemma descriptor_keys_display_name d kwargs :
  NoDup (keys kwargs) ->
  display_name (foldl set_descriptor_key d kwargs)
  = match dict_get "display_name" kwargs with
    | Some v => Some v
    | None => display_name d
    end.
Proof.
  revert d. induction kwargs as [|[key value] kwargs IH]; intros d Hnd;
    [reflexivity|].
  apply NoDup_cons in Hnd as [Hkey Hnd]. cbn [foldl dict_get].
  rewrite IH by assumption.
  destruct (String.eqb_spec "display_name" key) as [<-|Hne].
  - rewrite (proj2 (dict_get_None "display_name" kwargs) Hkey). reflexivity.
  - destruct (dict_get "display_name" kwargs); [reflexivity|].
    unfold set_descriptor_key. destruct (bool_decide _); [|reflexivity].
    destruct (String.eqb_spec key "display_name"); [congruence | reflexivity].
Qed.

Lemma descriptor_keys_description d kwargs :
  NoDup (keys kwargs) ->
  description (foldl set_descriptor_key d kwargs)
  = match dict_get "description" kwargs with
    | Some v => Some v
    | None => description d
    end.
Proof.
  revert d. induction kwargs as [|[key value] kwargs IH]; intros d Hnd;
    [reflexivity|].
  apply NoDup_cons in Hnd as [Hkey Hnd]. cbn [foldl dict_get].
  rewrite IH by assumption.
  destruct (String.eqb_spec "description" key) as [<-|Hne].
  - rewrite (proj2 (dict_get_None "description" kwargs) Hkey). reflexivity.
  - destruct (dict_get "description" kwargs); [reflexivity|].
    unfold set_descriptor_key.
    destruct (decide (key ∈ ["display_name"; "description"])) as [Hin|Hin].
    + rewrite bool_decide_eq_true_2 by assumption.
      destruct (String.eqb_spec key "display_name"); [reflexivity|].
      exfalso. set_solver.
    + now rewrite bool_decide_eq_false_2.
Qed.

(** The descriptor [update_playlist_descriptor] edits: the stored one when
    it loads and is not empty, else a fresh one without tracks. All that
    is left then is to write it. *)
Lemma update_descriptor_upto_dump name kwargs w :
  is_Some (dict_get name (playlists w)) ->
  exists d0 k,
    update_playlist_descriptor name kwargs w
    = try_catch
        (json_dump name descriptor_filename
           (set_modified (clock w (k + ticks w))
              (foldl set_descriptor_key d0 kwargs)) ;; ret true)
        (fun _ => ret false) (elapsed (S k) w)
    /\ ((k = 0 /\ descriptor_at w name = Some d0 /\ truthy d0 = true)
        \/ (k = 1
            /\ (forall d, descriptor_at w name = Some d -> truthy d = false)
            /\ d0 = {| display_name := Some name; description := Some "";
                       created := Some (clock w (ticks w)); modified := None;
                       tracks := Some [] |})).
Proof.
  intros Hex.
  assert (Hstart : exists d0 k,
    or_else (descriptor_at w name)
      (let* stamp := _get_timestamp in
       ret {| display_name := Some name; description := Some "";
              created := Some stamp; modified := None; tracks := Some [] |}) w
    = (Ok d0, elapsed k w)
    /\ ((k = 0 /\ descriptor_at w name = Some d0 /\ truthy d0 = true)
        \/ (k = 1
            /\ (forall d, descriptor_at w name = Some d -> truthy d = false)
            /\ d0 = {| display_name := Some name; description := Some "";
                       created := Some (clock w (ticks w)); modified := None;
                       tracks := Some [] |}))).
  { unfold or_else. destruct (descriptor_at w name) as [d|];
      [destruct (truthy d) eqn:Ht|].
    - exists d, 0. rewrite elapsed_0. split; [reflexivity|]. left. auto.
    - eexists _, 1. split; [reflexivity|]. right.
      split; [reflexivity|]. split; [|reflexivity]. now intros d' [= <-].
    - eexists _, 1. split; [reflexivity|]. right.
      split; [reflexivity|]. split; [|reflexivity]. discriminate. }
  destruct Hstart as (d0 & k & Hstart & Hcases). exists d0, k.
  split; [|exact Hcases].
  unfold update_playlist_descriptor. unfold bind at 1.
  unfold dir_exists at 1, gets at 1.
  rewrite bool_decide_eq_true_2 by assumption.
  cbn [negb]. rewrite (bind_ok _ _ _ _ _ (load_descriptor_eq name w)).
  rewrite (bind_ok _ _ _ _ _ Hstart).
  rewrite (bind_ok _ _ _ _ _ (for_each_ret set_descriptor_key kwargs d0 _)).
  unfold bind at 1. unfold _get_timestamp at 1. reflexivity.
Qed.

Lemma folder_listed name w f :
  folder_of w name = Some f -> is_Some (dict_get name (playlists w)).
Proof.
  unfold folder_of. destruct (dict_get name (playlists w)); [eauto | discriminate].
Qed.

Lemma update_descriptor_runs name kwargs w :
  can_write w name descriptor_filename ->
  exists d0 k,
    update_playlist_descriptor name kwargs w
    = (Ok true,
       with_node name descriptor_filename
         (File (Json (set_modified (clock w (k + ticks w))
                        (foldl set_descriptor_key d0 kwargs))))
         (elapsed (S k) w))
    /\ ((k = 0 /\ descriptor_at w name = Some d0 /\ truthy d0 = true)
        \/ (k = 1
            /\ (forall d, descriptor_at w name = Some d -> truthy d = false)
            /\ d0 = {| display_name := Some name; description := Some "";
                       created := Some (clock w (ticks w)); modified := None;
                       tracks := Some [] |})).
Proof.
  intros Hcw.
  destruct (update_descriptor_upto_dump name kwargs w
              ltac:(destruct Hcw as (f & Hf & _); now apply folder_listed with f))
    as (d0 & k & Hrun & Hcases).
  exists d0, k. split; [|exact Hcases]. rewrite Hrun. unfold try_catch.
  rewrite (bind_ok _ _ _ _ _
             (json_dump_ok name descriptor_filename _ (elapsed (S k) w) Hcw)).
  reflexivity.
Qed.

Lemma get_playlist_display_name_eq name w :
  get_playlist_display_name name w
  = (Ok (match descriptor_at w name with
         | Some d => default name (display_name d)
         | None => name
         end), w).
Proof.
  unfold get_playlist_display_name.
  rewrite (bind_ok _ _ _ _ _ (load_descriptor_eq name w)).
  destruct (descriptor_at w name) as [d|]; [|reflexivity].
  destruct d as [[n|] [] [] [] []]; reflexivity.
Qed.

(** Rewriting a descriptor that is on disk changes no path's presence. *)
Lemma existing_entries_with_descriptor name c w ts :
  on_disk w name descriptor_filename ->
  existing_entries (with_node name descriptor_filename (File c) w) name ts
  = existing_entries w name ts.
Proof.
  intros Hon. unfold existing_entries. f_equal.
  apply list_filter_iff. intros [rel info]. cbn.
  now apply on_disk_with_node.
Qed.

(** X5. On a folder whose descriptor loads, a call of
    [update_playlist_descriptor] that can write the file returns [True]
    and stores the descriptor with the display name and the description
    given among the keyword arguments (each kept when not given), the
    modification time read from the clock, and the same creation time and
    tracks; the other keyword arguments are ignored and no other file
    changes. [get_playlist_display_name] then returns the stored display
    name and [get_playlist_tracks] lists what it listed before. *)
Theorem update_playlist_descriptor_stores name kwargs w d :
  NoDup (keys kwargs) ->
  descriptor_at w name = Some d ->
  truthy d = true ->
  can_write w name descriptor_filename ->
  exists w1 d1,
    update_playlist_descriptor name kwargs w = (Ok true, w1)
    /\ descriptor_at w1 name = Some d1
    /\ display_name d1 = match dict_get "display_name" kwargs with
                         | Some v => Some v
                         | None => display_name d
                         end
    /\ description d1 = match dict_get "description" kwargs with
                        | Some v => Some v
                        | None => description d
                        end
    /\ modified d1 = Some (clock w (ticks w))
    /\ created d1 = created d
    /\ tracks d1 = tracks d
    /\ (forall rel, rel <> descriptor_filename ->
                    dict_get rel (nodes w1 name) = dict_get rel (nodes w name))
    /\ get_playlist_display_name name w1
       = (Ok (default name (display_name d1)), w1)
    /\ (get_playlist_tracks name w1).1 = (get_playlist_tracks name w).1.
Proof.
  intros Hnd Hd Ht Hcw.
  destruct (update_descriptor_runs name kwargs w Hcw)
    as (d0 & k & Hrun & [(-> & Hd0 & _)|(_ & Hno & _)]);
    [|rewrite (Hno d Hd) in Ht; discriminate].
  rewrite Hd in Hd0. injection Hd0 as <-.
  destruct Hcw as (f & Hf & Hwr & Hnotdir).
  set (d1 := set_modified (clock w (0 + ticks w)) (foldl set_descriptor_key d kwargs)) in *.
  set (w1 := with_node name descriptor_filename (File (Json d1)) (elapsed 1 w)) in *.
  assert (Hd1 : descriptor_at w1 name = Some d1)
    by (apply descriptor_at_with_node; exists f; exact Hf).
  destruct (descriptor_keys_keep d kwargs) as (Htracks & Hcreated & _).
  exists w1, d1. split; [exact Hrun|]. split; [exact Hd1|].
  split; [now apply descriptor_keys_display_name|].
  split; [now apply descriptor_keys_description|].
  split; [reflexivity|]. split; [exact Hcreated|]. split; [exact Htracks|].
  split; [|split].
  - intros rel Hrel. unfold w1.
    rewrite (nodes_with_node _ _ _ _ f) by exact Hf.
    now apply dict_get_set_ne.
  - now rewrite get_playlist_display_name_eq, Hd1.
  - assert (Hon : on_disk (elapsed 1 w) name descriptor_filename).
    { unfold on_disk. unfold descriptor_at in Hd.
      change (nodes (elapsed 1 w) name) with (nodes w name).
      destruct (dict_get descriptor_filename (nodes w name)); [eauto | discriminate]. }
    destruct (tracks d) as [ts|] eqn:Hts.
    + rewrite (get_playlist_tracks_of_descriptor name w1 d1 ts Hd1)
        by (cbn; congruence).
      rewrite (get_playlist_tracks_of_descriptor name w d ts Hd Hts).
      cbn [fst]. unfold w1. rewrite existing_entries_with_descriptor by exact Hon.
      reflexivity.
    + assert (Hex : forall w', is_Some (folder_of w' name) ->
                               dir_exists name w' = (Ok true, w'))
        by (intros; now apply dir_exists_of_folder).
      unfold get_playlist_tracks.
      rewrite (bind_ok _ _ _ _ _ (Hex w1 ltac:(unfold w1; rewrite (folder_of_with_node _ _ _ _ f) by exact Hf; eauto))).
      rewrite (bind_ok _ _ _ _ _ (Hex w ltac:(eauto))).
      cbn [negb].
      rewrite (bind_ok _ _ _ _ _ (load_descriptor_eq name w1)), Hd1.
      rewrite (bind_ok _ _ _ _ _ (load_descriptor_eq name w)), Hd.
      assert (Hnone1 : tracks_in (Some d1) = None).
      { unfold tracks_in. destruct (truthy d1); [|reflexivity].
        unfold d1. cbn [tracks set_modified]. congruence. }
      assert (Hnone : tracks_in (Some d) = None)
        by (unfold tracks_in; now rewrite Ht).
      rewrite Hnone1, Hnone.
      destruct (get_audio_files_ok name w) as (A & HA & _).
      rewrite HA. unfold w1.
      now rewrite (get_audio_files_with_node name _ _ A
                     (get_audio_files_elapsed name 1 w A HA)).
Qed.

Lemma update_playlist_descriptor_stores_witness :
  NoDup (keys [("display_name", "Classic Rock"); ("colour", "red")])
  /\ descriptor_at Samples.rock_world "Rock"
     = Some (Samples.descriptor_of Samples.rock_tracks)
  /\ truthy (Samples.descriptor_of Samples.rock_tracks) = true
  /\ can_write Samples.rock_world "Rock" descriptor_filename
  /\ exists w1 d1,
      update_playlist_descriptor "Rock"
        [("display_name", "Classic Rock"); ("colour", "red")] Samples.rock_world
      = (Ok true, w1)
      /\ descriptor_at w1 "Rock" = Some d1
      /\ display_name d1 = Some "Classic Rock"
      /\ description d1 = Some ""
      /\ modified d1
         = Some (clock Samples.rock_world (ticks Samples.rock_world))
      /\ created d1 = created (Samples.descriptor_of Samples.rock_tracks)
      /\ tracks d1 = tracks (Samples.descriptor_of Samples.rock_tracks)
      /\ (forall rel, rel <> descriptor_filename ->
                      dict_get rel (nodes w1 "Rock")
                      = dict_get rel (nodes Samples.rock_world "Rock"))
      /\ get_playlist_display_name "Rock" w1
         = (Ok (default "Rock" (display_name d1)), w1)
      /\ (get_playlist_tracks "Rock" w1).1
         = (get_playlist_tracks "Rock" Samples.rock_world).1.
Proof.
  assert (Hnd : NoDup (keys [("display_name", "Classic Rock"); ("colour", "red")]))
    by compute_done.
  assert (Hcw : can_write Samples.rock_world "Rock" descriptor_filename).
  { eexists. split; [reflexivity|]. split; [reflexivity | discriminate]. }
  split; [exact Hnd|]. split; [reflexivity|]. split; [reflexivity|].
  split; [exact Hcw|].
  exact (update_playlist_descriptor_stores "Rock"
           [("display_name", "Classic Rock"); ("colour", "red")]
           Samples.rock_world (Samples.descriptor_of Samples.rock_tracks)
           Hnd eq_refl eq_refl Hcw).
Defined.

(** X6. On a folder that holds no descriptor, or one that does not parse,
    or the empty object, a call of [update_playlist_descriptor] that can
    write the file returns [True] and stores a fresh descriptor without any
    track, overwriting what was there; the folder is not scanned. Before
    the call [get_playlist_tracks] fell back on the scan of the folder;
    after it, it returns the empty list, whatever audio files the folder
    holds. *)
Theorem update_playlist_descriptor_hides_tracks name kwargs w :
  (forall d, descriptor_at w name = Some d -> truthy d = false) ->
  can_write w name descriptor_filename ->
  exists w1 d1,
    update_playlist_descriptor name kwargs w = (Ok true, w1)
    /\ descriptor_at w1 name = Some d1
    /\ tracks d1 = Some []
    /\ created d1 = Some (clock w (ticks w))
    /\ modified d1 = Some (clock w (S (ticks w)))
    /\ (forall rel, rel <> descriptor_filename ->
                    dict_get rel (nodes w1 name) = dict_get rel (nodes w name))
    /\ get_playlist_tracks name w = _get_audio_files name w
    /\ get_playlist_tracks name w1 = (Ok [], w1).
Proof.
  intros Hno Hcw.
  destruct (update_descriptor_runs name kwargs w Hcw)
    as (d0 & k & Hrun & [(_ & Hd0 & Ht)|(-> & _ & ->)]);
    [rewrite (Hno d0 Hd0) in Ht; discriminate|].
  destruct Hcw as (f & Hf & Hwr & Hnotdir).
  set (d0 := {| display_name := Some name; description := Some "";
                created := Some (clock w (ticks w)); modified := None;
                tracks := Some [] |}) in *.
  set (d1 := set_modified (clock w (1 + ticks w)) (foldl set_descriptor_key d0 kwargs)) in *.
  set (w1 := with_node name descriptor_filename (File (Json d1)) (elapsed 2 w)) in *.
  assert (Hd1 : descriptor_at w1 name = Some d1)
    by (apply descriptor_at_with_node; exists f; exact Hf).
  destruct (descriptor_keys_keep d0 kwargs) as (Htracks & Hcreated & _).
  exists w1, d1. split; [exact Hrun|]. split; [exact Hd1|].
  split; [exact Htracks|]. split; [exact Hcreated|]. split; [reflexivity|].
  split; [|split].
  - intros rel Hrel. unfold w1.
    rewrite (nodes_with_node _ _ _ _ f) by exact Hf.
    now apply dict_get_set_ne.
  - unfold get_playlist_tracks.
    rewrite (bind_ok _ _ _ _ _ (dir_exists_of_folder name w ltac:(eauto))).
    cbn [negb]. rewrite (bind_ok _ _ _ _ _ (load_descriptor_eq name w)).
    unfold tracks_in. destruct (descriptor_at w name) as [d|]; [|reflexivity].
    now rewrite (Hno d eq_refl).
  - rewrite (get_playlist_tracks_of_descriptor name w1 d1 [] Hd1 Htracks).
    reflexivity.
Qed.

Lemma update_playlist_descriptor_hides_tracks_witness :
  (forall d, descriptor_at Samples.unlisted_world "Rock" = Some d ->
             truthy d = false)
  /\ can_write Samples.unlisted_world "Rock" descriptor_filename
  /\ get_playlist_tracks "Rock" Samples.unlisted_world
     = (Ok [TrackPath "Rock" "a.MP3"; TrackPath "Rock" "b.mp3";
            TrackPath "Rock" "live/C.ogg"], Samples.unlisted_world)
  /\ exists w1 d1,
      update_playlist_descriptor "Rock" [("description", "Favourites")]
        Samples.unlisted_world = (Ok true, w1)
      /\ descriptor_at w1 "Rock" = Some d1
      /\ tracks d1 = Some []
      /\ created d1
         = Some (clock Samples.unlisted_world (ticks Samples.unlisted_world))
      /\ modified d1
         = Some (clock Samples.unlisted_world
                   (S (ticks Samples.unlisted_world)))
      /\ (forall rel, rel <> descriptor_filename ->
                      dict_get rel (nodes w1 "Rock")
                      = dict_get rel (nodes Samples.unlisted_world "Rock"))
      /\ get_playlist_tracks "Rock" Samples.unlisted_world
         = _get_audio_files "Rock" Samples.unlisted_world
      /\ get_playlist_tracks "Rock" w1 = (Ok [], w1).
Proof.
  assert (Hno : forall d, descriptor_at Samples.unlisted_world "Rock" = Some d ->
                          truthy d = false) by discriminate.
  assert (Hcw : can_write Samples.unlisted_world "Rock" descriptor_filename).
  { eexists. split; [reflexivity|]. split; [reflexivity | discriminate]. }
  split; [exact Hno|]. split; [exact Hcw|]. split; [reflexivity|].
  exact (update_playlist_descriptor_hides_tracks "Rock"
           [("description", "Favourites")] Samples.unlisted_world Hno Hcw).
Defined.

(** *** Track entries *)

Lemma track_keys_added t kwargs :
  ti_added (foldl set_track_key t kwargs) = ti_added t
  /\ ti_modified (foldl set_track_key t kwargs) = ti_modified t.
Proof.
  revert t. induction kwargs as [|kwarg kwargs IH]; intros t; [auto|].
  cbn [foldl]. destruct (IH (set_track_key t kwarg)) as [-> ->].
  now destruct kwarg.
Qed.

Lemma track_keys_display_name_kept t kwargs v :
  (forall v', KwDisplayName v' ∈ kwargs -> v' = v) ->
  ti_display_name t = Some v ->
  ti_display_name (foldl set_track_key t kwargs) = Some v.
Proof.
  revert t. induction kwargs as [|kwarg kwargs IH]; intros t Hall Ht;
    [exact Ht|].
  cbn [foldl]. apply IH; [intros v' Hv'; apply Hall; now right|].
  destruct kwarg as [v'| |]; cbn; try exact Ht.
  f_equal. apply Hall. left.
Qed.

Lemma track_keys_display_name t kwargs v :
  KwDisplayName v ∈ kwargs ->
  (forall v', KwDisplayName v' ∈ kwargs -> v' = v) ->
  ti_display_name (foldl set_track_key t kwargs) = Some v.
Proof.
  revert t. induction kwargs as [|kwarg kwargs IH]; intros t Hin Hall.
  - now apply not_elem_of_nil in Hin.
  - cbn [foldl]. apply elem_of_cons in Hin as [<-|Hin].
    + apply track_keys_display_name_kept; [|reflexivity].
      intros v' Hv'. apply Hall. now right.
    + apply IH; [exact Hin|]. intros v' Hv'. apply Hall. now right.
Qed.

Lemma track_keys_no_display_name t kwargs :
  (forall v, KwDisplayName v ∉ kwargs) ->
  ti_display_name (foldl set_track_key t kwargs) = ti_display_name t.
Proof.
  revert t. induction kwargs as [|kwarg kwargs IH]; intros t Hno;
    [reflexivity|].
  cbn [foldl]. rewrite IH by (intros v Hv; apply (Hno v); now right).
  destruct kwarg as [v| |]; try reflexivity.
  exfalso. apply (Hno v). left.
Qed.

Lemma track_keys_order_kept t kwargs o :
  (forall o', KwOrder o' ∈ kwargs -> o' = o) ->
  ti_order t = Some o ->
  ti_order (foldl set_track_key t kwargs) = Some o.
Proof.
  revert t. induction kwargs as [|kwarg kwargs IH]; intros t Hall Ht;
    [exact Ht|].
  cbn [foldl]. apply IH; [intros o' Ho'; apply Hall; now right|].
  destruct kwarg as [|o'|]; cbn; try exact Ht.
  f_equal. apply Hall. left.
Qed.

Lemma track_keys_order t kwargs o :
  KwOrder o ∈ kwargs ->
  (forall o', KwOrder o' ∈ kwargs -> o' = o) ->
  ti_order (foldl set_track_key t kwargs) = Some o.
Proof.
  revert t. induction kwargs as [|kwarg kwargs IH]; intros t Hin Hall.
  - now apply not_elem_of_nil in Hin.
  - cbn [foldl]. apply elem_of_cons in Hin as [<-|Hin].
    + apply track_keys_order_kept; [|reflexivity].
      intros o' Ho'. apply Hall. now right.
    + apply IH; [exact Hin|]. intros o' Ho'. apply Hall. now right.
Qed.

Lemma track_keys_no_order t kwargs :
  (forall o, KwOrder o ∉ kwargs) ->
  ti_order (foldl set_track_key t kwargs) = ti_order t.
Proof.
  revert t. induction kwargs as [|kwarg kwargs IH]; intros t Hno;
    [reflexivity|].
  cbn [foldl]. rewrite IH by (intros o Ho; apply (Hno o); now right).
  destruct kwarg as [|o|]; try reflexivity.
  exfalso. apply (Hno o). left.
Qed.

(** The run of [update_track_info] up to the writing of the file. *)
Lemma update_track_info_upto_dump name p kwargs w d :
  descriptor_at w name = Some d ->
  truthy d = true ->
  playlist_of p = name ->
  exists k ts info0,
    update_track_info name p kwargs w
    = try_catch
        (json_dump name descriptor_filename
           (set_modified (clock w (S k + ticks w))
              (set_tracks
                 (dict_set (relative p)
                    (set_ti_modified (clock w (k + ticks w))
                       (foldl set_track_key info0 kwargs)) ts) d)) ;;
         ret true)
        (fun _ => ret false) (elapsed (S (S k)) w)
    /\ dict_get (relative p) ts = Some info0
    /\ (forall rel, rel <> relative p ->
                    dict_get rel ts = dict_get rel (default [] (tracks d)))
    /\ info0 = default (new_track_info w p (default [] (tracks d)))
                 (dict_get (relative p) (default [] (tracks d))).
Proof.
  intros Hd Ht Hp.
  set (ts0 := default [] (tracks d)).
  assert (Hadd : exists k ts info0,
    match dict_get (relative p) ts0 with
    | Some _ => ret ts0
    | None =>
        let* added := _get_timestamp in
        ret (dict_set (relative p)
               {| ti_display_name := Some (Pathlib.stem (relative p));
                  ti_order := Some (Z.of_nat (length ts0) + 1)%Z;
                  ti_added := Some added; ti_modified := None |} ts0)
    end w = (Ok ts, elapsed k w)
    /\ dict_get (relative p) ts = Some info0
    /\ (forall rel, rel <> relative p -> dict_get rel ts = dict_get rel ts0)
    /\ info0 = default (new_track_info w p ts0) (dict_get (relative p) ts0)).
  { destruct (dict_get (relative p) ts0) as [info|] eqn:Hget.
    - exists 0, ts0, info. rewrite elapsed_0. auto.
    - eexists 1, _, _. split; [reflexivity|].
      split; [apply dict_get_set_eq|]. split; [|reflexivity].
      intros rel Hrel. now apply dict_get_set_ne. }
  destruct Hadd as (k & ts & info0 & Hadd & Hget & Hother & Hinfo0).
  exists k, ts, info0. split; [|auto].
  assert (Hex : is_Some (dict_get name (playlists w))).
  { unfold descriptor_at, nodes in Hd.
    destruct (folder_of w name) as [f|] eqn:Hf; [|discriminate].
    now apply folder_listed with f. }
  unfold update_track_info. unfold bind at 1.
  unfold dir_exists at 1, gets at 1.
  rewrite bool_decide_eq_true_2 by assumption.
  cbn [negb]. rewrite (bind_ok _ _ _ _ _ (load_descriptor_eq name w)).
  rewrite Hd, Ht. cbn [negb]. unfold try_catch, relative_to.
  rewrite Hp, String.eqb_refl. unfold bind at 1. unfold ret at 1.
  fold ts0. rewrite (bind_ok _ _ _ _ _ Hadd). rewrite Hget.
  rewrite (bind_ok _ _ _ _ _ (for_each_ret set_track_key kwargs info0 _)).
  unfold bind at 1. unfold _get_timestamp at 1.
  unfold bind at 1. unfold _get_timestamp at 1.
  reflexivity.
Qed.

Lemma update_track_info_runs name p kwargs w d :
  descriptor_at w name = Some d ->
  truthy d = true ->
  playlist_of p = name ->
  can_write w name descriptor_filename ->
  exists k ts info0,
    update_track_info name p kwargs w
    = (Ok true,
       with_node name descriptor_filename
         (File (Json
            (set_modified (clock w (S k + ticks w))
               (set_tracks
                  (dict_set (relative p)
                     (set_ti_modified (clock w (k + ticks w))
                        (foldl set_track_key info0 kwargs)) ts) d))))
         (elapsed (S (S k)) w))
    /\ dict_get (relative p) ts = Some info0
    /\ (forall rel, rel <> relative p ->
                    dict_get rel ts = dict_get rel (default [] (tracks d)))
    /\ info0 = default (new_track_info w p (default [] (tracks d)))
                 (dict_get (relative p) (default [] (tracks d))).
Proof.
  intros Hd Ht Hp Hcw.
  destruct (update_track_info_upto_dump name p kwargs w d Hd Ht Hp)
    as (k & ts & info0 & Hrun & Hrest).
  exists k, ts, info0. split; [|exact Hrest]. rewrite Hrun. unfold try_catch.
  rewrite (bind_ok _ _ _ _ _
             (json_dump_ok name descriptor_filename _
                (elapsed (S (S k)) w) Hcw)).
  reflexivity.
Qed.

(** X7. On a folder whose descriptor loads, [update_track_info] for a path
    of that folder, when it can write the file, returns [True]. The entry
    of the path (a new one, displayed by the file stem and ordered after
    the number of entries, when the descriptor had none) gets the display
    name and the order given among the keyword arguments, keeps the
    others and its [added] time, and is stamped; every other entry and
    every other field of the descriptor but [modified] is unchanged, as is
    every other file. [get_track_display_name] then returns the display
    name that was given. Whether the file exists is not checked. *)
Theorem update_track_info_stores name p kwargs w d :
  descriptor_at w name = Some d ->
  truthy d = true ->
  playlist_of p = name ->
  can_write w name descriptor_filename ->
  exists w1 d1 ts1 info0 info1,
    update_track_info name p kwargs w = (Ok true, w1)
    /\ descriptor_at w1 name = Some d1
    /\ tracks d1 = Some ts1
    /\ info0 = default (new_track_info w p (default [] (tracks d)))
                 (dict_get (relative p) (default [] (tracks d)))
    /\ dict_get (relative p) ts1 = Some info1
    /\ (forall rel, rel <> relative p ->
                    dict_get rel ts1 = dict_get rel (default [] (tracks d)))
    /\ (forall v,
          KwDisplayName v ∈ kwargs ->
          (forall v', KwDisplayName v' ∈ kwargs -> v' = v) ->
          ti_display_name info1 = Some v
          /\ get_track_display_name name p w1 = (Ok v, w1))
    /\ (forall o,
          KwOrder o ∈ kwargs ->
          (forall o', KwOrder o' ∈ kwargs -> o' = o) ->
          ti_order info1 = Some o)
    /\ ((forall v, KwDisplayName v ∉ kwargs) ->
        ti_display_name info1 = ti_display_name info0)
    /\ ((forall o, KwOrder o ∉ kwargs) -> ti_order info1 = ti_order info0)
    /\ ti_added info1 = ti_added info0
    /\ is_Some (ti_modified info1)
    /\ is_Some (modified d1)
    /\ display_name d1 = display_name d
    /\ description d1 = description d
    /\ created d1 = created d
    /\ (forall rel, rel <> descriptor_filename ->
                    dict_get rel (nodes w1 name) = dict_get rel (nodes w name)).
Proof.
  intros Hd Ht Hp Hcw.
  destruct (update_track_info_runs name p kwargs w d Hd Ht Hp Hcw)
    as (k & ts & info0 & Hrun & Hget & Hother & Hinfo0).
  destruct Hcw as (f & Hf & Hwr & Hnotdir).
  set (info1 := set_ti_modified (clock w (k + ticks w))
                  (foldl set_track_key info0 kwargs)) in *.
  set (ts1 := dict_set (relative p) info1 ts) in *.
  set (d1 := set_modified (clock w (S k + ticks w)) (set_tracks ts1 d)) in *.
  set (w1 := with_node name descriptor_filename (File (Json d1))
               (elapsed (S (S k)) w)) in *.
  assert (Hd1 : descriptor_at w1 name = Some d1)
    by (apply descriptor_at_with_node; exists f; exact Hf).
  assert (Hget1 : dict_get (relative p) ts1 = Some info1)
    by apply dict_get_set_eq.
  exists w1, d1, ts1, info0, info1.
  split; [exact Hrun|]. split; [exact Hd1|]. split; [reflexivity|].
  split; [exact Hinfo0|]. split; [exact Hget1|].
  split; [intros rel Hrel; unfold ts1; rewrite dict_get_set_ne by assumption;
          now apply Hother|].
  split; [|split; [|split; [|split; [|split]]]].
  - intros v Hv Hall.
    assert (Hname : ti_display_name info1 = Some v)
      by (unfold info1; cbn; now apply track_keys_display_name).
    split; [exact Hname|].
    unfold get_track_display_name.
    rewrite (bind_ok _ _ _ _ _ (load_descriptor_eq name w1)), Hd1.
    rewrite (tracks_in_Some d1 ts1 eq_refl).
    unfold try_catch, relative_to. rewrite Hp, String.eqb_refl.
    unfold bind at 2. unfold ret at 1. rewrite Hget1.
    unfold bind, ret. now rewrite Hname.
  - intros o Ho Hall. unfold info1. cbn. now apply track_keys_order.
  - intros Hno. unfold info1. cbn. now apply track_keys_no_display_name.
  - intros Hno. unfold info1. cbn. now apply track_keys_no_order.
  - unfold info1. cbn. apply track_keys_added.
  - split; [unfold info1; cbn; eauto|]. split; [unfold d1; cbn; eauto|].
    do 3 (split; [reflexivity|]).
    intros rel Hrel. unfold w1.
    rewrite (nodes_with_node _ _ _ _ f) by exact Hf.
    now apply dict_get_set_ne.
Qed.

Lemma update_track_info_stores_witness :
  descriptor_at Samples.rock_world "Rock"
    = Some (Samples.descriptor_of Samples.rock_tracks)
  /\ truthy (Samples.descriptor_of Samples.rock_tracks) = true
  /\ playlist_of (TrackPath "Rock" "b.mp3") = "Rock"
  /\ can_write Samples.rock_world "Rock" descriptor_filename
  /\ exists w1 d1 ts1 info0 info1,
      update_track_info "Rock" (TrackPath "Rock" "b.mp3")
        [KwDisplayName "Blue"; KwOther "rating"] Samples.rock_world
      = (Ok true, w1)
      /\ descriptor_at w1 "Rock" = Some d1
      /\ tracks d1 = Some ts1
      /\ info0 = Samples.entry "b" 2
      /\ dict_get "b.mp3" ts1 = Some info1
      /\ (forall rel, rel <> "b.mp3" ->
                      dict_get rel ts1 = dict_get rel Samples.rock_tracks)
      /\ (forall v,
            KwDisplayName v ∈ [KwDisplayName "Blue"; KwOther "rating"] ->
            (forall v', KwDisplayName v' ∈ [KwDisplayName "Blue"; KwOther "rating"] ->
                        v' = v) ->
            ti_display_name info1 = Some v
            /\ get_track_display_name "Rock" (TrackPath "Rock" "b.mp3") w1
               = (Ok v, w1))
      /\ (forall o,
            KwOrder o ∈ [KwDisplayName "Blue"; KwOther "rating"] ->
            (forall o', KwOrder o' ∈ [KwDisplayName "Blue"; KwOther "rating"] ->
                        o' = o) ->
            ti_order info1 = Some o)
      /\ ((forall v, KwDisplayName v ∉ [KwDisplayName "Blue"; KwOther "rating"]) ->
          ti_display_name info1 = ti_display_name info0)
      /\ ((forall o, KwOrder o ∉ [KwDisplayName "Blue"; KwOther "rating"]) ->
          ti_order info1 = ti_order info0)
      /\ ti_added info1 = ti_added info0
      /\ is_Some (ti_modified info1)
      /\ is_Some (modified d1)
      /\ display_name d1 = Some "Rock"
      /\ description d1 = Some ""
      /\ created d1 = Some "2024-04-30T09:00:00"
      /\ (forall rel, rel <> descriptor_filename ->
                      dict_get rel (nodes w1 "Rock")
                      = dict_get rel (nodes Samples.rock_world "Rock")).
Proof.
  assert (Hcw : can_write Samples.rock_world "Rock" descriptor_filename).
  { eexists. split; [reflexivity|]. split; [reflexivity | discriminate]. }
  split; [reflexivity|]. split; [reflexivity|]. split; [reflexivity|].
  split; [exact Hcw|].
  exact (update_track_info_stores "Rock" (TrackPath "Rock" "b.mp3")
           [KwDisplayName "Blue"; KwOther "rating"] Samples.rock_world
           (Samples.descriptor_of Samples.rock_tracks)
           eq_refl eq_refl eq_refl Hcw).
Defined.

(** A failed [json_dump] leaves the world as it was. *)
Lemma dump_or_false name d w :
  exists r w',
    try_catch (json_dump name descriptor_filename d ;; ret true)
      (fun _ => ret false) w = (Ok r, w')
    /\ (r = true <-> can_write w name descriptor_filename)
    /\ (r = false -> w' = w).
Proof.
  unfold try_catch.
  destruct (can_write_dec w name descriptor_filename) as [Hcw|Hcw].
  - rewrite (bind_ok _ _ _ _ _ (json_dump_ok name descriptor_filename d w Hcw)).
    unfold ret. eexists _, _. split; [reflexivity|].
    split; [tauto | discriminate].
  - rewrite (bind_raised _ _ _ _ _
               (json_dump_failed name descriptor_filename d w Hcw)).
    unfold ret. eexists _, _. split; [reflexivity|].
    split; [|reflexivity]. split; [discriminate | contradiction].
Qed.

(** When the descriptor file cannot be opened, nothing is written. *)
Lemma dump_refused name d k w :
  ~ can_write w name descriptor_filename ->
  try_catch (json_dump name descriptor_filename d ;; ret true)
    (fun _ => ret false) (elapsed k w) = (Ok false, elapsed k w).
Proof.
  intros Hcw.
  destruct (dump_or_false name d (elapsed k w)) as (r & w' & Hrun & Hr & Hw').
  destruct r; [exfalso; apply Hcw; exact (proj1 Hr eq_refl)|].
  now rewrite Hrun, (Hw' eq_refl).
Qed.

(** X8. What [update_track_info] refuses. In a folder with no descriptor
    file, with one that is not JSON or with one that holds [{}], it
    returns [False] and does nothing at all: it makes no descriptor for
    the folder. For a path that does not lie in the folder it returns
    [False] and does nothing, whatever the descriptor holds. With a
    descriptor that loads and a path in the folder, when the descriptor
    file cannot be opened for writing it returns [False] and no file or
    folder has changed: the stored descriptor is the one it read. *)
Theorem update_track_info_refusals name p kwargs w :
  ((forall d, descriptor_at w name = Some d -> truthy d = false) ->
   update_track_info name p kwargs w = (Ok false, w))
  /\ (playlist_of p <> name ->
      update_track_info name p kwargs w = (Ok false, w))
  /\ (forall d,
        descriptor_at w name = Some d ->
        truthy d = true ->
        playlist_of p = name ->
        ~ can_write w name descriptor_filename ->
        exists w',
          update_track_info name p kwargs w = (Ok false, w')
          /\ playlists w' = playlists w
          /\ descriptor_at w' name = Some d).
Proof.
  assert (Hrefused :
    (forall d, descriptor_at w name = Some d -> truthy d = false)
    \/ playlist_of p <> name ->
    update_track_info name p kwargs w = (Ok false, w)).
  { intros Hwhy. unfold update_track_info. unfold bind at 1.
    unfold dir_exists at 1, gets at 1.
    destruct (bool_decide _); cbn [negb]; [|reflexivity].
    rewrite (bind_ok _ _ _ _ _ (load_descriptor_eq name w)).
    destruct (descriptor_at w name) as [d|]; [|reflexivity].
    destruct (truthy d) eqn:Ht; cbn [negb]; [|reflexivity].
    destruct Hwhy as [Hno|Hp]; [rewrite (Hno d eq_refl) in Ht; discriminate|].
    unfold try_catch, relative_to.
    destruct (String.eqb_spec (playlist_of p) name); [contradiction|].
    reflexivity. }
  split; [intros Hno; apply Hrefused; now left|].
  split; [intros Hp; apply Hrefused; now right|].
  intros d Hd Ht Hp Hcw.
  destruct (update_track_info_upto_dump name p kwargs w d Hd Ht Hp)
    as (k & ts & info0 & Hrun & _).
  rewrite Hrun, (dump_refused _ _ _ _ Hcw).
  eexists. split; [reflexivity|]. split; [reflexivity | exact Hd].
Qed.

(** X9. What [update_playlist_descriptor] refuses. When the folder does
    not exist it returns [False] and does nothing. When the folder exists
    and its descriptor file cannot be opened for writing, it returns
    [False] and no file or folder has changed, whether the folder holds a
    descriptor, no descriptor file, or one that is not JSON: what was
    stored is still stored. *)
Theorem update_playlist_descriptor_refusals name kwargs w :
  (dict_get name (playlists w) = None ->
   update_playlist_descriptor name kwargs w = (Ok false, w))
  /\ (forall d,
        descriptor_at w name = Some d ->
        ~ can_write w name descriptor_filename ->
        exists w',
          update_playlist_descriptor name kwargs w = (Ok false, w')
          /\ playlists w' = playlists w
          /\ descriptor_at w' name = Some d)
  /\ (is_Some (dict_get name (playlists w)) ->
      descriptor_at w name = None ->
      ~ can_write w name descriptor_filename ->
      exists w',
        update_playlist_descriptor name kwargs w = (Ok false, w')
        /\ playlists w' = playlists w
        /\ descriptor_at w' name = None).
Proof.
  assert (Hreadonly :
    is_Some (dict_get name (playlists w)) ->
    ~ can_write w name descriptor_filename ->
    exists w',
      update_playlist_descriptor name kwargs w = (Ok false, w')
      /\ playlists w' = playlists w
      /\ descriptor_at w' name = descriptor_at w name).
  { intros Hex Hcw.
    destruct (update_descriptor_upto_dump name kwargs w Hex)
      as (d0 & k & Hrun & _).
    rewrite Hrun, (dump_refused _ _ _ _ Hcw).
    eexists. split; [reflexivity|]. split; reflexivity. }
  split; [|split].
  - intros Hget. unfold update_playlist_descriptor, bind, dir_exists, gets.
    rewrite Hget.
    rewrite bool_decide_eq_false_2 by (intros [? ?]; discriminate).
    reflexivity.
  - intros d Hd Hcw.
    assert (Hex : is_Some (dict_get name (playlists w))).
    { unfold descriptor_at, nodes, folder_of in Hd.
      destruct (dict_get name (playlists w)); [eauto | discriminate]. }
    destruct (Hreadonly Hex Hcw) as (w' & Hrun & Hp & Hd').
    exists w'. now rewrite Hd' .
  - intros Hex Hd Hcw.
    destruct (Hreadonly Hex Hcw) as (w' & Hrun & Hp & Hd').
    exists w'. now rewrite Hd'.
Qed.

End Editing.

(** ** Creating a playlist *)

Module Creating.
Import Catalog CatalogFacts WorldFacts Listing Editing.

Lemma dir_exists_eq name w :
  dir_exists name w
  = (Ok (bool_decide (is_Some (dict_get name (playlists w)))), w).
Proof. reflexivity. Qed.

(** The world once [mkdir] has made the folder. *)
Lemma mkdir_made wr name w :
  dict_get name (playlists w) = None ->
  exists w1,
    mkdir (Some wr) name w = (Ok tt, w1)
    /\ folder_of w1 name = Some {| writable := wr; entries := [] |}
    /\ (forall name', name' <> name ->
                      dict_get name' (playlists w1) = dict_get name' (playlists w))
    /\ clock w1 = clock w /\ ticks w1 = ticks w.
Proof.
  intros Hnone. unfold mkdir. rewrite Hnone. eexists. split; [reflexivity|].
  split; [unfold folder_of; cbn; now rewrite dict_get_set_eq|].
  split; [|auto]. intros name' Hne. cbn. now apply dict_get_set_ne.
Qed.

(** After a creation, successful or not, the name is taken. *)
Lemma create_playlist_refused os name display description_text w :
  is_Some (dict_get name (playlists w)) ->
  create_playlist os name display description_text w = (Ok false, w).
Proof.
  intros Hex. unfold create_playlist.
  rewrite (bind_ok _ _ _ _ _ (dir_exists_eq name w)).
  now rewrite bool_decide_eq_true_2.
Qed.

(** X10. [create_playlist] on a name that is not taken, when the folder
    can be made and written into, returns [True] and leaves a folder that
    holds only a descriptor: its display name is the one given, or the
    folder name when none or the empty text is given, and it has no track.
    Every other folder is as before. The new playlist is listed by
    [get_playlists], [get_playlist_display_name] returns its display name,
    [get_playlist_tracks] returns the empty list, and creating it again is
    refused without any change. *)
Theorem create_playlist_makes_listed_playlist name display description_text w :
  dict_get name (playlists w) = None ->
  exists w1 d1 listed,
    create_playlist (Some true) name display description_text w = (Ok true, w1)
    /\ d1 = {| display_name := Some (or_str display name);
               description := Some description_text;
               created := Some (clock w (ticks w)); modified := None;
               tracks := Some [] |}
    /\ nodes w1 name = [(descriptor_filename, File (Json d1))]
    /\ (forall name', name' <> name ->
                      dict_get name' (playlists w1) = dict_get name' (playlists w))
    /\ get_playlists w1 = (Ok listed, w1)
    /\ dict_get name listed = Some d1
    /\ get_playlist_display_name name w1 = (Ok (or_str display name), w1)
    /\ get_playlist_tracks name w1 = (Ok [], w1)
    /\ (forall os display' description',
          create_playlist os name display' description' w1 = (Ok false, w1)).
Proof.
  intros Hnone.
  destruct (mkdir_made true name w Hnone) as (wm & Hmk & Hf & Hothers & Hclock & Hticks).
  set (d1 := {| display_name := Some (or_str display name);
                description := Some description_text;
                created := Some (clock w (ticks w)); modified := None;
                tracks := Some [] |}).
  set (w1 := with_node name descriptor_filename (File (Json d1)) (tick wm)).
  assert (Hcw : can_write (tick wm) name descriptor_filename).
  { eexists. split; [exact Hf|]. split; [reflexivity | discriminate]. }
  assert (Hrun : create_playlist (Some true) name display description_text w
                 = (Ok true, w1)).
  { unfold create_playlist.
    rewrite (bind_ok _ _ _ _ _ (dir_exists_eq name w)), Hnone.
    rewrite bool_decide_eq_false_2 by (intros [? ?]; discriminate).
    unfold try_catch. rewrite (bind_ok _ _ _ _ _ Hmk).
    unfold bind at 1. unfold _get_timestamp at 1. rewrite Hclock, Hticks.
    now rewrite (bind_ok _ _ _ _ _ (json_dump_ok name descriptor_filename d1 _ Hcw)). }
  assert (Hnodes : nodes w1 name = [(descriptor_filename, File (Json d1))]).
  { unfold w1. rewrite (nodes_with_node name descriptor_filename _ (tick wm) _ Hf).
    unfold nodes. change (folder_of (tick wm) name) with (folder_of wm name).
    now rewrite Hf. }
  assert (Hd1 : descriptor_at w1 name = Some d1)
    by (unfold descriptor_at; now rewrite Hnodes).
  destruct (get_playlists_spec w1) as (listed & Hlist & Hiff & _).
  exists w1, d1, listed. split; [exact Hrun|]. split; [reflexivity|].
  split; [exact Hnodes|]. split; [|split; [exact Hlist|split; [|split; [|split]]]].
  - intros name' Hne. rewrite <- (Hothers name' Hne). unfold w1, with_node.
    change (folder_of (tick wm) name) with (folder_of wm name). rewrite Hf.
    cbn. now apply dict_get_set_ne.
  - apply Hiff. auto.
  - now rewrite get_playlist_display_name_eq, Hd1.
  - now rewrite (get_playlist_tracks_of_descriptor name w1 d1 [] Hd1 eq_refl).
  - intros os display' description'. apply create_playlist_refused.
    apply folder_listed with {| writable := true;
                                entries := dict_set descriptor_filename (File (Json d1)) [] |}.
    unfold w1.
    now rewrite (folder_of_with_node name descriptor_filename _ (tick wm) _ Hf).
Qed.

Lemma create_playlist_makes_listed_playlist_witness :
  dict_get "Jazz" (playlists Samples.rock_world) = None
  /\ exists w1 d1 listed,
      create_playlist (Some true) "Jazz" (Some "") "late night"
        Samples.rock_world = (Ok true, w1)
      /\ d1 = {| display_name := Some "Jazz";
                 description := Some "late night";
                 created := Some (clock Samples.rock_world
                                    (ticks Samples.rock_world));
                 modified := None; tracks := Some [] |}
      /\ nodes w1 "Jazz" = [(descriptor_filename, File (Json d1))]
      /\ (forall name', name' <> "Jazz" ->
                        dict_get name' (playlists w1)
                        = dict_get name' (playlists Samples.rock_world))
      /\ get_playlists w1 = (Ok listed, w1)
      /\ dict_get "Jazz" listed = Some d1
      /\ get_playlist_display_name "Jazz" w1 = (Ok "Jazz", w1)
      /\ get_playlist_tracks "Jazz" w1 = (Ok [], w1)
      /\ (forall os display' description',
            create_playlist os "Jazz" display' description' w1 = (Ok false, w1)).
Proof.
  split; [reflexivity|].
  exact (create_playlist_makes_listed_playlist "Jazz" (Some "") "late night"
           Samples.rock_world eq_refl).
Defined.

(** X11. [create_playlist] raises nothing and returns [False] in three
    cases. When the name is taken, by a folder or by a file, and when the
    folder cannot be made, nothing has changed. When the folder is made
    but the descriptor cannot be written into it, the empty folder stays:
    [get_playlists] does not list it, and since its name is now taken a
    further [create_playlist] is refused too. *)
Theorem create_playlist_failures name display description_text w :
  (forall os,
      is_Some (dict_get name (playlists w)) ->
      create_playlist os name display description_text w = (Ok false, w))
  /\ (dict_get name (playlists w) = None ->
      create_playlist None name display description_text w = (Ok false, w))
  /\ (dict_get name (playlists w) = None ->
      exists w1 listed,
        create_playlist (Some false) name display description_text w
        = (Ok false, w1)
        /\ folder_of w1 name = Some {| writable := false; entries := [] |}
        /\ (forall name', name' <> name ->
                          dict_get name' (playlists w1)
                          = dict_get name' (playlists w))
        /\ get_playlists w1 = (Ok listed, w1)
        /\ dict_get name listed = None
        /\ (forall os display' description',
              create_playlist os name display' description' w1
              = (Ok false, w1))).
Proof.
  split; [intros os; apply create_playlist_refused|]. split.
  - intros Hnone. unfold create_playlist.
    rewrite (bind_ok _ _ _ _ _ (dir_exists_eq name w)), Hnone.
    rewrite bool_decide_eq_false_2 by (intros [? ?]; discriminate).
    unfold try_catch, bind, mkdir. now rewrite Hnone.
  - intros Hnone.
    destruct (mkdir_made false name w Hnone)
      as (wm & Hmk & Hf & Hothers & Hclock & Hticks).
    assert (Hcw : ~ can_write (tick wm) name descriptor_filename).
    { intros (f & Hf' & Hwr & _).
      change (folder_of (tick wm) name) with (folder_of wm name) in Hf'.
      rewrite Hf in Hf'. injection Hf' as <-. discriminate Hwr. }
    assert (Hrun : create_playlist (Some false) name display description_text w
                   = (Ok false, tick wm)).
    { unfold create_playlist.
      rewrite (bind_ok _ _ _ _ _ (dir_exists_eq name w)), Hnone.
      rewrite bool_decide_eq_false_2 by (intros [? ?]; discriminate).
      unfold try_catch. rewrite (bind_ok _ _ _ _ _ Hmk).
      unfold bind at 1. unfold _get_timestamp at 1.
      now rewrite (bind_raised _ _ _ _ _
                     (json_dump_failed name descriptor_filename _ _ Hcw)). }
    destruct (get_playlists_spec (tick wm)) as (listed & Hlist & Hiff & _).
    exists (tick wm), listed. split; [exact Hrun|]. split; [exact Hf|].
    split; [exact Hothers|]. split; [exact Hlist|]. split.
    + apply eq_None_not_Some. intros [d Hd]. apply Hiff in Hd as [Hd _].
      unfold descriptor_at, nodes in Hd.
      change (folder_of (tick wm) name) with (folder_of wm name) in Hd.
      rewrite Hf in Hd. discriminate Hd.
    + intros os display' description'. apply create_playlist_refused.
      now apply folder_listed with {| writable := false; entries := [] |}.
Qed.

End Creating.

(** ** Export as pls *)

Module ExportingPls.
Import Catalog CatalogFacts WorldFacts Exporting.







End ExportingPls.

(** ** The outcome of a refresh and of a reordering *)

Module Outcomes.
Import Catalog CatalogFacts WorldFacts TrackListing Refreshing Editing.

(** X13. After a successful [refresh_playlist], [get_playlist_tracks]
    lists exactly the audio files that the scan of the folder finds: no
    file is missing from the listing and no listed file is missing from
    the folder. *)
Theorem refresh_then_listing name w w1 :
  refresh_playlist name w = (Ok true, w1) ->
  exists A listing,
    _get_audio_files name w1 = (Ok A, w1)
    /\ get_playlist_tracks name w1 = (Ok listing, w1)
    /\ (forall p, p ∈ listing <-> p ∈ A).
Proof.
  intros H.
  destruct (refresh_playlist_ok _ _ _ H)
    as (A & d1 & k & HA & Hcw & -> & _ & _ & _ & Hmod & Htracks).
  set (w1 := with_node name descriptor_filename (File (Json d1)) (elapsed k w)).
  destruct Hcw as (f & Hf & Hwr & Hnotdir).
  assert (Hd1 : descriptor_at w1 name = Some d1)
    by (apply descriptor_at_with_node; exists f; exact Hf).
  assert (HA1 : _get_audio_files name w1 = (Ok A, w1))
    by now apply get_audio_files_with_node, get_audio_files_elapsed.
  destruct (get_audio_files_ok name w) as (A' & HA' & Hchar).
  rewrite HA in HA'. injection HA' as <-.
  exists A. destruct (tracks (starting_descriptor w name)) as [ts0|].
  - destruct Htracks as (ts1 & Hts1 & Hkeys & _).
    eexists. split; [exact HA1|].
    split; [exact (get_playlist_tracks_of_descriptor name w1 d1 ts1 Hd1 Hts1)|].
    intros p. rewrite list_elem_of_fmap. split.
    + intros ([o p'] & -> & Hin). rewrite sort_by_perm in Hin.
      apply elem_of_existing_entries in Hin as (rel & info & -> & Hin & _ & _).
      assert (Hrel : rel ∈ relative <$> A).
      { apply Hkeys, list_elem_of_fmap. now exists (rel, info). }
      apply list_elem_of_fmap in Hrel as (p & -> & Hp).
      cbn. destruct (proj1 (Hchar p) Hp) as [<- _]. now destruct p.
    + intros Hp. destruct (proj1 (Hchar p) Hp) as [Hname [[c Hc] _]].
      assert (Hrel : relative p ∈ keys ts1)
        by (apply Hkeys, list_elem_of_fmap; eauto).
      apply list_elem_of_fmap in Hrel as ([rel info] & Hrel & Hin).
      cbn in Hrel. subst rel.
      exists (order_of info, p). split; [reflexivity|].
      rewrite sort_by_perm. apply elem_of_existing_entries.
      exists (relative p), info. split; [destruct p; cbn in *; congruence|].
      split; [exact Hin|]. split; [reflexivity|].
      unfold on_disk, w1.
      rewrite (nodes_with_node name descriptor_filename _ (elapsed k w) f Hf).
      rewrite dict_get_set.
      destruct (String.eqb (relative p) descriptor_filename); [eauto|].
      apply dict_get_is_Some, list_elem_of_fmap.
      now exists (relative p, File c).
  - destruct Htracks as [-> Hnone]. exists []. split; [exact HA1|].
    split; [|reflexivity].
    unfold get_playlist_tracks.
    rewrite (bind_ok _ _ _ _ _
               (dir_exists_of_folder name w1
                  ltac:(unfold w1;
                        rewrite (folder_of_with_node name descriptor_filename
                                   _ (elapsed k w) f Hf); eauto))).
    cbn [negb]. rewrite (bind_ok _ _ _ _ _ (load_descriptor_eq name w1)), Hd1.
    unfold tracks_in. rewrite Hnone.
    destruct (truthy d1); exact HA1.
Qed.

Lemma refresh_then_listing_witness :
  exists w1,
    refresh_playlist "Rock" Samples.stale_world = (Ok true, w1)
    /\ exists A listing,
        _get_audio_files "Rock" w1 = (Ok A, w1)
        /\ get_playlist_tracks "Rock" w1 = (Ok listing, w1)
        /\ (forall p, p ∈ listing <-> p ∈ A).
Proof.
  eexists. split; [vm_compute; reflexivity|].
  apply (refresh_then_listing "Rock" Samples.stale_world).
  vm_compute. reflexivity.
Defined.

(** The run of [refresh_playlist] up to the writing of the file, when the
    descriptor it starts from has tracks or no audio file is found. *)
Lemma refresh_upto_dump name w A :
  is_Some (dict_get name (playlists w)) ->
  _get_audio_files name w = (Ok A, w) ->
  (tracks (starting_descriptor w name) = None -> A = []) ->
  exists d k,
    refresh_playlist name w
    = try_catch (json_dump name descriptor_filename d ;; ret true)
        (fun _ => ret false) (elapsed k w).
Proof.
  intros Hex HA Hsafe. unfold refresh_playlist.
  rewrite (bind_ok _ _ _ _ _ (Creating.dir_exists_eq name w)).
  rewrite bool_decide_eq_true_2 by assumption. cbn [negb].
  rewrite (bind_ok _ _ _ _ _ HA).
  rewrite (bind_ok _ _ _ _ _ (load_descriptor_eq name w)).
  destruct (or_else_starting name w) as (k0 & Hstart).
  rewrite (bind_ok _ _ _ _ _ Hstart).
  set (d0 := starting_descriptor w name) in *.
  set (E := list_to_set (keys (default [] (tracks d0))) : gset string).
  destruct (tracks d0) as [ts0|] eqn:Hts0.
  - assert (HinA : forall p, p ∈ A -> playlist_of p = name).
    { destruct (get_audio_files_ok name w) as (A' & HA' & Hchar).
      rewrite HA in HA'. injection HA' as <-. intros p Hp. now apply Hchar. }
    destruct (add_loop name E A d0 ts0 ∅ (elapsed k0 w) Hts0 HinA)
      as (d' & ts' & k & Hadd & -> & Hkeys & _).
    rewrite (bind_ok _ _ _ _ _ Hadd). rewrite elapsed_elapsed.
    set (stale := E ∖ (∅ ∪ list_to_set (relative <$> A))).
    rewrite (bind_ok _ _ _ _ _
               (remove_loop (elements stale) (set_tracks ts' d0) ts' _
                  eq_refl (NoDup_elements stale)
                  ltac:(intros rel Hrel; apply Hkeys; left;
                        apply elem_of_elements in Hrel;
                        subst stale E; simpl in Hrel; set_solver))).
    unfold bind at 1. unfold _get_timestamp at 1.
    eexists _, (S (k + k0)). reflexivity.
  - rewrite (Hsafe eq_refl). cbn [for_each].
    unfold bind at 1. unfold ret at 1.
    assert (Hnone : E ∖ (∅ : gset string) = ∅)
      by (subst E; simpl; set_solver).
    rewrite Hnone, elements_empty. cbn [for_each].
    unfold bind at 1. unfold ret at 1.
    unfold bind at 1. unfold _get_timestamp at 1.
    eexists _, (S k0). reflexivity.
Qed.

(** X14. [refresh_playlist] lets an exception escape: when the stored
    descriptor loads, is not empty and has no "tracks" key while the
    folder holds an audio file, adding the entry of the first file raises
    [KeyError('tracks')]. Nothing has been written then: every file and
    folder is as it was, the descriptor included. *)
Theorem refresh_playlist_key_error name w d A :
  descriptor_at w name = Some d ->
  d <> Descriptor None None None None None ->
  tracks d = None ->
  _get_audio_files name w = (Ok A, w) ->
  A <> [] ->
  exists w',
    refresh_playlist name w = (Raised (KeyError "tracks"), w')
    /\ playlists w' = playlists w
    /\ descriptor_at w' name = Some d.
Proof.
  intros Hd Hne Hnone HA HAne.
  assert (Ht : truthy d = true).
  { destruct d as [[?|] [?|] [?|] [?|] [?|]]; try reflexivity.
    now contradiction Hne. }
  assert (Hex : is_Some (dict_get name (playlists w))).
  { unfold descriptor_at, nodes, folder_of in Hd.
    destruct (dict_get name (playlists w)); [eauto | discriminate]. }
  assert (Hstarting : starting_descriptor w name = d).
  { unfold starting_descriptor. now rewrite Hd, Ht. }
  destruct (get_audio_files_ok name w) as (A' & HA' & Hchar).
  rewrite HA in HA'. injection HA' as <-.
  destruct A as [|x A]; [contradiction|].
  unfold refresh_playlist.
  rewrite (bind_ok _ _ _ _ _ (Creating.dir_exists_eq name w)).
  rewrite bool_decide_eq_true_2 by assumption. cbn [negb].
  rewrite (bind_ok _ _ _ _ _ HA).
  rewrite (bind_ok _ _ _ _ _ (load_descriptor_eq name w)).
  destruct (or_else_starting name w) as (k0 & Hstart).
  rewrite (bind_ok _ _ _ _ _ Hstart). rewrite Hstarting.
  set (E := list_to_set (keys (default [] (tracks d))) : gset string).
  cbn [for_each].
  assert (Hraise : add_new_track name E (d, ∅) x (elapsed k0 w)
                   = (Raised (KeyError "tracks"), elapsed k0 w)).
  { unfold add_new_track, relative_to.
    rewrite (proj1 (proj1 (Hchar x) ltac:(left))), String.eqb_refl.
    unfold bind at 1. unfold ret at 1.
    rewrite bool_decide_eq_false_2
      by (subst E; rewrite Hnone; simpl; set_solver).
    now rewrite Hnone. }
  rewrite (bind_raised _ _ _ _ _ (bind_raised _ _ _ _ _ Hraise)).
  eexists. split; [reflexivity|]. split; [reflexivity | exact Hd].
Qed.

Lemma refresh_playlist_key_error_witness :
  descriptor_at Samples.trackless_world "Rock"
  = Some (Descriptor (Some "Rock") None None None None)
  /\ _get_audio_files "Rock" Samples.trackless_world
     = (Ok [TrackPath "Rock" "a.mp3"], Samples.trackless_world)
  /\ exists w',
      refresh_playlist "Rock" Samples.trackless_world
      = (Raised (KeyError "tracks"), w')
      /\ playlists w' = playlists Samples.trackless_world
      /\ descriptor_at w' "Rock"
         = Some (Descriptor (Some "Rock") None None None None).
Proof.
  split; [reflexivity|]. split; [reflexivity|].
  apply (refresh_playlist_key_error "Rock" Samples.trackless_world
           (Descriptor (Some "Rock") None None None None)
           [TrackPath "Rock" "a.mp3"]);
    [reflexivity | discriminate | reflexivity | reflexivity | discriminate].
Defined.

(** X15. What [reorder_tracks] refuses. With no descriptor file, with one
    that is not JSON, and with a descriptor without "tracks" key (the
    empty object among them) it returns [False] and does nothing at all,
    whatever the list. With a descriptor that has tracks, when the
    descriptor file cannot be opened for writing it returns [False] and no
    file or folder has changed: the stored orders are the ones it read. *)
Theorem reorder_tracks_refusals name track_order w :
  ((forall d, descriptor_at w name = Some d -> tracks d = None) ->
   reorder_tracks name track_order w = (Ok false, w))
  /\ (forall d ts,
        descriptor_at w name = Some d ->
        tracks d = Some ts ->
        ~ can_write w name descriptor_filename ->
        exists w',
          reorder_tracks name track_order w = (Ok false, w')
          /\ playlists w' = playlists w
          /\ descriptor_at w' name = Some d).
Proof.
  unfold reorder_tracks.
  rewrite (bind_ok _ _ _ _ _ (load_descriptor_eq name w)).
  split.
  - intros Hno. destruct (descriptor_at w name) as [d|]; [|reflexivity].
    unfold tracks_in. rewrite (Hno d eq_refl). now destruct (truthy d).
  - intros d ts Hd Hts Hcw. rewrite Hd.
    rewrite (tracks_in_Some _ _ Hts).
    destruct (for_each_invariant
      (fun _ (_ : list (string * track_info)) w' => w' = w)
      (enumerate 1 track_order)
      (fun ts '(i, relative_path) =>
         match dict_get relative_path ts with
         | Some info => ret (dict_set relative_path (set_order i info) ts)
         | None => ret ts
         end)
      ts w) as (ts' & w0 & Hloop & ->); [reflexivity| |].
    { intros _ [i rel] acc w0 _ ->.
      destruct (dict_get rel acc); unfold ret; eauto. }
    unfold try_catch at 1. rewrite (bind_ok _ _ _ _ _ Hloop).
    unfold bind at 1. unfold _get_timestamp at 1.
    pose proof (dump_refused name
                  (set_modified (clock w (ticks w)) (set_tracks ts' d))
                  1 w Hcw) as Hrun.
    unfold try_catch in Hrun.
    change (elapsed 1 w) with (tick w) in Hrun.
    exists (tick w). split; [|split; [reflexivity | exact Hd]].
    unfold try_catch.
    destruct ((json_dump name descriptor_filename
                 (set_modified (clock w (ticks w)) (set_tracks ts' d)) ;;
               ret true) (tick w)) as [[r|e] w1] eqn:Hdump;
      unfold ret in *; congruence.
Qed.

End Outcomes.

(** ** Invariants of the engine *)

Module EngineInvariants.
Import Engine EngineFacts.

Lemma clamp_volume v :
  (0 <= Qmax 0 (Qmin 1 v))%Q /\ (Qmax 0 (Qmin 1 v) <= 1)%Q.
Proof.
  split; [apply Q.le_max_l|].
  apply Q.max_lub; [discriminate | apply Q.le_min_l].
Qed.

Lemma clamp_speed v :
  (1 # 2 <= Qmax (1 # 2) (Qmin 2 v))%Q /\ (Qmax (1 # 2) (Qmin 2 v) <= 2)%Q.
Proof.
  split; [apply Q.le_max_l|].
  apply Q.max_lub; [discriminate | apply Q.le_min_l].
Qed.

(** Every call returns, and invokes only the callbacks it may. *)
Lemma run_call_events b c s :
  exists r s' new,
    run_call b c s = (Ok r, s')
    /\ events s' = events s ++ new
    /\ on_error s' = on_error s
    /\ on_track_end s' = on_track_end s
    /\ on_position_update s' = on_position_update s
    /\ Forall (allowed_event c s) new.
Proof.
  destruct c as [p| | | |v|v|p|]; unfold run_call;
    [unfold load_track;
     destruct (path_exists b p),
       (bool_decide (Pathlib.lower (Pathlib.suffix p) ∈ supported_formats))
    | ..];
    run_cases; eexists _, _, _; (split; [reflexivity|]);
    (split; [cbn; rewrite <- ?app_assoc;
             first [reflexivity | symmetry; apply app_nil_r]|]);
    cbn; repeat split; unfold allowed_event; repeat constructor; auto.
Qed.

Lemma allowed_event_same c s s' e :
  on_error s' = on_error s ->
  on_track_end s' = on_track_end s ->
  on_position_update s' = on_position_update s ->
  allowed_event c s' e -> allowed_event c s e.
Proof. intros H1 H2 H3. destruct e; cbn; congruence. Qed.

(** X16. No sequence of calls and tracker rounds raises, whatever the
    backend answers. The callbacks it invokes are appended to those
    invoked before: the error callback is invoked only when one is
    registered, the track-end and position callbacks only by a tracker
    round and only when registered; no call registers or removes a
    callback. *)
Theorem callbacks_only_when_registered history s :
  exists s' new,
    run history s = (Ok tt, s')
    /\ events s' = events s ++ new
    /\ on_error s' = on_error s
    /\ on_track_end s' = on_track_end s
    /\ on_position_update s' = on_position_update s
    /\ Forall (fun e => exists bc, bc ∈ history /\ allowed_event bc.2 s e) new.
Proof.
  unfold run. revert s. induction history as [|[b c] history IH]; intros s.
  - exists s, []. cbn. unfold ret. rewrite app_nil_r. repeat split. constructor.
  - destruct (run_call_events b c s) as (r & s1 & new1 & Hrun & Hev & H1 & H2 & H3 & Hall).
    destruct (IH s1) as (s2 & new2 & Hrest & Hev2 & K1 & K2 & K3 & Hall2).
    exists s2, (new1 ++ new2). cbn [for_each].
    rewrite (bind_ok _ _ _ _ _ (bind_ok _ _ _ _ _ Hrun)).
    split; [exact Hrest|]. split; [now rewrite Hev2, Hev, app_assoc|].
    split; [congruence|]. split; [congruence|]. split; [congruence|].
    apply Forall_app. split.
    + eapply Forall_impl; [exact Hall|]. intros e He.
      exists (b, c). split; [left | exact He].
    + eapply Forall_impl; [exact Hall2|]. intros e (bc & Hin & He).
      exists bc. split; [now right|]. now apply (allowed_event_same _ s s1).
Qed.

(** *** Volume and speed *)

Lemma run_call_in_range b c s :
  in_range s -> exists r s', run_call b c s = (Ok r, s') /\ in_range s'.
Proof.
  intros (H1 & H2 & H3 & H4).
  destruct c as [p| | | |v|v|p|]; unfold run_call;
    [unfold load_track;
     destruct (path_exists b p),
       (bool_decide (Pathlib.lower (Pathlib.suffix p) ∈ supported_formats))
    | ..];
    run_cases; eexists _, _; (split; [reflexivity|]);
    unfold in_range; cbn; repeat split;
    first [assumption | apply clamp_volume | apply clamp_speed].
Qed.

(** X17. [set_volume] stores the volume clamped to [0, 1], also when the
    backend refuses it, and [set_speed] the speed clamped to [0.5, 2]. So
    from a state within these ranges, as the initial one is, no sequence of
    calls and tracker rounds takes the volume or the speed out of them. *)
Theorem volume_and_speed_stay_in_range history s :
  in_range s ->
  (forall b v, exists s',
      set_volume b v s = (Ok tt, s') /\ volume s' = Qmax 0 (Qmin 1 v))
  /\ (forall v, exists s',
        set_speed v s = (Ok tt, s') /\ speed s' = Qmax (1 # 2) (Qmin 2 v))
  /\ exists s', run history s = (Ok tt, s') /\ in_range s'.
Proof.
  intros Hs. split; [|split].
  - intros b v. run_cases; eexists; split; reflexivity.
  - intros v. eexists. split; reflexivity.
  - unfold run. revert s Hs.
    induction history as [|[b c] history IH]; intros s Hs.
    + exists s. split; [reflexivity | exact Hs].
    + destruct (run_call_in_range b c s Hs) as (r & s1 & Hrun & Hs1).
      cbn [for_each].
      rewrite (bind_ok _ _ _ _ _ (bind_ok _ _ _ _ _ Hrun)). now apply IH.
Qed.

Lemma volume_and_speed_stay_in_range_witness :
  in_range init
  /\ (forall b v, exists s',
        set_volume b v init = (Ok tt, s') /\ volume s' = Qmax 0 (Qmin 1 v))
  /\ (forall v, exists s',
        set_speed v init = (Ok tt, s') /\ speed s' = Qmax (1 # 2) (Qmin 2 v))
  /\ exists s',
      run [(Samples.quiet_backend, SetVolume 5);
           (Samples.quiet_backend, SetSpeed 0);
           (Samples.quiet_backend, LoadTrack "a.mp3");
           (Samples.quiet_backend, SetVolume (-1))] init = (Ok tt, s')
      /\ in_range s'.
Proof.
  assert (Hinit : in_range init) by (repeat split; discriminate).
  split; [exact Hinit|].
  exact (volume_and_speed_stay_in_range
           [(Samples.quiet_backend, SetVolume 5);
            (Samples.quiet_backend, SetSpeed 0);
            (Samples.quiet_backend, LoadTrack "a.mp3");
            (Samples.quiet_backend, SetVolume (-1))] init Hinit).
Defined.

End EngineInvariants.

Module EngineFlags.
Import Engine EngineFacts.

Ltac flag_facts :=
  repeat match goal with
         | H : negb _ = true |- _ => apply negb_true_iff in H
         | H : negb _ = false |- _ => apply negb_false_iff in H
         | H : _ && _ = true |- _ => apply andb_true_iff in H as [? ?]
         end.

Ltac flags_goal :=
  first [ assumption | discriminate | (left; split; reflexivity)
        | (intros; congruence) | (intuition congruence) | auto ].

Ltac flags_of_call :=
  run_cases; eexists _, _; (split; [reflexivity|]); cbn; flag_facts;
  (split; [|split]); flags_goal.

(** What a call does to the flags and to the current track. *)
Lemma run_call_flags b c s :
  (is_paused s = true -> is_playing s = true) ->
  (is_playing s = true -> is_loaded_flag s = true) ->
  exists r s',
    run_call b c s = (Ok r, s')
    /\ (is_paused s' = true -> is_playing s' = true)
    /\ (is_playing s' = true -> is_loaded_flag s' = true)
    /\ ((current_track s' = current_track s
         /\ is_loaded_flag s' = is_loaded_flag s)
        \/ (exists p, c = LoadTrack p /\ load_track b p s = (Ok true, s'))).
Proof.
  intros H1 H2.
  destruct c as [p| | | |v|v|p|]; unfold run_call;
    [destruct (load_track b p s) as [[[|]|e] s'] eqn:Hload | ..].
  - rewrite (bind_ok _ _ _ _ _ Hload). unfold ret. eexists _, _.
    split; [reflexivity|].
    split; [|split; [|right; eauto]];
      destruct (load_track_ok _ _ _ _ Hload) as (_ & _ & _ & ->);
      rewrite stop_eq; destruct (music_stop b) as [msg|]; cbn;
      try discriminate; try reflexivity.
    destruct (reported_fields ("Failed to stop: " +:+ msg) s)
      as (_ & _ & -> & -> & _).
    exact H1.
  - revert Hload. unfold load_track.
    destruct (path_exists b p),
      (bool_decide (Pathlib.lower (Pathlib.suffix p) ∈ supported_formats));
      run_cases; intros; simplify_eq; eexists _, _; (split; [reflexivity|]);
      cbn; (split; [|split]); flags_goal.
  - exfalso. revert Hload. unfold load_track.
    destruct (path_exists b p),
      (bool_decide (Pathlib.lower (Pathlib.suffix p) ∈ supported_formats));
      run_cases; intros; simplify_eq.
  - flags_of_call.
  - flags_of_call.
  - flags_of_call.
  - flags_of_call.
  - flags_of_call.
  - flags_of_call.
  - flags_of_call.
Qed.

(** X18. No sequence of calls and tracker rounds breaks the agreement of
    the flags: from a state where what is paused is playing, what is
    playing is loaded, a track is loaded exactly when there is a current
    track and the current track has a supported extension (the initial
    state is one), every reachable state is such a state, whatever the
    backend answers. *)
Theorem flags_stay_consistent history s :
  consistent s -> exists s', run history s = (Ok tt, s') /\ consistent s'.
Proof.
  unfold run. revert s. induction history as [|[b c] history IH]; intros s Hs.
  - exists s. split; [reflexivity | exact Hs].
  - destruct Hs as (H1 & H2 & H3 & H4).
    destruct (run_call_flags b c s H1 H2)
      as (r & s1 & Hrun & K1 & K2 & Hcur).
    cbn [for_each].
    rewrite (bind_ok _ _ _ _ _ (bind_ok _ _ _ _ _ Hrun)). apply IH.
    split; [exact K1|]. split; [exact K2|].
    destruct Hcur as [[Hct Hl]|(p & _ & Hload)].
    + rewrite Hct, Hl. auto.
    + destruct (load_track_ok _ _ _ _ Hload) as (_ & Hformat & _ & ->).
      cbn. split; [split; eauto|]. now intros ? [= <-].
Qed.

Lemma flags_stay_consistent_witness :
  consistent init
  /\ exists s',
      run [(Samples.quiet_backend, Play);
           (Samples.quiet_backend, LoadTrack "notes.txt");
           (Samples.quiet_backend, LoadTrack "a.MP3");
           (Samples.quiet_backend, Play); (Samples.quiet_backend, Pause);
           (Samples.quiet_backend, SetPosition 0);
           (Samples.quiet_backend, Tick)] init = (Ok tt, s')
      /\ consistent s'.
Proof.
  assert (Hinit : consistent init).
  { split; [discriminate|]. split; [discriminate|]. split.
    - split; [discriminate | intros [? ?]; discriminate].
    - discriminate. }
  split; [exact Hinit|].
  exact (flags_stay_consistent
           [(Samples.quiet_backend, Play);
            (Samples.quiet_backend, LoadTrack "notes.txt");
            (Samples.quiet_backend, LoadTrack "a.MP3");
            (Samples.quiet_backend, Play); (Samples.quiet_backend, Pause);
            (Samples.quiet_backend, SetPosition 0);
            (Samples.quiet_backend, Tick)] init Hinit).
Defined.

End EngineFlags.

(** ** Seeking, pausing and the end of a track *)

Module EnginePlayback.
Import Engine EngineFacts.

Ltac not_loaded :=
  try (exfalso;
       match goal with H : negb _ = true |- _ => apply negb_true_iff in H end;
       congruence).

(** What [set_position] does on a loaded engine. *)
Lemma set_position_loaded b p s :
  is_loaded_flag s = true ->
  exists s',
    set_position b p s = (Ok true, s')
    /\ (Qeq_bool p 0 = false ->
        s' = set_position_field (Qmax 0 (Qmin (duration s) p)) s)
    /\ (Qeq_bool p 0 = true ->
        music_stop b = None ->
        music_play b 0 = None ->
        music_set_volume b (volume s) = None ->
        position s' = 0%Q
        /\ is_paused s' = false
        /\ is_playing s' = is_playing s
        /\ is_loaded_flag s' = true
        /\ current_track s' = current_track s
        /\ duration s' = duration s
        /\ events s' = events s).
Proof.
  intros Hloaded.
  run_cases; not_loaded; eexists; (split; [reflexivity|]);
    (split; [intros; congruence|]); intros; simplify_eq; cbn;
    repeat split; congruence.
Qed.

(** X19. With no track loaded [set_position] returns [False] and does
    nothing. On a loaded engine it always returns [True]. A target other
    than 0 is only stored, clamped to [0, duration]: the backend is not
    called and nothing else changes. The target 0 stops and, when the
    engine was playing (paused or not), plays again; the result is [True]
    also when the backend refuses to stop or to play. When the backend
    accepts, the position is 0, the engine is playing exactly when it was,
    and it is no longer paused: a paused track resumes from the start. *)
Theorem set_position_always_succeeds b p s :
  (is_loaded_flag s = false -> set_position b p s = (Ok false, s))
  /\ (is_loaded_flag s = true ->
      exists s',
        set_position b p s = (Ok true, s')
        /\ (Qeq_bool p 0 = false ->
            s' = set_position_field (Qmax 0 (Qmin (duration s) p)) s)
        /\ (Qeq_bool p 0 = true ->
            music_stop b = None ->
            music_play b 0 = None ->
            music_set_volume b (volume s) = None ->
            position s' = 0%Q
            /\ is_paused s' = false
            /\ is_playing s' = is_playing s
            /\ is_loaded_flag s' = true
            /\ current_track s' = current_track s
            /\ duration s' = duration s
            /\ events s' = events s)).
Proof.
  split.
  - intros Hl. unfold set_position, try_catch, bind, gets, ret.
    now rewrite Hl.
  - apply set_position_loaded.
Qed.

Lemma set_position_always_succeeds_witness :
  is_loaded_flag Samples.paused_engine = true
  /\ exists s',
      set_position Samples.quiet_backend 0 Samples.paused_engine = (Ok true, s')
      /\ (Qeq_bool 0 0 = false ->
          s' = set_position_field
                 (Qmax 0 (Qmin (duration Samples.paused_engine) 0))
                 Samples.paused_engine)
      /\ (Qeq_bool 0 0 = true ->
          music_stop Samples.quiet_backend = None ->
          music_play Samples.quiet_backend 0 = None ->
          music_set_volume Samples.quiet_backend (volume Samples.paused_engine)
          = None ->
          position s' = 0%Q
          /\ is_paused s' = false
          /\ is_playing s' = is_playing Samples.paused_engine
          /\ is_loaded_flag s' = true
          /\ current_track s' = current_track Samples.paused_engine
          /\ duration s' = duration Samples.paused_engine
          /\ events s' = events Samples.paused_engine).
Proof.
  split; [reflexivity|].
  apply (proj2 (set_position_always_succeeds Samples.quiet_backend 0
                  Samples.paused_engine)).
  reflexivity.
Defined.

Lemma rewind_track_eq b s :
  Controller.rewind_track b s
  = if is_loaded_flag s
    then (Ok tt, (set_position b (Qmax 0 (position s - 10)) s).2)
    else (Ok tt, s).
Proof.
  unfold Controller.rewind_track, is_loaded, get_position. unfold bind at 1.
  unfold gets at 1. destruct (is_loaded_flag s) eqn:Hl; [|reflexivity].
  unfold bind at 1. unfold gets at 1.
  destruct (set_position_loaded b (Qmax 0 (position s - 10)) s Hl)
    as (s' & Hset & _).
  now rewrite (bind_ok _ _ _ _ _ Hset), Hset.
Qed.

(** X20. [rewind_track] does nothing when no track is loaded and raises
    nothing otherwise. More than ten seconds into the track it moves the
    stored position back by ten seconds and changes nothing else (a paused
    track stays paused). Within the first ten seconds its target is 0, so
    it restarts the track: with a backend that accepts, the position is 0
    and a track that was paused is playing again. *)
Theorem rewind_track_spec b s :
  (is_loaded_flag s = false -> Controller.rewind_track b s = (Ok tt, s))
  /\ (is_loaded_flag s = true ->
      (10 < position s)%Q ->
      (position s <= duration s)%Q ->
      exists s',
        Controller.rewind_track b s = (Ok tt, s')
        /\ (position s' == position s - 10)%Q
        /\ s' = set_position_field (position s') s)
  /\ (is_loaded_flag s = true ->
      (position s <= 10)%Q ->
      music_stop b = None ->
      music_play b 0 = None ->
      music_set_volume b (volume s) = None ->
      exists s',
        Controller.rewind_track b s = (Ok tt, s')
        /\ position s' = 0%Q
        /\ is_paused s' = false
        /\ is_playing s' = is_playing s
        /\ current_track s' = current_track s
        /\ duration s' = duration s).
Proof.
  split; [|split].
  - intros Hl. now rewrite rewind_track_eq, Hl.
  - intros Hl Hpos Hdur. rewrite rewind_track_eq, Hl.
    destruct (set_position_loaded b (Qmax 0 (position s - 10)) s Hl)
      as (s' & Hset & Hfar & _).
    assert (Hmax : (Qmax 0 (position s - 10) == position s - 10)%Q)
      by (apply Q.max_r; lra).
    assert (Hne : Qeq_bool (Qmax 0 (position s - 10)) 0 = false).
    { destruct (Qeq_bool _ 0) eqn:E; [|reflexivity].
      apply Qeq_bool_iff in E. rewrite Hmax in E. lra. }
    rewrite Hset. exists s'. split; [reflexivity|].
    rewrite (Hfar Hne). cbn. split; [|reflexivity].
    rewrite Hmax. rewrite Q.min_r by lra. apply Q.max_r. lra.
  - intros Hl Hpos Hstop Hplay Hvol. rewrite rewind_track_eq, Hl.
    destruct (set_position_loaded b (Qmax 0 (position s - 10)) s Hl)
      as (s' & Hset & _ & Hnear).
    assert (Heq : Qeq_bool (Qmax 0 (position s - 10)) 0 = true).
    { apply Qeq_bool_iff. apply Q.max_l. lra. }
    rewrite Hset. exists s'. split; [reflexivity|].
    destruct (Hnear Heq Hstop Hplay Hvol) as (? & ? & ? & _ & ? & ? & _).
    auto.
Qed.

Lemma rewind_track_spec_witness :
  is_loaded_flag Samples.paused_engine = true
  /\ (10 < position Samples.paused_engine)%Q
  /\ (position Samples.paused_engine <= duration Samples.paused_engine)%Q
  /\ (exists s',
        Controller.rewind_track Samples.quiet_backend Samples.paused_engine = (Ok tt, s')
        /\ (position s' == position Samples.paused_engine - 10)%Q
        /\ s' = set_position_field (position s') Samples.paused_engine)
  /\ (position Samples.playing_engine <= 10)%Q
  /\ (exists s',
        Controller.rewind_track Samples.quiet_backend
          (set_is_paused true Samples.playing_engine) = (Ok tt, s')
        /\ position s' = 0%Q
        /\ is_paused s' = false
        /\ is_playing s' = true
        /\ current_track s' = Some "a.mp3"
        /\ duration s' = 200%Q).
Proof.
  split; [reflexivity|]. split; [reflexivity|]. split; [discriminate|].
  split.
  - apply (proj1 (proj2 (rewind_track_spec Samples.quiet_backend
                           Samples.paused_engine)));
      [reflexivity | reflexivity | discriminate].
  - split; [discriminate|].
    apply (proj2 (proj2 (rewind_track_spec Samples.quiet_backend
                           (set_is_paused true Samples.playing_engine))));
      [reflexivity | discriminate | reflexivity | reflexivity | reflexivity].
Defined.

(** X21. When the tracker finds, while the engine is playing and not
    paused, that the backend has stopped playing, it clears the playing
    flag, leaves the position where it was and the track loaded, and
    invokes the track-end callback and then the position callback, each
    when registered. After that a tracker round changes nothing, whatever
    the backend answers: the end of a track is notified once. A round on
    an engine that is paused or not playing changes nothing either. *)
Theorem track_end_is_notified_once b s :
  (is_playing s && negb (is_paused s) = false ->
   position_tracker b s = (Ok tt, s))
  /\ (is_playing s = true ->
      is_paused s = false ->
      music_get_busy b = false ->
      exists s1,
        position_tracker b s = (Ok tt, s1)
        /\ is_playing s1 = false
        /\ is_paused s1 = false
        /\ position s1 = position s
        /\ is_loaded_flag s1 = is_loaded_flag s
        /\ current_track s1 = current_track s
        /\ events s1
           = events s
               ++ (if on_track_end s then [OnTrackEnd] else [])
               ++ (if on_position_update s
                   then [OnPositionUpdate (position s) (duration s)]
                   else [])
        /\ (forall b', position_tracker b' s1 = (Ok tt, s1))).
Proof.
  split.
  - intros Hidle. unfold position_tracker, try_catch, bind, gets.
    now rewrite Hidle.
  - intros Hplaying Hpaused Hbusy.
    destruct s as [ct l pl pa pos dur vol sp ote opu oe ev].
    cbn in Hplaying, Hpaused. subst pl pa.
    unfold position_tracker, try_catch, bind, gets, modify, ret.
    cbn. rewrite Hbusy. cbn.
    destruct ote, opu; cbn; eexists; (split; [reflexivity|]); cbn;
      rewrite <- ?app_assoc, ?app_nil_r; repeat split.
Qed.

Lemma track_end_is_notified_once_witness :
  is_playing Samples.playing_engine = true
  /\ is_paused Samples.playing_engine = false
  /\ music_get_busy Samples.ended_backend = false
  /\ exists s1,
      position_tracker Samples.ended_backend Samples.playing_engine = (Ok tt, s1)
      /\ is_playing s1 = false
      /\ is_paused s1 = false
      /\ position s1 = position Samples.playing_engine
      /\ is_loaded_flag s1 = is_loaded_flag Samples.playing_engine
      /\ current_track s1 = current_track Samples.playing_engine
      /\ events s1 = [OnTrackEnd; OnPositionUpdate 5 200]
      /\ (forall b', position_tracker b' s1 = (Ok tt, s1)).
Proof.
  split; [reflexivity|]. split; [reflexivity|]. split; [reflexivity|].
  apply (proj2 (track_end_is_notified_once Samples.ended_backend
                  Samples.playing_engine)); reflexivity.
Defined.

(** X22. Pausing an engine that is playing and playing it again, with a
    backend that accepts to pause, to unpause and the volume, returns
    [True] twice and leads back to the very state it started from, the
    position included: [play] on a paused engine resumes, it does not ask
    the backend to start the track again. *)
Theorem pause_then_play_resumes b1 b2 s :
  is_loaded_flag s = true ->
  is_playing s = true ->
  is_paused s = false ->
  music_pause b1 = None ->
  music_unpause b2 = None ->
  music_set_volume b2 (volume s) = None ->
  exists s1,
    pause b1 s = (Ok true, s1)
    /\ s1 = set_is_paused true s
    /\ play b2 s1 = (Ok true, s).
Proof.
  intros Hl Hp Hpa Hpause Hunpause Hvol. exists (set_is_paused true s).
  split; [|split; [reflexivity|]].
  - unfold pause, except_pygame, try_catch, bind, gets, mixer, modify, ret.
    now rewrite Hp, Hpa, Hpause.
  - unfold play, except_pygame, try_catch, bind, gets, mixer, modify, ret.
    cbn. rewrite Hl, Hunpause. cbn. rewrite Hvol.
    destruct s. cbn in *. now subst.
Qed.

Lemma pause_then_play_resumes_witness :
  is_loaded_flag Samples.playing_engine = true
  /\ music_pause Samples.quiet_backend = None
  /\ music_unpause Samples.quiet_backend = None
  /\ exists s1,
      pause Samples.quiet_backend Samples.playing_engine = (Ok true, s1)
      /\ s1 = set_is_paused true Samples.playing_engine
      /\ play Samples.quiet_backend s1 = (Ok true, Samples.playing_engine).
Proof.
  split; [reflexivity|]. split; [reflexivity|]. split; [reflexivity|].
  apply (pause_then_play_resumes Samples.quiet_backend Samples.quiet_backend
           Samples.playing_engine); reflexivity.
Defined.

(** X23. When the file exists and has a supported extension but the
    backend cannot load it, [load_track] returns [False] and reports
    "Failed to load track". Unlike a missing file or an unsupported
    extension this failure does not leave the engine as it was: the track
    that was playing has been stopped and its position reset, while it
    stays the current, loaded track with its duration. *)
Theorem load_track_backend_failure b track_path s msg :
  path_exists b track_path = true ->
  Pathlib.lower (Pathlib.suffix track_path) ∈ supported_formats ->
  music_stop b = None ->
  music_load b track_path = Some msg ->
  exists s',
    load_track b track_path s = (Ok false, s')
    /\ s' = reported ("Failed to load track: " +:+ msg)
              (set_position_field 0
                 (set_is_paused false (set_is_playing false s)))
    /\ is_playing s' = false
    /\ is_paused s' = false
    /\ position s' = 0%Q
    /\ current_track s' = current_track s
    /\ is_loaded_flag s' = is_loaded_flag s
    /\ duration s' = duration s.
Proof.
  intros Hex Hformat Hstop Hload. eexists. split.
  - unfold load_track, try_catch. rewrite Hex. cbn [negb].
    rewrite bool_decide_eq_true_2 by assumption. cbn [negb].
    unfold bind at 1. rewrite stop_eq, Hstop.
    unfold bind at 1. unfold mixer at 1. rewrite Hload. unfold raise.
    rewrite (bind_ok _ _ _ _ _ (handle_error_eq _ _)). reflexivity.
  - split; [reflexivity|].
    destruct (reported_fields ("Failed to load track: " +:+ msg)
                (set_position_field 0
                   (set_is_paused false (set_is_playing false s))))
      as (-> & -> & -> & -> & -> & -> & _).
    repeat split.
Qed.

Lemma load_track_backend_failure_witness :
  path_exists Samples.deaf_backend "b.ogg" = true
  /\ Pathlib.lower (Pathlib.suffix "b.ogg") ∈ supported_formats
  /\ exists s',
      load_track Samples.deaf_backend "b.ogg" Samples.playing_engine
      = (Ok false, s')
      /\ s' = reported ("Failed to load track: " +:+ "Unrecognized audio format")
                (set_position_field 0
                   (set_is_paused false
                      (set_is_playing false Samples.playing_engine)))
      /\ is_playing s' = false
      /\ is_paused s' = false
      /\ position s' = 0%Q
      /\ current_track s' = Some "a.mp3"
      /\ is_loaded_flag s' = true
      /\ duration s' = 200%Q.
Proof.
  assert (Hformat : Pathlib.lower (Pathlib.suffix "b.ogg") ∈ supported_formats)
    by compute_done.
  split; [reflexivity|]. split; [exact Hformat|].
  exact (load_track_backend_failure Samples.deaf_backend "b.ogg"
           Samples.playing_engine "Unrecognized audio format"
           eq_refl Hformat eq_refl eq_refl).
Defined.

End EnginePlayback.

(** ** The controller *)

Module Navigation.
Import Engine EngineFacts Controller.

Lemma in_manager_run {A} (m : M Catalog.world A) w e a r w' :
  m w = (r, w') -> in_manager m (Session w e a) = (r, Session w' e a).
Proof. intros H. unfold in_manager. cbn. now rewrite H. Qed.

Lemma in_player_run {A} (m : M engine A) w e a r e' :
  m e = (r, e') ->
  in_player m (Session w e a) = (r, Session w e' (errors_reported e e' a)).
Proof. intros H. unfold in_player. cbn. now rewrite H. Qed.

Lemma errors_reported_same before after a :
  events after = events before -> errors_reported before after a = a.
Proof. intros H. unfold errors_reported. now rewrite H, drop_all. Qed.

Lemma errors_reported_one msg e a :
  on_error e = true ->
  errors_reported e (reported msg e) a = on_player_error msg a.
Proof.
  intros Hcb. unfold errors_reported, reported. rewrite Hcb. cbn.
  now rewrite drop_app_length.
Qed.

(** A call that reports nothing leaves the application as it was. *)
Lemma in_player_quiet {A} (m : M engine A) w e a r e' :
  m e = (r, e') ->
  events e' = events e ->
  in_player m (Session w e a) = (r, Session w e' a).
Proof.
  intros H Hev. rewrite (in_player_run _ _ _ _ _ _ H).
  now rewrite errors_reported_same.
Qed.

Lemma in_app_gets {A} (f : app -> A) w e a :
  in_app (gets f) (Session w e a) = (Ok (f a), Session w e a).
Proof. reflexivity. Qed.

Lemma in_app_modify (f : app -> app) w e a :
  in_app (modify f) (Session w e a) = (Ok tt, Session w e (f a)).
Proof. reflexivity. Qed.

Lemma load_track_returns b p e :
  exists r e' new,
    load_track b p e = (Ok r, e') /\ events e' = events e ++ new.
Proof.
  destruct (EngineInvariants.run_call_events b (LoadTrack p) e)
    as (r & e' & new & Hrun & Hev & _).
  unfold run_call in Hrun.
  apply bind_inv in Hrun as (r0 & e1 & Hload & [= _ ->]). eauto.
Qed.

Lemma play_returns b e :
  exists r e' new, play b e = (Ok r, e') /\ events e' = events e ++ new.
Proof.
  destruct (EngineInvariants.run_call_events b Play e)
    as (r & e' & new & Hrun & Hev & _).
  unfold run_call in Hrun.
  apply bind_inv in Hrun as (r0 & e1 & Hplay & [= _ ->]). eauto.
Qed.

Lemma set_position_returns b p e :
  exists r e', set_position b p e = (Ok r, e').
Proof.
  destruct (EngineInvariants.run_call_events b (SetPosition p) e)
    as (r & e' & new & Hrun & _).
  unfold run_call in Hrun.
  apply bind_inv in Hrun as (r0 & e1 & Hset & _). eauto.
Qed.

Lemma load_track_missing b p e :
  path_exists b p = false ->
  load_track b p e = (Ok false, reported ("File not found: " +:+ p) e).
Proof.
  intros Hex. unfold load_track, try_catch. rewrite Hex. cbn [negb].
  now rewrite (bind_ok _ _ _ _ _ (handle_error_eq _ e)).
Qed.

(** [play_selected_track] on a selected playlist, step by step. *)
Lemma play_selected_track_eq b w e a tracks :
  current_playlist_name a <> "" ->
  Catalog.get_playlist_tracks (current_playlist_name a) w = (Ok tracks, w) ->
  play_selected_track b (Session w e a)
  = (Ok tt,
     match tracks !! current_track_index a with
     | None => Session w e a
     | Some t =>
         match load_track b (Catalog.path_str w t) e with
         | (Ok true, e1) =>
             Session w (play b e1).2
               (now_playing
                  (Catalog.display_name_in w (current_playlist_name a) t)
                  (errors_reported e1 (play b e1).2
                     (errors_reported e e1 a)))
         | (_, e1) =>
             Session w e1
               (showerror "Failed to load track" (errors_reported e e1 a))
         end
     end).
Proof.
  intros Hname Htracks. unfold play_selected_track.
  rewrite (bind_ok _ _ _ _ _ (in_app_gets current_playlist_name w e a)).
  destruct (String.eqb_spec (current_playlist_name a) ""); [contradiction|].
  unfold try_catch.
  rewrite (bind_ok _ _ _ _ _ (in_manager_run _ w e a _ _ Htracks)).
  rewrite (bind_ok _ _ _ _ _ (in_app_gets current_track_index w e a)).
  destruct (tracks !! current_track_index a) as [t|]; [|reflexivity].
  rewrite (bind_ok _ _ _ _ _
             (in_manager_run (gets (fun w => Catalog.path_str w t)) w e a
                _ _ eq_refl)).
  destruct (load_track_returns b (Catalog.path_str w t) e)
    as (loaded & e1 & new1 & Hload & _).
  rewrite (bind_ok _ _ _ _ _ (in_player_run _ w e a _ _ Hload)), Hload.
  destruct loaded.
  - destruct (play_returns b e1) as (r & e2 & new2 & Hplay & _).
    rewrite (bind_ok _ _ _ _ _ (in_player_run _ w e1 _ _ _ Hplay)), Hplay.
    rewrite (bind_ok _ _ _ _ _ (in_app_modify _ w e2 _)).
    rewrite (bind_ok _ _ _ _ _
               (in_manager_run _ w e2 _ _ _
                  (Exporting.get_track_display_name_eq
                     (current_playlist_name a) t w w eq_refl))).
    rewrite (bind_ok _ _ _ _ _ (in_app_modify _ w e2 _)).
    rewrite in_app_modify. reflexivity.
  - rewrite in_app_modify. reflexivity.
Qed.

(** X24. [play_selected_track] raises nothing and never changes the
    catalog. With no playlist selected, and with a track index beyond the
    end of the playlist, it does nothing at all, silently. Otherwise it
    loads the selected track; the error callback of the application runs
    for every error that the engine reports meanwhile, opening a dialog
    and setting the status line. When the engine refuses the track, a
    further dialog "Failed to load track" is opened: for a missing file
    the user sees two dialogs, "File not found: <path>" and then "Failed
    to load track", and the status line reads "Playback error occurred".
    When the engine accepts the track, [play] is called and the
    application marks itself as playing and shows "Playing" and the
    display name of the track, whatever [play] has returned; if the engine
    has reported no error, nothing else has changed. *)
Theorem play_selected_track_outcome b w e a :
  exists e' a',
    play_selected_track b (Session w e a) = (Ok tt, Session w e' a')
    /\ (current_playlist_name a = "" -> e' = e /\ a' = a)
    /\ (forall tracks,
          current_playlist_name a <> "" ->
          Catalog.get_playlist_tracks (current_playlist_name a) w
          = (Ok tracks, w) ->
          match tracks !! current_track_index a with
          | None => e' = e /\ a' = a
          | Some t =>
              exists loaded e1,
                load_track b (Catalog.path_str w t) e = (Ok loaded, e1)
                /\ (if loaded : bool then
                      e' = (play b e1).2
                      /\ a' = now_playing
                                (Catalog.display_name_in w
                                   (current_playlist_name a) t)
                                (errors_reported e1 e' (errors_reported e e1 a))
                      /\ (events e' = events e ->
                          a' = now_playing
                                 (Catalog.display_name_in w
                                    (current_playlist_name a) t) a)
                    else
                      e' = e1
                      /\ a' = showerror "Failed to load track"
                                (errors_reported e e1 a))
                /\ (path_exists b (Catalog.path_str w t) = false ->
                    on_error e = true ->
                    loaded = false
                    /\ a' = showerror "Failed to load track"
                              (on_player_error
                                 ("File not found: " +:+ Catalog.path_str w t)
                                 a)
                    /\ errors_shown a'
                       = errors_shown a
                           ++ ["File not found: " +:+ Catalog.path_str w t;
                               "Failed to load track"]
                    /\ status_var a' = "Playback error occurred"
                    /\ ui_is_playing a' = ui_is_playing a)
          end).
Proof.
  destruct (String.eqb_spec (current_playlist_name a) "") as [Hname|Hname].
  - exists e, a. split; [|split; [auto | contradiction]].
    unfold play_selected_track.
    rewrite (bind_ok _ _ _ _ _ (in_app_gets current_playlist_name w e a)).
    now rewrite Hname.
  - destruct (CatalogFacts.get_playlist_tracks_pure (current_playlist_name a) w)
      as (tracks & Htracks).
    rewrite (play_selected_track_eq b w e a tracks Hname Htracks).
    destruct (tracks !! current_track_index a) as [t|] eqn:Ht.
    + destruct (load_track_returns b (Catalog.path_str w t) e)
        as (loaded & e1 & new1 & Hload & Hev1).
      assert (Hmissing :
        path_exists b (Catalog.path_str w t) = false ->
        loaded = false
        /\ e1 = reported ("File not found: " +:+ Catalog.path_str w t) e).
      { intros Hex. rewrite (load_track_missing _ _ _ Hex) in Hload.
        now injection Hload as <- <-. }
      rewrite Hload. destruct loaded; eexists _, _;
        (split; [reflexivity|]); (split; [contradiction|]);
        intros tracks' _ Htracks'; rewrite Htracks in Htracks';
        injection Htracks' as <-; rewrite Ht; eexists _, _;
        (split; [exact Hload|]).
      * split; [|intros Hex _; now destruct (Hmissing Hex)].
        split; [reflexivity|]. split; [reflexivity|].
        intros Hev. f_equal.
        destruct (play_returns b e1) as (r & e2 & new2 & Hplay & Hev2).
        rewrite Hplay in *. cbn [snd] in *.
        rewrite Hev2, Hev1, <- app_assoc in Hev.
        apply (f_equal length) in Hev as Hlen. rewrite !length_app in Hlen.
        assert (new1 = [] /\ new2 = []) as [-> ->]
          by (split; apply length_zero_iff_nil; lia).
        rewrite app_nil_r in Hev1, Hev2.
        rewrite (errors_reported_same e e1) by assumption.
        now apply errors_reported_same.
      * split; [split; reflexivity|].
        intros Hex Hcb. destruct (Hmissing Hex) as [_ ->].
        rewrite (errors_reported_one _ _ _ Hcb).
        split; [reflexivity|]. split; [reflexivity|].
        split; [|split; reflexivity].
        cbn. now rewrite <- app_assoc.
    + exists e, a. split; [reflexivity|]. split; [contradiction|].
      intros tracks' _ Htracks'. rewrite Htracks in Htracks'.
      injection Htracks' as <-. rewrite Ht. auto.
Qed.

(** The first steps of [next_track] without shuffle: the index is read,
    stored again one higher, and read back. *)
Ltac index_moved :=
  match goal with
  | |- context [Session ?w ?e ?a] =>
      rewrite (bind_ok _ _ _ _ _ (in_app_gets current_track_index w e a));
      rewrite (bind_ok _ _ _ _ _ (in_app_modify _ w e a));
      rewrite (bind_ok _ _ _ _ _ (in_app_gets current_track_index w e _));
      cbn [current_track_index set_current_track_index]
  end.

(** X25. [next_track] with a playlist selected. An empty playlist leaves
    everything as it is. With shuffle on, the track at the index drawn by
    [random.randint(0, len(tracks) - 1)] is played, which may be the
    current one again. With shuffle off the index moves on by one and that
    track is played; past the last track the index wraps to 0 when the
    playlist loops, and otherwise nothing is played, the status line reads
    "End of playlist" and the index is left one further, beyond the end of
    the playlist. *)
Theorem next_track_moves b randint w e a tracks :
  current_playlist_name a <> "" ->
  Catalog.get_playlist_tracks (current_playlist_name a) w = (Ok tracks, w) ->
  (tracks = [] -> next_track b randint (Session w e a) = (Ok tt, Session w e a))
  /\ (tracks <> [] ->
      shuffle_mode a = true ->
      next_track b randint (Session w e a)
      = play_selected_track b
          (at_index (randint 0 (length tracks - 1)) (Session w e a)))
  /\ (tracks <> [] ->
      shuffle_mode a = false ->
      current_track_index a + 1 < length tracks ->
      next_track b randint (Session w e a)
      = play_selected_track b
          (at_index (current_track_index a + 1) (Session w e a)))
  /\ (tracks <> [] ->
      shuffle_mode a = false ->
      length tracks <= current_track_index a + 1 ->
      loop_playlist a = true ->
      next_track b randint (Session w e a)
      = play_selected_track b (at_index 0 (Session w e a)))
  /\ (tracks <> [] ->
      shuffle_mode a = false ->
      length tracks <= current_track_index a + 1 ->
      loop_playlist a = false ->
      next_track b randint (Session w e a)
      = (Ok tt,
         Session w e
           (set_status_var "End of playlist"
              (set_current_track_index (current_track_index a + 1) a)))).
Proof.
  intros Hname Htracks.
  assert (Hstart : forall k : list Catalog.track_path -> M session unit,
             (let* name := in_app (gets current_playlist_name) in
              if String.eqb name "" then ret tt
              else let* tracks :=
                     in_manager (Catalog.get_playlist_tracks name) in
                   k tracks) (Session w e a)
             = k tracks (Session w e a)).
  { intros k.
    rewrite (bind_ok _ _ _ _ _ (in_app_gets current_playlist_name w e a)).
    destruct (String.eqb_spec (current_playlist_name a) ""); [contradiction|].
    now rewrite (bind_ok _ _ _ _ _ (in_manager_run _ w e a _ _ Htracks)). }
  unfold next_track. rewrite Hstart. clear Hstart.
  split; [now intros ->|].
  destruct tracks as [|t tracks']; [repeat split; intros []; reflexivity|].
  rewrite (bind_ok _ _ _ _ _ (in_app_gets shuffle_mode w e a)).
  split; [|split; [|split]]; intros _ Hshuffle; rewrite Hshuffle;
    unfold bind at 1.
  - now rewrite (bind_ok _ _ _ _ _ (in_app_modify _ w e a)).
  - intros Hlt. index_moved.
    destruct (Nat.leb_spec (length (t :: tracks')) (current_track_index a + 1));
      [lia | reflexivity].
  - intros Hle Hloop. index_moved.
    destruct (Nat.leb_spec (length (t :: tracks')) (current_track_index a + 1));
      [|lia].
    rewrite (bind_ok _ _ _ _ _ (in_app_gets loop_playlist w e _)).
    cbn [loop_playlist set_current_track_index]. rewrite Hloop.
    now rewrite (bind_ok _ _ _ _ _ (in_app_modify _ w e _)).
  - intros Hle Hloop. index_moved.
    destruct (Nat.leb_spec (length (t :: tracks')) (current_track_index a + 1));
      [|lia].
    rewrite (bind_ok _ _ _ _ _ (in_app_gets loop_playlist w e _)).
    cbn [loop_playlist set_current_track_index]. rewrite Hloop.
    now rewrite (bind_ok _ _ _ _ _ (in_app_modify _ w e _)).
Qed.

Lemma next_track_moves_witness :
  current_playlist_name Samples.rock_app <> ""
  /\ next_track Samples.quiet_backend (fun _ high => high)
       (Session Samples.rock_world Samples.playing_engine
          (set_current_track_index 1 Samples.rock_app))
     = (Ok tt,
        Session Samples.rock_world Samples.playing_engine
          (set_status_var "End of playlist"
             (set_current_track_index 2 Samples.rock_app))).
Proof.
  split; [discriminate|].
  assert (Htracks :
            Catalog.get_playlist_tracks "Rock" Samples.rock_world
            = (Ok [Catalog.TrackPath "Rock" "a.mp3";
                   Catalog.TrackPath "Rock" "b.mp3"], Samples.rock_world))
    by (vm_compute; reflexivity).
  apply (proj2 (proj2 (proj2 (proj2
           (next_track_moves Samples.quiet_backend (fun _ high => high)
              Samples.rock_world Samples.playing_engine
              (set_current_track_index 1 Samples.rock_app) _
              ltac:(discriminate) Htracks)))));
    [discriminate | reflexivity | cbn; lia | reflexivity].
Defined.



(** X26. [previous_track] with a playlist selected. An empty playlist
    leaves everything as it is. On the first track nothing is played and
    nothing changes, unless the playlist loops: then its last track is
    played. From any later index the track one before is played, also when
    the index was beyond the end of the playlist. *)
Theorem previous_track_moves b w e a tracks :
  current_playlist_name a <> "" ->
  Catalog.get_playlist_tracks (current_playlist_name a) w = (Ok tracks, w) ->
  (tracks = [] -> previous_track b (Session w e a) = (Ok tt, Session w e a))
  /\ (tracks <> [] ->
      current_track_index a = 0 ->
      loop_playlist a = false ->
      previous_track b (Session w e a) = (Ok tt, Session w e a))
  /\ (tracks <> [] ->
      current_track_index a = 0 ->
      loop_playlist a = true ->
      previous_track b (Session w e a)
      = play_selected_track b (at_index (length tracks - 1) (Session w e a)))
  /\ (forall i,
        tracks <> [] ->
        current_track_index a = S i ->
        previous_track b (Session w e a)
        = play_selected_track b (at_index i (Session w e a))).
Proof.
  intros Hname Htracks.
  assert (Hstart : forall k : list Catalog.track_path -> M session unit,
             (let* name := in_app (gets current_playlist_name) in
              if String.eqb name "" then ret tt
              else let* tracks :=
                     in_manager (Catalog.get_playlist_tracks name) in
                   k tracks) (Session w e a)
             = k tracks (Session w e a)).
  { intros k.
    rewrite (bind_ok _ _ _ _ _ (in_app_gets current_playlist_name w e a)).
    destruct (String.eqb_spec (current_playlist_name a) ""); [contradiction|].
    now rewrite (bind_ok _ _ _ _ _ (in_manager_run _ w e a _ _ Htracks)). }
  unfold previous_track. rewrite Hstart. clear Hstart.
  split; [now intros ->|].
  destruct tracks as [|t tracks']; [repeat split; intros; congruence|].
  rewrite (bind_ok _ _ _ _ _ (in_app_gets current_track_index w e a)).
  split; [|split].
  - intros _ Hindex Hloop. rewrite Hindex.
    destruct (Z.ltb_spec (Z.of_nat 0 - 1) 0); [|lia].
    unfold bind at 1.
    rewrite (bind_ok _ _ _ _ _ (in_app_gets loop_playlist w e a)), Hloop.
    rewrite (bind_ok _ _ _ _ _ (in_app_modify _ w e a)).
    cbn. destruct a. cbn in *. now subst.
  - intros _ Hindex Hloop. rewrite Hindex.
    destruct (Z.ltb_spec (Z.of_nat 0 - 1) 0); [|lia].
    unfold bind at 1.
    rewrite (bind_ok _ _ _ _ _ (in_app_gets loop_playlist w e a)), Hloop.
    now rewrite (bind_ok _ _ _ _ _ (in_app_modify _ w e a)).
  - intros i _ Hindex. rewrite Hindex.
    destruct (Z.ltb_spec (Z.of_nat (S i) - 1) 0); [lia|].
    unfold bind at 1.
    rewrite (bind_ok _ _ _ _ _ (in_app_modify _ w e a)).
    replace (Z.to_nat (Z.of_nat (S i) - 1)) with i by lia. reflexivity.
Qed.

Lemma previous_track_moves_witness :
  current_playlist_name Samples.rock_app <> ""
  /\ previous_track Samples.quiet_backend
       (Session Samples.rock_world Samples.playing_engine Samples.rock_app)
     = (Ok tt,
        Session Samples.rock_world Samples.playing_engine Samples.rock_app).
Proof.
  split; [discriminate|].
  assert (Htracks :
            Catalog.get_playlist_tracks "Rock" Samples.rock_world
            = (Ok [Catalog.TrackPath "Rock" "a.mp3";
                   Catalog.TrackPath "Rock" "b.mp3"], Samples.rock_world))
    by (vm_compute; reflexivity).
  apply (proj1 (proj2
           (previous_track_moves Samples.quiet_backend
              Samples.rock_world Samples.playing_engine Samples.rock_app _
              ltac:(discriminate) Htracks)));
    [discriminate | reflexivity | reflexivity].
Defined.


Lemma pause_returns b e : exists r e', pause b e = (Ok r, e').
Proof.
  destruct (EngineInvariants.run_call_events b Pause e)
    as (r & e' & new & Hrun & _).
  unfold run_call in Hrun.
  apply bind_inv in Hrun as (r0 & e1 & Hpause & _). eauto.
Qed.

(** Replaying from the start with a backend that accepts to stop, to play
    and the volume. *)
Lemma replay_eq b e :
  is_loaded_flag e = true ->
  music_stop b = None ->
  music_play b 0 = None ->
  music_set_volume b (volume e) = None ->
  exists e1,
    set_position b 0 e = (Ok true, e1)
    /\ events e1 = events e
    /\ play b e1
       = (Ok true,
          set_is_playing true
            (set_position_field 0
               (set_is_paused false (set_is_playing false e)))).
Proof.
  intros Hloaded Hstop Hplay Hvolume.
  destruct e as [ct lo pl pa po du vo sp ote opu oer ev]. cbn in *. subst lo.
  unfold set_position, stop, play, except_pygame, try_catch, bind, gets,
    mixer, modify, ret. change (Qeq_bool 0 0) with true. cbn.
  rewrite Hstop. cbn.
  destruct pl; cbn; rewrite ?Hplay; cbn; rewrite ?Hvolume; cbn;
    eexists; (split; [reflexivity|]); (split; [reflexivity|]); cbn;
    rewrite Hplay; cbn; rewrite Hvolume; reflexivity.
Qed.

(** Replaying from the start with a backend that refuses to stop. *)
Lemma replay_stop_refused b e msg :
  is_loaded_flag e = true ->
  is_playing e = false ->
  music_stop b = Some msg ->
  set_position b 0 e = (Ok true, reported ("Failed to stop: " +:+ msg) e).
Proof.
  intros Hloaded Hplaying Hstop.
  unfold set_position, try_catch. unfold bind at 1. unfold gets at 1.
  rewrite Hloaded. cbn [negb]. change (Qeq_bool 0 0) with true. cbv iota.
  unfold bind at 1. unfold gets at 1. rewrite Hplaying.
  unfold bind at 1. rewrite stop_eq, Hstop. reflexivity.
Qed.

(** X27. [on_track_end], the callback the application registers for the
    end of a track. Without single-track looping it is [next_track]. With
    single-track looping it raises nothing and leaves the catalog alone:
    it calls [set_position(0)] and [play()], and the error callback of the
    application runs for every error the engine reports meanwhile. With no
    track loaded, engine and application are left as they were. With a
    track loaded and a backend that accepts to stop, to play and the
    volume, the same track is playing again from position 0, not paused,
    no error has been reported and the application is as it was. With a
    track loaded that is not playing, an error callback registered and a
    backend that refuses to stop, the dialog "Failed to stop: <message>"
    has been opened. *)
Theorem on_track_end_outcome b randint w e a :
  (loop_single a = false ->
   Controller.on_track_end b randint (Session w e a)
   = next_track b randint (Session w e a))
  /\ (loop_single a = true ->
      exists e1 e',
        (set_position b 0 e).2 = e1
        /\ (play b e1).2 = e'
        /\ Controller.on_track_end b randint (Session w e a)
           = (Ok tt,
              Session w e' (errors_reported e1 e' (errors_reported e e1 a)))
        /\ (is_loaded_flag e = false ->
            e' = e /\ errors_reported e1 e' (errors_reported e e1 a) = a)
        /\ (is_loaded_flag e = true ->
            music_stop b = None ->
            music_play b 0 = None ->
            music_set_volume b (volume e) = None ->
            is_playing e' = true
            /\ is_paused e' = false
            /\ position e' = 0%Q
            /\ current_track e' = current_track e
            /\ duration e' = duration e
            /\ events e' = events e
            /\ errors_reported e1 e' (errors_reported e e1 a) = a)
        /\ (forall msg,
              is_loaded_flag e = true ->
              is_playing e = false ->
              on_error e = true ->
              music_stop b = Some msg ->
              errors_reported e e1 a
              = on_player_error ("Failed to stop: " +:+ msg) a)).
Proof.
  unfold Controller.on_track_end.
  rewrite (bind_ok _ _ _ _ _ (in_app_gets loop_single w e a)).
  split; intros ->; [reflexivity|].
  destruct (set_position_returns b 0 e) as (r1 & e1 & Hset).
  destruct (play_returns b e1) as (r2 & e2 & new2 & Hplay & _).
  exists e1, e2. rewrite Hset, Hplay.
  split; [reflexivity|]. split; [reflexivity|].
  rewrite (bind_ok _ _ _ _ _ (in_player_run _ w e a _ _ Hset)).
  rewrite (bind_ok _ _ _ _ _ (in_player_run _ w e1 _ _ _ Hplay)).
  split; [reflexivity|]. split; [|split].
  - intros Hloaded.
    assert (e1 = e) as ->.
    { unfold set_position, try_catch, bind, gets in Hset.
      rewrite Hloaded in Hset. cbn in Hset. congruence. }
    assert (e2 = e) as ->.
    { unfold play, except_pygame, try_catch, bind, gets in Hplay.
      rewrite Hloaded in Hplay. cbn in Hplay. congruence. }
    split; [reflexivity|]. now rewrite !errors_reported_same.
  - intros Hloaded Hstop Hstart Hvolume.
    destruct (replay_eq b e Hloaded Hstop Hstart Hvolume)
      as (e1' & Hset' & Hev1 & Hplay').
    rewrite Hset in Hset'. injection Hset' as _ <-.
    rewrite Hplay in Hplay'. injection Hplay' as _ ->.
    repeat (split; [reflexivity|]).
    rewrite (errors_reported_same e e1) by assumption.
    apply errors_reported_same. cbn. now rewrite Hev1.
  - intros msg Hloaded Hplaying Hcb Hstop.
    rewrite (replay_stop_refused b e msg Hloaded Hplaying Hstop) in Hset.
    injection Hset as _ <-. now apply errors_reported_one.
Qed.

(** X28. The play button pressed twice while a track plays: with a backend
    that accepts to pause, to unpause and the volume, [toggle_playback]
    pauses the engine and shows "Paused", and a second [toggle_playback]
    resumes: the engine is back in the very state it was in, the position
    included, the application is marked as playing again and shows
    "Playing", and the catalog is untouched. *)
Theorem toggle_playback_twice b1 b2 w e a :
  ui_is_playing a = true ->
  is_loaded_flag e = true ->
  is_playing e = true ->
  is_paused e = false ->
  music_pause b1 = None ->
  music_unpause b2 = None ->
  music_set_volume b2 (volume e) = None ->
  toggle_playback b1 (Session w e a)
  = (Ok tt,
     Session w (set_is_paused true e)
       (set_status_var "Paused" (set_ui_is_playing false a)))
  /\ toggle_playback b2
       (Session w (set_is_paused true e)
          (set_status_var "Paused" (set_ui_is_playing false a)))
     = (Ok tt, Session w e (set_status_var "Playing" a)).
Proof.
  intros Hui Hloaded Hplaying Hpaused Hpause Hunpause Hvolume.
  assert (Hp : pause b1 e = (Ok true, set_is_paused true e)).
  { unfold pause, except_pygame, try_catch, bind, gets, mixer, modify, ret.
    now rewrite Hplaying, Hpaused, Hpause. }
  assert (Hr : play b2 (set_is_paused true e) = (Ok true, e)).
  { unfold play, except_pygame, try_catch, bind, gets, mixer, modify, ret.
    cbn. rewrite Hloaded, Hunpause. cbn. rewrite Hvolume.
    destruct e. cbn in *. now subst. }
  split.
  - unfold toggle_playback.
    rewrite (bind_ok _ _ _ _ _ (in_app_gets ui_is_playing w e a)), Hui.
    rewrite (bind_ok _ _ _ _ _ (in_player_quiet _ w e a _ _ Hp eq_refl)).
    rewrite (bind_ok _ _ _ _ _ (in_app_modify _ w _ a)).
    now rewrite in_app_modify.
  - unfold toggle_playback.
    rewrite (bind_ok _ _ _ _ _ (in_app_gets ui_is_playing w _ _)).
    cbn [ui_is_playing set_status_var set_ui_is_playing].
    rewrite (bind_ok _ _ _ _ _
               (in_player_quiet is_loaded w (set_is_paused true e) _
                  _ _ eq_refl eq_refl)).
    cbn [is_loaded_flag set_is_paused]. rewrite Hloaded.
    rewrite (bind_ok _ _ _ _ _ (in_player_quiet _ w _ _ _ _ Hr eq_refl)).
    rewrite (bind_ok _ _ _ _ _ (in_app_modify _ w _ _)).
    rewrite in_app_modify. destruct a. cbn in *. now subst.
Qed.

Lemma toggle_playback_twice_witness :
  ui_is_playing Samples.rock_app = true
  /\ is_playing Samples.playing_engine = true
  /\ toggle_playback Samples.quiet_backend
       (Session Samples.rock_world Samples.playing_engine Samples.rock_app)
     = (Ok tt,
        Session Samples.rock_world (set_is_paused true Samples.playing_engine)
          (set_status_var "Paused"
             (set_ui_is_playing false Samples.rock_app)))
  /\ toggle_playback Samples.quiet_backend
       (Session Samples.rock_world (set_is_paused true Samples.playing_engine)
          (set_status_var "Paused"
             (set_ui_is_playing false Samples.rock_app)))
     = (Ok tt,
        Session Samples.rock_world Samples.playing_engine
          (set_status_var "Playing" Samples.rock_app)).
Proof.
  split; [reflexivity|]. split; [reflexivity|].
  apply (toggle_playback_twice Samples.quiet_backend Samples.quiet_backend
           Samples.rock_world Samples.playing_engine Samples.rock_app);
    reflexivity.
Defined.


End Navigation.
